(** * helium-frontend: the localisation core

    A shallow embedding of the translation store ([app/lib/database.ts]),
    the key resolver and auto-translate merge of the editor
    ([ensureLocalizationsForCode], [generateKeyFromText]) and the source
    rewriter and runtime resolver of the preview ([rewriteWithKeys],
    [__i18n]), with the properties the specification states about them;
    then the locale tag the editor appends to a message and the chat route
    reads back ([handleSubmit], [POST]), the name derived for a component
    ([deriveComponentName]) and the rows the table component keeps on
    screen ([handleAddEntry], [handleSave]), with further properties read
    off the code.

    Conventions.
    - A JavaScript string is a sequence of UTF-16 code units; the model keeps
      the code units below 256 (type [ascii], strings of type [string]).
    - An object literal or [Map] used as a table is a finite map or an
      association list over its own keys, with strings as values.  A lookup
      [o[k]] on a plain object also finds what the object inherits from
      [Object.prototype] ([Js.property]); this is modelled where the key of
      a lookup is a text of the source or of a row: the alias table of the
      editor, the translations the provider returns and the object
      [getTranslations] builds.  The tables [__TX] and [__EN] of the emitted
      resolver are read by their own properties.
    - The [components] table and the seeding of a new database are left
      out: the operations start from the open database.
    - Regular expressions are kept as syntax trees and run by a backtracking
      matcher that explores alternatives in the priority order of the
      ECMAScript semantics. *)

From Stdlib Require Import Ascii.
From Stdlib Require String.
From stdpp Require Import base option list sorting strings gmap pretty.

(* ===================================================================== *)
(** ** Code units and strings *)
(* ===================================================================== *)

Module Js.

Definition code (c : ascii) : nat := nat_of_ascii c.

Definition between (lo hi : nat) (c : ascii) : bool :=
  Nat.leb lo (code c) && Nat.leb (code c) hi.

Definition is_lower : ascii -> bool := between 97 122.
Definition is_upper : ascii -> bool := between 65 90.
Definition is_digit : ascii -> bool := between 48 57.
Definition is_alpha (c : ascii) : bool := is_upper c || is_lower c.
(** [[A-Za-z0-9_]] *)
Definition is_word (c : ascii) : bool :=
  is_alpha c || is_digit c || Ascii.eqb c "_".
(** [[a-z0-9]] *)
Definition is_lower_alnum (c : ascii) : bool := is_lower c || is_digit c.
(** [\s]: tab, line feed, vertical tab, form feed, carriage return, space
    and the no-break space. *)
Definition is_ws (c : ascii) : bool :=
  between 9 13 c || Nat.eqb (code c) 32 || Nat.eqb (code c) 160.
(** [.] without the [s] flag: anything but a line terminator. *)
Definition is_any (c : ascii) : bool :=
  negb (Nat.eqb (code c) 10 || Nat.eqb (code c) 13).
Definition is_char (a c : ascii) : bool := Ascii.eqb a c.

(** [toLowerCase] and [toUpperCase] on one code unit.  Below 256 the lower
    case of a letter is again below 256.  [upper_char] is only ever applied
    to a unit of [[A-Za-z0-9_]] (see [__i18n]). *)
Definition lower_char (c : ascii) : ascii :=
  if is_upper c then ascii_of_nat (code c + 32)
  else if between 192 222 c && negb (Nat.eqb (code c) 215)
       then ascii_of_nat (code c + 32)
       else c.
Definition upper_char (c : ascii) : ascii :=
  if is_lower c then ascii_of_nat (code c - 32) else c.

Fixpoint map_string (f : ascii -> ascii) (s : string) : string :=
  match s with
  | EmptyString => EmptyString
  | String c s' => String (f c) (map_string f s')
  end.

Definition toLowerCase : string -> string := map_string lower_char.

Fixpoint trimStart (s : string) : string :=
  match s with
  | String c s' => if is_ws c then trimStart s' else s
  | EmptyString => EmptyString
  end.

Fixpoint trimEnd (s : string) : string :=
  match s with
  | EmptyString => EmptyString
  | String c s' =>
      match trimEnd s' with
      | EmptyString => if is_ws c then EmptyString else String c EmptyString
      | r => String c r
      end
  end.

Definition trim (s : string) : string := trimEnd (trimStart s).

(** [s.slice(0, n)] and [s.slice(n)] for [0 <= n]. *)
Fixpoint take (n : nat) (s : string) : string :=
  match n, s with
  | S n', String c s' => String c (take n' s')
  | _, _ => EmptyString
  end.

Fixpoint drop (n : nat) (s : string) : string :=
  match n, s with
  | S n', String _ s' => drop n' s'
  | _, _ => s
  end.

(** [src.slice(Math.max(0, from), to)] with [to <= src.length]. *)
Definition slice (from to : nat) (s : string) : string :=
  take (to - from) (drop from s).

(** [s.split(sep)] for a one-unit separator: never empty. *)
Fixpoint split (sep : ascii) (s : string) : list string :=
  match s with
  | EmptyString => [EmptyString]
  | String c s' =>
      if Ascii.eqb c sep then EmptyString :: split sep s'
      else match split sep s' with
           | seg :: segs => String c seg :: segs
           | [] => [String c EmptyString]
           end
  end.

(** [arr.pop()] read as a value: the last element. *)
Definition pop (l : list string) : option string := last l.

(** A JavaScript string is truthy when it is not empty. *)
Definition truthy (s : string) : bool := negb (String.eqb s "").

Definition dq : ascii := ascii_of_nat 34.
Definition sq : ascii := ascii_of_nat 39.

Fixpoint takeWhile (p : ascii -> bool) (s : string) : string :=
  match s with
  | String c s' => if p c then String c (takeWhile p s') else EmptyString
  | EmptyString => EmptyString
  end.

Fixpoint dropWhile (p : ascii -> bool) (s : string) : string :=
  match s with
  | String c s' => if p c then dropWhile p s' else s
  | EmptyString => EmptyString
  end.

Fixpoint all_units (p : ascii -> bool) (s : string) : bool :=
  match s with
  | String c s' => p c && all_units p s'
  | EmptyString => true
  end.

(** No unit of [s] satisfies [p]. *)
Definition free (p : ascii -> bool) (s : string) : Prop :=
  all_units (fun c => negb (p c)) s = true.

(** The last [n] units of [s]: [s.slice(Math.max(0, s.length - n))]. *)
Definition last_n (n : nat) (s : string) : string :=
  drop (String.length s - n) s.

(** The members a plain object inherits from [Object.prototype]: a lookup
    [o[k]] finds them when [o] has no own property [k].  Each of them is a
    function or an object: truthy, and no string. *)
Definition prototype_members : list string :=
  ["constructor"; "hasOwnProperty"; "isPrototypeOf"; "propertyIsEnumerable";
   "toLocaleString"; "toString"; "valueOf"; "__proto__";
   "__defineGetter__"; "__defineSetter__"; "__lookupGetter__"; "__lookupSetter__"].

Definition inherited (k : string) : bool :=
  existsb (String.eqb k) prototype_members.

(** What a lookup hands back on an object whose own properties hold
    strings: a string, or a member of [Object.prototype]. *)
Inductive value : Type :=
| Str (s : string)
| Member (name : string).

Definition truthy_value (v : value) : bool :=
  match v with
  | Str s => truthy s
  | Member _ => true
  end.

(** [o[k]] on the object with the own properties [own]; [None] stands for
    [undefined]. *)
Definition property (own : gmap string string) (k : string) : option value :=
  match own !! k with
  | Some s => Some (Str s)
  | None => if inherited k then Some (Member k) else None
  end.

End Js.

(* ===================================================================== *)
(** ** Regular expressions *)
(* ===================================================================== *)

Module Re.

Inductive regex : Type :=
| Empty                              (* the empty pattern *)
| Class (p : ascii -> bool)          (* one code unit of a class *)
| Seq (r1 r2 : regex)                (* r1 r2 *)
| Alt (r1 r2 : regex)                (* r1|r2 *)
| Star (r : regex)                   (* r*, greedy *)
| Group (n : nat) (r : regex)        (* the n-th capturing group *)
| Backref (n : nat)                  (* \n *)
| Bol                                (* ^ *)
| Eol                                (* $ *)
| WordB.                             (* \b *)

Definition Plus (r : regex) : regex := Seq r (Star r).
Definition Opt (r : regex) : regex := Alt r Empty.

(** [r{lo,lo+more}], greedy. *)
Fixpoint upto (more : nat) (r : regex) : regex :=
  match more with
  | 0 => Empty
  | S more' => Opt (Seq r (upto more' r))
  end.

Fixpoint Repeat (lo more : nat) (r : regex) : regex :=
  match lo with
  | 0 => upto more r
  | S lo' => Seq r (Repeat lo' more r)
  end.

Fixpoint Lit (s : string) : regex :=
  match s with
  | EmptyString => Empty
  | String c s' => Seq (Class (Js.is_char c)) (Lit s')
  end.

Fixpoint seqs (rs : list regex) : regex :=
  match rs with
  | [] => Empty
  | [r] => r
  | r :: rs' => Seq r (seqs rs')
  end.

(** The matcher's state: the captures so far, the code unit just behind the
    current position ([None] at the start of the subject) and the text still
    ahead. *)
Record mstate : Type := MState {
  ms_caps : list (nat * string);
  ms_prev : option ascii;
  ms_rest : string
}.

Fixpoint cap_lookup (n : nat) (caps : list (nat * string)) : option string :=
  match caps with
  | [] => None
  | (m, s) :: caps' => if Nat.eqb n m then Some s else cap_lookup n caps'
  end.

Definition set_cap (n : nat) (t : string) (st : mstate) : mstate :=
  MState ((n, t) :: ms_caps st) (ms_prev st) (ms_rest st).

Fixpoint strip_prefix (p s : string) : option string :=
  match p, s with
  | EmptyString, _ => Some s
  | String a p', String b s' => if Ascii.eqb a b then strip_prefix p' s' else None
  | String _ _, EmptyString => None
  end.

Fixpoint last_unit (prev : option ascii) (t : string) : option ascii :=
  match t with
  | EmptyString => prev
  | String c t' => last_unit (Some c) t'
  end.

Definition word_before (st : mstate) : bool :=
  match ms_prev st with Some c => Js.is_word c | None => false end.
Definition word_after (st : mstate) : bool :=
  match ms_rest st with String c _ => Js.is_word c | EmptyString => false end.

(** One more iteration of a starred body, or stop: iterations are tried
    first (greedy), and an iteration that consumed nothing is dropped, as in
    ECMAScript's RepeatMatcher. *)
Fixpoint star_run (step : mstate -> list (string * mstate)) (fuel : nat)
    (st : mstate) : list (string * mstate) :=
  match fuel with
  | 0 => [(EmptyString, st)]
  | S fuel' =>
      flat_map (fun '(t1, st1) =>
                  match t1 with
                  | EmptyString => []
                  | _ => map (fun '(t2, st2) => (t1 +:+ t2, st2))
                             (star_run step fuel' st1)
                  end)
               (step st)
      ++ [(EmptyString, st)]
  end.

(** [run r st]: every way [r] matches at [st], best first; each with the
    text it consumed. *)
Fixpoint run (r : regex) (st : mstate) : list (string * mstate) :=
  match r with
  | Empty => [(EmptyString, st)]
  | Class p =>
      match ms_rest st with
      | String c rest =>
          if p c then [(String c EmptyString, MState (ms_caps st) (Some c) rest)]
          else []
      | EmptyString => []
      end
  | Seq r1 r2 =>
      flat_map (fun '(t1, st1) =>
                  map (fun '(t2, st2) => (t1 +:+ t2, st2)) (run r2 st1))
               (run r1 st)
  | Alt r1 r2 => run r1 st ++ run r2 st
  | Star r' => star_run (run r') (S (String.length (ms_rest st))) st
  | Group n r' => map (fun '(t, st') => (t, set_cap n t st')) (run r' st)
  | Backref n =>
      match cap_lookup n (ms_caps st) with
      | None => [(EmptyString, st)]
      | Some t =>
          match strip_prefix t (ms_rest st) with
          | Some rest => [(t, MState (ms_caps st) (last_unit (ms_prev st) t) rest)]
          | None => []
          end
      end
  | Bol => match ms_prev st with None => [(EmptyString, st)] | Some _ => [] end
  | Eol => match ms_rest st with EmptyString => [(EmptyString, st)] | _ => [] end
  | WordB => if xorb (word_before st) (word_after st) then [(EmptyString, st)] else []
  end.

(** What a successful match hands on: the matched text, the captures, the
    offset of the match, and the whole subject. *)
Record minfo : Type := MInfo {
  mi_text : string;
  mi_caps : list (nat * string);
  mi_offset : nat;
  mi_src : string
}.

Definition group (n : nat) (m : minfo) : string :=
  default EmptyString (cap_lookup n (mi_caps m)).

(** The best match of [r] that starts exactly here. *)
Definition match_at (r : regex) (prev : option ascii) (rest : string)
  : option (string * mstate) :=
  head (run r (MState [] prev rest)).

(** [re.test(s)] for a regex without the [g] flag. *)
Fixpoint test_from (r : regex) (prev : option ascii) (rest : string) : bool :=
  match match_at r prev rest with
  | Some _ => true
  | None =>
      match rest with
      | EmptyString => false
      | String c rest' => test_from r (Some c) rest'
      end
  end.

Definition test (r : regex) (s : string) : bool := test_from r None s.

(** The successive results of [re.exec(src)] for a regex with the [g] flag,
    and [src.replace(re, f)] for such a regex.  Matches are found left to
    right on the original subject; after a match the scan resumes at its
    end, one unit further when the match was empty.  [skip] counts the units
    of the current match still to be passed over. *)
Fixpoint exec_from (r : regex) (src : string) (pos : nat) (prev : option ascii)
    (rest : string) (skip : nat) : list minfo :=
  match rest with
  | EmptyString =>
      match skip with
      | 0 =>
          match match_at r prev rest with
          | Some (t, st) => [MInfo t (ms_caps st) pos src]
          | None => []
          end
      | S _ => []
      end
  | String c rest' =>
      match skip with
      | S skip' => exec_from r src (S pos) (Some c) rest' skip'
      | 0 =>
          match match_at r prev rest with
          | Some (t, st) =>
              MInfo t (ms_caps st) pos src ::
              exec_from r src (S pos) (Some c) rest' (pred (String.length t))
          | None => exec_from r src (S pos) (Some c) rest' 0
          end
      end
  end.

Definition exec_all (r : regex) (src : string) : list minfo :=
  exec_from r src 0 None src 0.

Fixpoint replace_from (r : regex) (f : minfo -> string) (src : string)
    (pos : nat) (prev : option ascii) (rest : string) (skip : nat) : string :=
  match rest with
  | EmptyString =>
      match skip with
      | 0 =>
          match match_at r prev rest with
          | Some (t, st) => f (MInfo t (ms_caps st) pos src)
          | None => EmptyString
          end
      | S _ => EmptyString
      end
  | String c rest' =>
      match skip with
      | S skip' => replace_from r f src (S pos) (Some c) rest' skip'
      | 0 =>
          match match_at r prev rest with
          | Some (t, st) =>
              f (MInfo t (ms_caps st) pos src) +:+
              match String.length t with
              | 0 => String c (replace_from r f src (S pos) (Some c) rest' 0)
              | S n => replace_from r f src (S pos) (Some c) rest' n
              end
          | None => String c (replace_from r f src (S pos) (Some c) rest' 0)
          end
      end
  end.

Definition replace_fn (r : regex) (f : minfo -> string) (src : string) : string :=
  replace_from r f src 0 None src 0.

(** The replacement text of [src.replace(re, template)]: [$$] is a dollar,
    [$&] the match, [$`] the text before it, [$'] the text after it.  The
    patterns replaced by a template here have no capturing group, so [$1]
    and the like stand for themselves. *)
Fixpoint substitute (template matched before after : string) : string :=
  match template with
  | EmptyString => EmptyString
  | String c t' =>
      if Ascii.eqb c "$" then
        match t' with
        | String d t'' =>
            if Ascii.eqb d "$" then String "$" (substitute t'' matched before after)
            else if Ascii.eqb d "&" then matched +:+ substitute t'' matched before after
            else if Ascii.eqb d "`" then before +:+ substitute t'' matched before after
            else if Ascii.eqb d Js.sq then after +:+ substitute t'' matched before after
            else String c (substitute t' matched before after)
        | EmptyString => String c EmptyString
        end
      else String c (substitute t' matched before after)
  end.

Definition template_fn (template : string) (m : minfo) : string :=
  substitute template (mi_text m)
    (Js.take (mi_offset m) (mi_src m))
    (Js.drop (mi_offset m + String.length (mi_text m)) (mi_src m)).

Definition replace (r : regex) (template : string) (src : string) : string :=
  replace_fn r (template_fn template) src.

(** The ways [p*] can match at the head of [s], longest first: the text
    taken and the text left.  [run_star_class] shows that this is what the
    matcher computes for a starred class. *)
Fixpoint splits (p : ascii -> bool) (s : string) : list (string * string) :=
  match s with
  | String c s' =>
      if p c then map (fun '(t, r) => (String c t, r)) (splits p s') ++ [(EmptyString, s)]
      else [(EmptyString, s)]
  | EmptyString => [(EmptyString, EmptyString)]
  end.

Definition after (caps : list (nat * string)) (prev : option ascii)
    (tr : string * string) : string * mstate :=
  (tr.1, MState caps (last_unit prev tr.1) tr.2).

(** [within P r]: every unit a match of [r] takes satisfies [P]. *)
Fixpoint within (P : ascii -> bool) (r : regex) : Prop :=
  match r with
  | Class p => forall c, p c = true -> P c = true
  | Seq r1 r2 | Alt r1 r2 => within P r1 /\ within P r2
  | Star r' | Group _ r' => within P r'
  | Backref _ => False
  | Empty | Bol | Eol | WordB => True
  end.

(** [demands P r]: every match of [r] takes a unit that satisfies [P]. *)
Fixpoint demands (P : ascii -> bool) (r : regex) : Prop :=
  match r with
  | Class p => forall c, p c = true -> P c = true
  | Seq r1 r2 => demands P r1 \/ demands P r2
  | Alt r1 r2 => demands P r1 /\ demands P r2
  | Group _ r' => demands P r'
  | Star _ | Backref _ | Empty | Bol | Eol | WordB => False
  end.

(** The capturing groups of a pattern. *)
Fixpoint groups (r : regex) : list nat :=
  match r with
  | Seq r1 r2 | Alt r1 r2 => groups r1 ++ groups r2
  | Star r' => groups r'
  | Group n r' => n :: groups r'
  | Class _ | Backref _ | Empty | Bol | Eol | WordB => []
  end.

(** [opens P r]: a match of [r] starts with a unit that satisfies [P]. *)
Definition opens (P : ascii -> bool) (r : regex) : Prop :=
  forall caps prev rest,
    match rest with
    | String c _ => P c = false -> run r (MState caps prev rest) = []
    | EmptyString => run r (MState caps prev rest) = []
    end.

End Re.

(* ===================================================================== *)
(** ** The translation store ([app/lib/database.ts]) *)
(* ===================================================================== *)

Module Store.

(** A row of the [localizations] table.  [createLocalization] takes the
    same record and ignores the two timestamps. *)
Record LocalizationEntry : Type := Entry {
  id : string;
  key : string;
  en : string;
  es : string;
  fr : string;
  de : string;
  ja : string;
  zh : string;
  created_at : string;
  updated_at : string
}.

(** The rows in insertion order.  [id] is the primary key and [key] is
    declared UNIQUE. *)
Definition Table : Type := list LocalizationEntry.

(** The two keys of [localStorage] the store and its observers use: the
    snapshot of the database under [localizations_db] (kept decoded; the
    model does not go through the export and its base64 text) and the
    version marker under [localizations_db_version]. *)
Record LocalStorage : Type := Storage {
  localizations_db : option Table;
  localizations_db_version : option string
}.

(** The open database, the storage, and whether the browser accepts a
    write to the storage ([setItem] throws when it does not). *)
Record World : Type := MkWorld {
  db : Table;
  localStorage : LocalStorage;
  storage_writable : bool
}.

Inductive Result (A : Type) : Type :=
| Ok (a : A)
| Throw (msg : string).
Arguments Ok {A} a.
Arguments Throw {A} msg.

(** Store operations may throw.  Each of them opens the database first
    when it is not open ([initializeDatabase]); the model starts from the
    open database. *)
Definition M (A : Type) : Type := World -> Result A * World.

Definition throw {A} (msg : string) : M A := fun w => (Throw msg, w).
Definition gets {A} (f : World -> A) : M A := fun w => (Ok (f w), w).
Definition modify (f : World -> World) : M unit := fun w => (Ok tt, f w).

#[export] Instance M_ret : MRet M := fun A a w => (Ok a, w).
#[export] Instance M_bind : MBind M := fun A B k m w =>
  match m w with
  | (Ok a, w') => k a w'
  | (Throw msg, w') => (Throw msg, w')
  end.

Definition set_db (t : Table) (w : World) : World :=
  MkWorld t (localStorage w) (storage_writable w).

Definition set_version (v : string) (w : World) : World :=
  MkWorld (db w)
    (Storage (localizations_db (localStorage w)) (Some v))
    (storage_writable w).

(** [saveDatabaseToLocalStorage]: write the whole database under
    [localizations_db]; a failing write is caught and logged. *)
Definition saveDatabaseToLocalStorage (w : World) : World :=
  if storage_writable w then
    MkWorld (db w)
      (Storage (Some (db w)) (localizations_db_version (localStorage w)))
      (storage_writable w)
  else w.

Definition validFields : list string := ["key"; "en"; "es"; "fr"; "de"; "ja"; "zh"].
Definition validLocales : list string := ["en"; "es"; "fr"; "de"; "ja"; "zh"].

Definition includes (l : list string) (s : string) : bool :=
  existsb (String.eqb s) l.

(** Reading and writing a column by its name. *)
Definition get_column (name : string) (r : LocalizationEntry) : string :=
  if String.eqb name "key" then key r
  else if String.eqb name "en" then en r
  else if String.eqb name "es" then es r
  else if String.eqb name "fr" then fr r
  else if String.eqb name "de" then de r
  else if String.eqb name "ja" then ja r
  else if String.eqb name "zh" then zh r
  else EmptyString.

Definition set_column (name value : string) (r : LocalizationEntry) : LocalizationEntry :=
  let 'Entry i k e1 e2 e3 e4 e5 e6 c u := r in
  if String.eqb name "key" then Entry i value e1 e2 e3 e4 e5 e6 c u
  else if String.eqb name "en" then Entry i k value e2 e3 e4 e5 e6 c u
  else if String.eqb name "es" then Entry i k e1 value e3 e4 e5 e6 c u
  else if String.eqb name "fr" then Entry i k e1 e2 value e4 e5 e6 c u
  else if String.eqb name "de" then Entry i k e1 e2 e3 value e5 e6 c u
  else if String.eqb name "ja" then Entry i k e1 e2 e3 e4 value e6 c u
  else if String.eqb name "zh" then Entry i k e1 e2 e3 e4 e5 value c u
  else r.

Definition touch (now : string) (r : LocalizationEntry) : LocalizationEntry :=
  let 'Entry i k e1 e2 e3 e4 e5 e6 c _ := r in Entry i k e1 e2 e3 e4 e5 e6 c now.

Definition has_id (i : string) (t : Table) : bool :=
  existsb (fun r => String.eqb (id r) i) t.
Definition has_key (k : string) (t : Table) : bool :=
  existsb (fun r => String.eqb (key r) k) t.

Fixpoint keys_distinct (t : Table) : bool :=
  match t with
  | [] => true
  | r :: t' => negb (has_key (key r) t') && keys_distinct t'
  end.

(** [INSERT OR IGNORE INTO localizations (id, key, en, ...) VALUES (...)]:
    a row that would break the primary key or the UNIQUE key is dropped. *)
Definition insert_or_ignore (now : string) (e : LocalizationEntry) (t : Table) : Table :=
  if has_id (id e) t || has_key (key e) t then t
  else t ++ [Entry (id e) (key e) (en e) (es e) (fr e) (de e) (ja e) (zh e) now now].

Definition apply_sets (sets : list (string * string)) (r : LocalizationEntry)
  : LocalizationEntry :=
  fold_left (fun r' '(c, v) => set_column c v r') sets r.

(** [UPDATE localizations SET <sets>, updated_at = datetime('now') WHERE <cond>]. *)
Definition update_where (cond : LocalizationEntry -> bool)
    (sets : list (string * string)) (now : string) (t : Table) : Table :=
  map (fun r => if cond r then touch now (apply_sets sets r) else r) t.

(** [DELETE FROM localizations WHERE id = ?]. *)
Definition delete_where_id (i : string) (t : Table) : Table :=
  filter (fun r => negb (String.eqb (id r) i)) t.

(** [getAllLocalizations]: [SELECT * FROM localizations ORDER BY key]. *)
Definition key_le (a b : LocalizationEntry) : Prop := String.le (key a) (key b).
#[export] Instance key_le_dec : RelDecision key_le :=
  fun a b => String.le_dec (key a) (key b).

Definition getAllLocalizations : M (list LocalizationEntry) :=
  gets (fun w => merge_sort key_le (db w)).

(** [updateLocalization(id, field, value)].  The statement fails, and
    nothing is written, when the new key would break the UNIQUE
    constraint. *)
Definition updateLocalization (now id_ field value : string) : M unit :=
  if negb (includes validFields field) then throw ("Invalid field: " +:+ field)
  else
    t ← gets db;
    let t' := update_where (fun r => String.eqb (id r) id_) [(field, value)] now t in
    if String.eqb field "key" && keys_distinct t && negb (keys_distinct t')
    then throw "UNIQUE constraint failed: localizations.key"
    else modify (set_db t');; modify saveDatabaseToLocalStorage.

(** The argument of [updateLocalizationByKey]: every field is optional. *)
Record Translations : Type := Tr {
  t_es : option string;
  t_fr : option string;
  t_de : option string;
  t_ja : option string;
  t_zh : option string
}.

Definition no_translations : Translations := Tr None None None None None.

Definition push_update (col : string) (v : option string)
    (updates : list (string * string)) : list (string * string) :=
  match v with
  | Some s => updates ++ [(col, s)]
  | None => updates
  end.

(** The assignments [updateLocalizationByKey] collects, in its order. *)
Definition sets_of (tr : Translations) : list (string * string) :=
  push_update "zh" (t_zh tr)
    (push_update "ja" (t_ja tr)
      (push_update "de" (t_de tr)
        (push_update "fr" (t_fr tr)
          (push_update "es" (t_es tr) [])))).

(** [updateLocalizationByKey(key, translations)]. *)
Definition updateLocalizationByKey (now key_ : string) (tr : Translations) : M unit :=
  let updates := sets_of tr in
  match updates with
  | [] => mret tt
  | _ =>
      modify (fun w => set_db (update_where (fun r => String.eqb (key r) key_) updates now (db w)) w);;
      modify saveDatabaseToLocalStorage
  end.

(** [createLocalization(entry)]. *)
Definition createLocalization (now : string) (entry : LocalizationEntry) : M unit :=
  modify (fun w => set_db (insert_or_ignore now entry (db w)) w);;
  modify saveDatabaseToLocalStorage.

(** [deleteLocalization(id)]. *)
Definition deleteLocalization (id_ : string) : M unit :=
  modify (fun w => set_db (delete_where_id id_ (db w)) w);;
  modify saveDatabaseToLocalStorage.

(** [acc[k] = v] on the object the [reduce] starts from, [{}], given by
    its own properties.  The name [__proto__] is the accessor every object
    inherits, and its setter drops a string: no own property is made for
    that key. *)
Definition assign (k v : string) (acc : gmap string string) : gmap string string :=
  if String.eqb k "__proto__" then acc else <[k := v]> acc.

(** [getTranslations(locale)]: the own properties of the object built by
    the [reduce], later rows overwriting earlier ones. *)
Definition getTranslations (locale : string) : M (gmap string string) :=
  if negb (includes validLocales locale) then throw ("Invalid locale: " +:+ locale)
  else
    gets (fun w =>
      fold_left (fun (acc : gmap string string) r => assign (key r) (get_column locale r) acc)
                (db w) ∅).

(** What [handleSave] of the localisation table does to the store and the
    storage: the update, then the version marker set to [Date.now()],
    inside a [try] of its own. *)
Definition handleSave (now stamp entryId field editValue : string) (w : World) : World :=
  match updateLocalization now entryId field editValue w with
  | (Ok _, w') => if storage_writable w' then set_version stamp w' else w'
  | (Throw _, w') => w'
  end.

(** The two slots of the storage, read off a world. *)
Definition version (w : World) : option string :=
  localizations_db_version (localStorage w).
Definition snapshot (w : World) : option Table :=
  localizations_db (localStorage w).

(** The locale columns an update by key can set, the field of its argument
    that goes to a column, and the part of a row it never writes. *)
Definition locale_columns : list string := ["es"; "fr"; "de"; "ja"; "zh"].

Definition field_of (tr : Translations) (c : string) : option string :=
  if String.eqb c "es" then t_es tr
  else if String.eqb c "fr" then t_fr tr
  else if String.eqb c "de" then t_de tr
  else if String.eqb c "ja" then t_ja tr
  else if String.eqb c "zh" then t_zh tr
  else None.

Definition fixed_part (r : LocalizationEntry) : string * string * string * string :=
  (id r, key r, en r, created_at r).

(** What an update by key does to one row. *)
Definition updated_row (now k : string) (tr : Translations) (r : LocalizationEntry)
  : LocalizationEntry :=
  if String.eqb (key r) k
  then match sets_of tr with [] => r | _ => touch now (apply_sets (sets_of tr) r) end
  else r.

(** A store and a row to try the operations on. *)
Definition sample_row : LocalizationEntry :=
  Entry "btn-2" "button.submit" "Submit" "Enviar" "Soumettre" "Senden" "s" "t"
        "2025-11-01 10:00:00" "2025-11-01 10:00:00".
Definition sample_world : World :=
  MkWorld [sample_row] (Storage (Some [sample_row]) (Some "1762000000000")) true.

End Store.

(* ===================================================================== *)
(** ** Key resolution and auto-translation (the editor) *)
(* ===================================================================== *)

Module Editor.
Import Re Store.

Definition is_quote (c : ascii) : bool := Ascii.eqb c Js.sq || Ascii.eqb c Js.dq.

(** [[A-Za-z0-9 ,.!?:;\-\$\/]] *)
Definition is_text_unit (c : ascii) : bool :=
  Js.is_alpha c || Js.is_digit c ||
  existsb (Ascii.eqb c) [" "; ","; "."; "!"; "?"; ":"; ";"; "-"; "$"; "/"]%char.

(** [/[q][A-Za-z0-9 ,.!?:;\-\$\/]{2,80}[q]/g]; here and below [q] stands
    for the class of the single and the double quote. *)
Definition quoteRegex : regex :=
  seqs [Class is_quote; Repeat 2 78 (Class is_text_unit); Class is_quote].

Definition word (s : string) : regex := seqs [WordB; Lit s; WordB].

(** [/\bimport\b/], [/\bfrom\b/] *)
Definition re_import : regex := word "import".
Definition re_from : regex := word "from".
(** [/\b(className|href)=/] *)
Definition re_attr : regex :=
  seqs [WordB; Group 1 (Alt (Lit "className") (Lit "href")); Lit "="].
(** [/\bhttp\b/] *)
Definition re_http : regex := word "http".
(** [/\bexport\s+(default\s+)?function/] *)
Definition re_export_function : regex :=
  seqs [WordB; Lit "export"; Plus (Class Js.is_ws);
        Opt (Group 1 (Seq (Lit "default") (Plus (Class Js.is_ws))));
        Lit "function"].
(** [/return\s+\{/] *)
Definition re_return_object : regex :=
  seqs [Lit "return"; Plus (Class Js.is_ws); Lit "{"].

Definition newline : ascii := ascii_of_nat 10.

(** The line of [code] around index [idx]: from after the last line feed
    before [idx] to the next line feed at or after it. *)
Definition line_at (idx : nat) (code : string) : string :=
  default EmptyString (last (Js.split newline (Js.take idx code)))
  +:+ default EmptyString (head (Js.split newline (Js.drop idx code))).

Definition banned (lower : string) : bool :=
  String.eqb lower "react" || String.eqb lower "use client".

(** [raw.slice(1, -1)] *)
Definition unquote (raw : string) : string :=
  Js.take (String.length raw - 2) (Js.drop 1 raw).

(** [candidates.add(txt)] on a [Set] kept in insertion order. *)
Definition set_add (x : string) (l : list string) : list string :=
  if existsb (String.eqb x) l then l else l ++ [x].

(** The first loop of [ensureLocalizationsForCode]: the quoted literals
    that look like user-facing text. *)
Definition candidates_of (code : string) : list string :=
  fold_left
    (fun cands m =>
       let txt := Js.trim (unquote (mi_text m)) in
       let line := line_at (mi_offset m) code in
       let lower := Js.toLowerCase txt in
       let isImportLine := test re_import line || test re_from line in
       let isCodeLine :=
         test re_attr line || test re_http line ||
         test re_export_function line || test re_return_object line in
       if Nat.leb 2 (String.length txt) && test (Class Js.is_alpha) txt
          && negb isCodeLine && negb isImportLine && negb (banned lower)
       then set_add txt cands else cands)
    (exec_all quoteRegex code) [].

(** The own properties of the object literal [aliasToKey], and the lookup
    [aliasToKey[lower]] on it. *)
Definition aliases : gmap string string :=
  {[ "home" := "navigation.home"; "about" := "navigation.about";
     "services" := "navigation.services"; "contact" := "navigation.contact" ]}.

Definition aliasToKey (lower : string) : option Js.value :=
  Js.property aliases lower.

(** [new Map(pairs)]: a later pair overwrites an earlier one. *)
Definition new_Map (pairs : list (string * string)) : gmap string string :=
  fold_left (fun m '(k, v) => <[k := v]> m) pairs ∅.

(** [/[^a-z0-9]+/g] and [/^\.+|\.+$/g] *)
Definition non_alnum (c : ascii) : bool := negb (Js.is_lower_alnum c).
Definition is_dot : ascii -> bool := Js.is_char ".".
Definition re_non_alnum : regex := Plus (Class non_alnum).
Definition re_edge_dots : regex :=
  Alt (Seq Bol (Plus (Class is_dot))) (Seq (Plus (Class is_dot)) Eol).

(** [generateKeyFromText] *)
Definition generateKeyFromText (text : string) : string :=
  let base :=
    replace re_edge_dots "" (replace re_non_alnum "." (Js.toLowerCase text)) in
  "auto." +:+ Js.take 40 base.

(** The suffixing loop
    [while (existing.find(e => e.key === finalKey)) { i += 1; finalKey = `${key}.${i}` }].
    [fuel] bounds the iterations of the model; [suffix_loop_spec] shows that
    the bound used by [finalKey_for] is never reached. *)
Fixpoint suffix_loop (fuel : nat) (existing : Table) (key_ : string) (i : nat)
    (finalKey : string) : string :=
  if has_key finalKey existing then
    match fuel with
    | 0 => finalKey
    | S fuel' =>
        suffix_loop fuel' existing key_ (i + 1) (key_ +:+ "." +:+ pretty (i + 1))
    end
  else finalKey.

Definition finalKey_for (existing : Table) (key_ : string) : string :=
  suffix_loop (length existing) existing key_ 1 key_.

(** The slug in the words of the specification: every run of units outside
    [a-z0-9] becomes one dot, the dots at both ends go, forty units are
    kept. *)
Fixpoint collapse_runs (in_run : bool) (s : string) : string :=
  match s with
  | EmptyString => EmptyString
  | String c s' =>
      if non_alnum c
      then if in_run then collapse_runs true s' else String "." (collapse_runs true s')
      else String c (collapse_runs false s')
  end.

Fixpoint strip_trailing (p : ascii -> bool) (s : string) : string :=
  match s with
  | EmptyString => EmptyString
  | String c s' => if Js.all_units p s then EmptyString else String c (strip_trailing p s')
  end.

Definition trim_dots (s : string) : string :=
  strip_trailing is_dot (Js.dropWhile is_dot s).

Definition slug_spec (text : string) : string :=
  Js.take 40 (trim_dots (collapse_runs false (Js.toLowerCase text))).

(** The keys the suffixing loop tries, in order: [key], [key.2], [key.3], ... *)
Definition suffixed (key_ : string) (n : nat) : string :=
  match n with
  | 0 => key_
  | S _ => key_ +:+ "." +:+ pretty (n + 1)
  end.

Definition blank_entry (id_ key_ en_ : string) : LocalizationEntry :=
  Entry id_ key_ en_ "" "" "" "" "" "" "".

(** The local state of [ensureLocalizationsForCode]: the array [existing],
    the map [enToKey], the list [newKeys], and how many ids were drawn.
    [enToKey] holds what the loop sets in it, which is the value of
    [mappedKey]: a key, or the member of [Object.prototype] the alias lookup
    found. *)
Record Scan : Type := MkScan {
  existing : Table;
  enToKey : gmap string Js.value;
  newKeys : list (string * string);
  drawn : nat
}.

Definition truthy_opt (o : option Js.value) : bool :=
  match o with Some v => Js.truthy_value v | None => false end.

(** The key an extracted text is mapped to: alias, then exact English
    value, then English value without regard to case. *)
Definition mappedKey (enToKey_ : gmap string Js.value)
    (enLowerToKey : gmap string string) (text : string) : option Js.value :=
  let lower := Js.toLowerCase text in
  let m1 := aliasToKey lower in
  let m2 := if negb (truthy_opt m1) && bool_decide (is_Some (enToKey_ !! text))
            then enToKey_ !! text else m1 in
  if negb (truthy_opt m2) && bool_decide (is_Some (enLowerToKey !! lower))
  then Js.Str <$> enLowerToKey !! lower else m2.

Section ensure.

(** The environment of one run: the clock of the database, the ids
    [crypto.randomUUID()] hands out, and [Date.now()] at the end. *)
Variable now : string.
Variable uuid : nat -> string.
Variable stamp : string.

(** One turn of [for (const text of candidates)]. *)
Definition resolve_text (enLowerToKey : gmap string string) (sc : Scan) (text : string)
  : M Scan :=
  let mk := mappedKey (enToKey sc) enLowerToKey text in
  if truthy_opt mk then
    mret (MkScan (existing sc)
            (match enToKey sc !! text with
             | Some _ => enToKey sc
             | None => <[text := default (Js.Str EmptyString) mk]> (enToKey sc)
             end)
            (newKeys sc) (drawn sc))
  else
    let finalKey := finalKey_for (existing sc) (generateKeyFromText text) in
    createLocalization now (blank_entry (uuid (drawn sc)) finalKey text);;
    mret (MkScan (existing sc ++ [blank_entry "" finalKey text])
            (<[text := Js.Str finalKey]> (enToKey sc))
            (newKeys sc ++ [(finalKey, text)])
            (S (drawn sc))).

Fixpoint resolve_all (enLowerToKey : gmap string string) (sc : Scan)
    (candidates : list string) : M Scan :=
  match candidates with
  | [] => mret sc
  | text :: rest =>
      sc' ← resolve_text enLowerToKey sc text;
      resolve_all enLowerToKey sc' rest
  end.

(** [/(?:t|__i18n)\(\s*[q]([a-zA-Z0-9_.-]+)[q]\s*\)/g] *)
Definition is_key_unit (c : ascii) : bool :=
  Js.is_word c || Ascii.eqb c "." || Ascii.eqb c "-".
Definition keyRegex : regex :=
  seqs [Alt (Lit "t") (Lit "__i18n"); Lit "("; Star (Class Js.is_ws);
        Class is_quote; Group 1 (Plus (Class is_key_unit)); Class is_quote;
        Star (Class Js.is_ws); Lit ")"].

(** [key.split('.').slice(-1)[0].replace(/_/g, ' ').replace(/\b\w/g, c => c.toUpperCase())] *)
Definition enFromKey (key_ : string) : string :=
  replace_fn (Seq WordB (Class Js.is_word))
    (fun m => Js.map_string Js.upper_char (mi_text m))
    (replace (Class (Js.is_char "_")) " "
       (default EmptyString (last (Js.split "." key_)))).

(** One turn of the second loop: a key referenced by [t('key')] or
    [__i18n('key')] that the store does not have. *)
Definition ensure_key (sc : Scan) (key_ : string) : M Scan :=
  if has_key key_ (existing sc) then mret sc
  else
    let en_ := enFromKey key_ in
    createLocalization now (blank_entry (uuid (drawn sc)) key_ en_);;
    mret (MkScan (existing sc ++ [blank_entry "" key_ en_])
            (enToKey sc)
            (newKeys sc ++ [(key_, en_)])
            (S (drawn sc))).

Fixpoint ensure_keys (sc : Scan) (keys : list string) : M Scan :=
  match keys with
  | [] => mret sc
  | k :: rest => sc' ← ensure_key sc k; ensure_keys sc' rest
  end.

(** What the request to the translate route came to: a failed request, a
    response that is not ok, a body that is not JSON, or the parsed body with
    its [translations] member (when it is an object): locale, then English
    text, then translation. *)
Inductive Fetched : Type :=
| NetworkError
| NotOk (status : nat)
| NotJson
| Body (translations : option (gmap string (gmap string string))).

(** [trans.es?.[item.en]]: a lookup on the parsed object, which finds what
    the object inherits as well. *)
Definition translation (trans : gmap string (gmap string string))
    (locale en_ : string) : option Js.value :=
  match trans !! locale with
  | Some per_text => Js.property per_text en_
  | None => None
  end.

(** [if (trans.es?.[item.en]) updates.es = trans.es[item.en]] *)
Definition translated (trans : gmap string (gmap string string))
    (locale en_ : string) : option Js.value :=
  match translation trans locale en_ with
  | Some v => if Js.truthy_value v then Some v else None
  | None => None
  end.

(** The object [updates] of one item. *)
Record Updates : Type := Up {
  u_es : option Js.value;
  u_fr : option Js.value;
  u_de : option Js.value;
  u_ja : option Js.value;
  u_zh : option Js.value
}.

Definition updates_for (trans : gmap string (gmap string string)) (en_ : string)
  : Updates :=
  Up (translated trans "es" en_) (translated trans "fr" en_)
     (translated trans "de" en_) (translated trans "ja" en_)
     (translated trans "zh" en_).

(** [Object.keys(updates).length > 0] *)
Definition has_updates (u : Updates) : bool :=
  bool_decide (is_Some (u_es u)) || bool_decide (is_Some (u_fr u)) ||
  bool_decide (is_Some (u_de u)) || bool_decide (is_Some (u_ja u)) ||
  bool_decide (is_Some (u_zh u)).

(** The values [db.run] binds to the statement are strings here, or
    members of [Object.prototype], which it refuses. *)
Definition bindable (o : option Js.value) : bool :=
  match o with
  | Some (Js.Member _) => false
  | _ => true
  end.

Definition string_of (o : option Js.value) : option string :=
  match o with
  | Some (Js.Str s) => Some s
  | _ => None
  end.

Definition strings_of (u : Updates) : Translations :=
  Tr (string_of (u_es u)) (string_of (u_fr u)) (string_of (u_de u))
     (string_of (u_ja u)) (string_of (u_zh u)).

(** [updateLocalizationByKey(item.key, updates)] with the values as they
    come from the response: when one of them is no string, [db.run] throws
    while it binds the values, before the statement runs and before
    anything is saved. *)
Definition update_item (key_ : string) (u : Updates) : M unit :=
  if bindable (u_es u) && bindable (u_fr u) && bindable (u_de u)
     && bindable (u_ja u) && bindable (u_zh u)
  then updateLocalizationByKey now key_ (strings_of u)
  else throw "Wrong API use : tried to bind a value of an unknown type".

(** [for (const item of newKeys) { ... updateLocalizationByKey(item.key, updates) }] *)
Fixpoint merge_translations (trans : gmap string (gmap string string))
    (items : list (string * string)) : M unit :=
  match items with
  | [] => mret tt
  | (key_, en_) :: rest =>
      let updates := updates_for trans en_ in
      (if has_updates updates then update_item key_ updates else mret tt);;
      merge_translations trans rest
  end.

Inductive Outcome : Type :=
| NothingNew          (* no key was created *)
| Translated          (* the response was merged *)
| UnexpectedFormat    (* console.warn *)
| Warned.             (* the toast: auto-translation failed *)

(** The version marker and the event, inside their own [try]. *)
Definition bump_version : M unit :=
  modify (fun w => if storage_writable w then set_version stamp w else w).

(** The third step, inside its [try]: whatever is thrown on the way ends
    in the [catch], which logs it and shows the toast. *)
Definition translate_batch (items : list (string * string)) (fetched : Fetched)
  : M Outcome :=
  match items with
  | [] => mret NothingNew
  | _ =>
      match fetched with
      | NetworkError => mret Warned
      | NotOk _ => mret Warned
      | NotJson => mret Warned
      | Body None => mret UnexpectedFormat
      | Body (Some trans) =>
          fun w =>
            match merge_translations trans items w with
            | (Ok _, w1) => (bump_version;; mret Translated) w1
            | (Throw _, w1) => (Ok Warned, w1)
            end
      end
  end.

(** [ensureLocalizationsForCode(code)]; the outcome is returned together
    with the keys created. *)
Definition ensureLocalizationsForCode (code : string) (fetched : Fetched)
  : M (Outcome * list (string * string)) :=
  existing0 ← getAllLocalizations;
  let enToKey0 :=
    Js.Str <$> new_Map (map (fun e => (Js.trim (en e), key e)) existing0) in
  let enLowerToKey :=
    new_Map (map (fun e => (Js.toLowerCase (Js.trim (en e)), key e)) existing0) in
  sc1 ← resolve_all enLowerToKey (MkScan existing0 enToKey0 [] 0) (candidates_of code);
  sc2 ← ensure_keys sc1 (map (group 1) (exec_all keyRegex code));
  o ← translate_batch (newKeys sc2) fetched;
  mret (o, newKeys sc2).

End ensure.

(** The scan after a key was minted for [text]. *)
Definition minted (sc : Scan) (text : string) : Scan :=
  let finalKey := finalKey_for (existing sc) (generateKeyFromText text) in
  MkScan (existing sc ++ [blank_entry "" finalKey text])
         (<[text := Js.Str finalKey]> (enToKey sc))
         (newKeys sc ++ [(finalKey, text)])
         (S (drawn sc)).

(** The items whose values [db.run] binds, and the items the merge gets
    through: those before the first one it does not bind. *)
Definition binds (trans : gmap string (gmap string string)) (en_ : string) : bool :=
  let u := updates_for trans en_ in
  bindable (u_es u) && bindable (u_fr u) && bindable (u_de u)
  && bindable (u_ja u) && bindable (u_zh u).

Fixpoint merged (trans : gmap string (gmap string string))
    (items : list (string * string)) : list (string * string) :=
  match items with
  | [] => []
  | (k, en_) :: rest => if binds trans en_ then (k, en_) :: merged trans rest else []
  end.

(** What the merge of a response does to one row. *)
Definition merge_row (now : string) (trans : gmap string (gmap string string))
    (items : list (string * string)) (r : LocalizationEntry) : LocalizationEntry :=
  fold_left (fun r' '(k, en_) =>
               updated_row now k (strings_of (updates_for trans en_)) r') items r.

(** The keys created so far are distinct and are keys of [existing]. *)
Definition fresh_keys (sc : Scan) : Prop :=
  NoDup (newKeys sc).*1 /\
  forall k, k ∈ (newKeys sc).*1 -> has_key k (existing sc) = true.

(** A run of the editor: a button whose text the store does not have, and
    the answer of the translate route for it. *)
Definition registrate : string := "Reg" +:+ String (ascii_of_nat 237) "strate gratis".
Definition sample_translations : gmap string (gmap string string) :=
  {[ "es" := {[ "Sign up free" := registrate ]} ]}.
Definition sample_uuid (n : nat) : string := "uuid-" +:+ pretty n.
Definition sample_code : string := "<button>{'Sign up free'}</button>".
Definition sample_pending : World :=
  (createLocalization "2025-11-02 09:00:00"
     (blank_entry "uuid-0" "auto.sign.up.free" "Sign up free") sample_world).2.
Definition sample_scan : Scan := MkScan [sample_row] ∅ [] 0.

(** A response with an empty string for a text, and a source whose one
    text is the name of a member every object inherits. *)
Definition sample_partial : gmap string (gmap string string) :=
  {[ "es" := {[ "Submit" := "Mandar" ]}; "fr" := {[ "Submit" := "" ]} ]}.
Definition constructor_code : string := "<h1>{'Constructor'}</h1>".

End Editor.

(* ===================================================================== *)
(** ** The source rewriter and the runtime resolver (the preview) *)
(* ===================================================================== *)

Module Preview.
Import Re Store.

Definition is_quote (c : ascii) : bool := Ascii.eqb c Js.sq || Ascii.eqb c Js.dq.

(** [new Map(pairs).entries()]: the keys in the order of their first
    insertion, each with the value set last. *)
Fixpoint map_set (k v : string) (m : list (string * string)) : list (string * string) :=
  match m with
  | [] => [(k, v)]
  | (k', v') :: m' =>
      if String.eqb k k' then (k', v) :: m' else (k', v') :: map_set k v m'
  end.

Definition Map_entries (pairs : list (string * string)) : list (string * string) :=
  fold_left (fun m '(k, v) => map_set k v m) pairs [].

(** [keyAliases[k] || k] *)
Definition keyAliases (k : string) : option string :=
  if String.eqb k "social.home" then Some "navigation.home"
  else if String.eqb k "social.about" then Some "navigation.about"
  else if String.eqb k "social.services" then Some "navigation.services"
  else if String.eqb k "social.contact" then Some "navigation.contact"
  else None.

Definition resolvedKey (k : string) : string := default k (keyAliases k).

Definition ws : regex := Star (Class Js.is_ws).
Definition quoted (q : ascii) (body : regex) : regex :=
  seqs [Class (Js.is_char q); body; Class (Js.is_char q)].

(** [new RegExp(`>\\s*'${e}'\\s*<`, 'g')], [new RegExp(`\\{\\s*'${e}'\\s*\\}`, 'g')]
    and their double-quoted twins, where [e = escapeForRegex(text)]: every
    unit of [text] that is special in a pattern is escaped, so the pattern
    matches [text] unit by unit. *)
Definition wrapped (opening closing : string) (q : ascii) (text : string) : regex :=
  seqs [Lit opening; ws; quoted q (Lit text); ws; Lit closing].
Definition textNode : ascii -> string -> regex := wrapped ">" "<".
Definition exprLiteral : ascii -> string -> regex := wrapped "{" "}".

Definition call (key_ : string) : string := "__i18n('" +:+ key_ +:+ "')".

(** One turn of [for (const [text, key] of textToKey.entries())]. *)
Definition rewrite_text (out : string) (entry : string * string) : string :=
  let '(text, key_) := entry in
  if negb (Js.truthy text) then out
  else
    let lower := Js.toLowerCase text in
    if String.eqb lower "react" || String.eqb lower "use client" then out
    else
      let out1 :=
        replace (textNode Js.dq text) ("> {" +:+ call key_ +:+ "} <")
          (replace (textNode Js.sq text) ("> {" +:+ call key_ +:+ "} <") out) in
      replace (exprLiteral Js.dq text) ("{" +:+ call key_ +:+ "}")
        (replace (exprLiteral Js.sq text) ("{" +:+ call key_ +:+ "}") out1).

(** [([A-Za-z]+)(?:\.[A-Za-z0-9_]+)+], the shape of a key, with its two
    groups numbered from [g]. *)
Definition keyShape (g : nat) : regex :=
  Group g (Seq (Group (S g) (Plus (Class Js.is_alpha)))
               (Plus (Seq (Lit ".") (Plus (Class Js.is_word))))).

(** [/([q])(([A-Za-z]+)(?:\.[A-Za-z0-9_]+)+)\1/g] *)
Definition keyLike : regex :=
  seqs [Group 1 (Class is_quote); keyShape 2; Backref 1].

(** [/t\(\s*$/], [/__i18n\(\s*$/], [/^\s*:/] *)
Definition re_t_open : regex := seqs [Lit "t("; ws; Eol].
Definition re_i18n_open : regex := seqs [Lit "__i18n("; ws; Eol].
Definition re_colon : regex := seqs [Bol; ws; Lit ":"].

Definition known (allKeys : list string) (k : string) : bool :=
  existsb (String.eqb k) allKeys || existsb (String.eqb (resolvedKey k)) allKeys.

(** The replacer of the [keyLike] pass. *)
Definition keyLike_replacer (allKeys : list string) (m : minfo) : string :=
  let k := group 2 m in
  let offset := mi_offset m in
  let src := mi_src m in
  let before := Js.slice (offset - 12) offset src in
  if test re_t_open before || test re_i18n_open before then mi_text m
  else
    let stop := offset + String.length (mi_text m) in
    let after := Js.slice stop (stop + 5) src in
    if test re_colon after then mi_text m
    else if known allKeys k then "{" +:+ call (resolvedKey k) +:+ "}"
    else mi_text m.

(** [/t\(\s*[q](([A-Za-z]+)(?:\.[A-Za-z0-9_]+)+)[q]\s*\)/g] *)
Definition tCall : regex :=
  seqs [Lit "t("; ws; Class is_quote; keyShape 1; Class is_quote; ws; Lit ")"].

(** [/\{$/], [/^\}/], [/=/] *)
Definition re_brace_end : regex := Seq (Lit "{") Eol.
Definition re_brace_start : regex := Seq Bol (Lit "}").
Definition re_equals : regex := Lit "=".

(** The replacer of the [tCall] pass. *)
Definition tCall_replacer (m : minfo) : string :=
  let k := group 1 m in
  let offset := mi_offset m in
  let src := mi_src m in
  let stop := offset + String.length (mi_text m) in
  let before := Js.slice (offset - 10) offset src in
  let after := Js.slice stop (stop + 10) src in
  if test re_brace_end before || test re_brace_start after || test re_equals before
  then call k
  else "{" +:+ call k +:+ "}".

Definition fields : list string :=
  ["label"; "title"; "description"; "buttonText"; "text"; "placeholder"; "name"].

(** [new RegExp(`${f}\\s*:\\s*'(([A-Za-z]+)(?:\\.[A-Za-z0-9_]+)+)'`, 'g')]
    and its twin. *)
Definition propKey (f : string) (q : ascii) : regex :=
  seqs [Lit f; ws; Lit ":"; ws; quoted q (keyShape 1)].

Definition propKey_replacer (allKeys : list string) (f : string) (m : minfo) : string :=
  let k := group 1 m in
  if known allKeys k then f +:+ ": " +:+ call (resolvedKey k) else mi_text m.

Definition rewrite_field (allKeys : list string) (out f : string) : string :=
  replace_fn (propKey f Js.dq) (propKey_replacer allKeys f)
    (replace_fn (propKey f Js.sq) (propKey_replacer allKeys f) out).

(** The two guards of the [keyLike] replacer, read off the text before and
    after the literal. *)
Definition guarded_before (pre : string) : bool :=
  test re_t_open (Js.last_n 12 pre) || test re_i18n_open (Js.last_n 12 pre).
Definition guarded_after (post : string) : bool :=
  test re_colon (Js.take 5 post).

(** The shape of a key in words: letters, then one or more times a dot
    and a run of word units. *)
Definition word1 (p : ascii -> bool) (s : string) : Prop :=
  s <> EmptyString /\ Js.all_units p s = true.

Fixpoint join_segs (segs : list string) : string :=
  match segs with
  | [] => EmptyString
  | w :: segs' => "." +:+ w +:+ join_segs segs'
  end.

Definition key_str (k : string) : Prop :=
  exists a w ws, k = a +:+ join_segs (w :: ws) /\
    word1 Js.is_alpha a /\ Forall (word1 Js.is_word) (w :: ws).

Definition key_unit (c : ascii) : bool := Js.is_word c || Js.is_char "." c.

(** A quoted literal. *)
Definition literal (q : ascii) (body : string) : string :=
  String q (body +:+ String q EmptyString).

(** The passes of [rewriteWithKeys], in their order. *)
Definition textToKey (entries : list LocalizationEntry) : list (string * string) :=
  Map_entries (map (fun e => (Js.trim (en e), key e)) entries).

Definition rewrite_literals (entries : list LocalizationEntry) (code : string) : string :=
  fold_left rewrite_text (textToKey entries) code.

Definition rewrite_keyLike (allKeys : list string) (out : string) : string :=
  replace_fn keyLike (keyLike_replacer allKeys) out.

Definition rewrite_tCall (out : string) : string :=
  replace_fn tCall tCall_replacer out.

Definition rewrite_fields (allKeys : list string) (out : string) : string :=
  fold_left (rewrite_field allKeys) fields out.

(** [rewriteWithKeys]: the text [out] the passes leave, before the runtime
    preamble is appended.  [entries] is what [getAllLocalizations] returned
    and [code] the component source. *)
Definition rewriteWithKeys (entries : list LocalizationEntry) (code : string) : string :=
  let allKeys := map key entries in
  rewrite_fields allKeys
    (rewrite_tCall
       (rewrite_keyLike allKeys
          (rewrite_literals entries code))).

(** The test of the emitted resolver.  The preamble is a template literal,
    which drops the backslash of [\.]: the pattern that reaches the preview
    is [/^[A-Za-z]+(.[A-Za-z0-9_]+)+$/], with a dot that stands for any
    unit. *)
Definition emitted_shape : regex :=
  seqs [Bol; Plus (Class Js.is_alpha);
        Plus (Group 1 (Seq (Class Js.is_any) (Plus (Class Js.is_word)))); Eol].

(** The shape the rewriter's own patterns use for a key,
    [/^[A-Za-z]+(\.[A-Za-z0-9_]+)+$/]. *)
Definition dotted_shape : regex :=
  seqs [Bol; Plus (Class Js.is_alpha);
        Plus (Group 1 (Seq (Lit ".") (Plus (Class Js.is_word)))); Eol].

(** [(last.charAt(0).toUpperCase() + last.slice(1)).replace(/_/g, ' ')] *)
Definition label_of (last : string) : string :=
  replace (Class (Js.is_char "_")) " "
    (match last with
     | EmptyString => EmptyString
     | String c rest => String (Js.upper_char c) rest
     end).

(** The steps of the resolver after the two tables, for a given test. *)
Definition derive (shape : regex) (k : string) : string :=
  if test shape k then
    match Js.pop (Js.split "." k) with
    | Some last => if Js.truthy last then label_of last else k
    | None => k
    end
  else k.

(** [__i18n], as the preamble defines it over the tables [__TX] and [__EN]. *)
Definition __i18n (__TX __EN : gmap string string) (k : string) : string :=
  match __TX !! k with
  | Some v => if Js.truthy v then v else
      match __EN !! k with
      | Some e => if Js.truthy e then e else derive emitted_shape k
      | None => derive emitted_shape k
      end
  | None =>
      match __EN !! k with
      | Some e => if Js.truthy e then e else derive emitted_shape k
      | None => derive emitted_shape k
      end
  end.

(** The resolver as the specification words it. *)
Definition resolve_spec (__TX __EN : gmap string string) (k : string) : string :=
  match __TX !! k with
  | Some v => if Js.truthy v then v else
      match __EN !! k with
      | Some e => if Js.truthy e then e else derive dotted_shape k
      | None => derive dotted_shape k
      end
  | None =>
      match __EN !! k with
      | Some e => if Js.truthy e then e else derive dotted_shape k
      | None => derive dotted_shape k
      end
  end.

(** One more segment of a key: [\.[A-Za-z0-9_]+]. *)
Definition seg : regex := Seq (Lit ".") (Plus (Class Js.is_word)).

(** A subject whose only quotes are two single quotes, around [B]. *)
Definition two_quoted (A B C : string) : string :=
  A +:+ String Js.sq (B +:+ String Js.sq C).

(** A source with the expression-wrapped literal of [T], and the same
    source with the call of [K] in its place. *)
Definition src_of (pre T post : string) : string :=
  pre +:+ "{'" +:+ T +:+ "'}" +:+ post.
Definition res_of (pre K post : string) : string :=
  pre +:+ ("{" +:+ call K +:+ "}") +:+ post.

Definition not_char (z c : ascii) : bool := negb (Ascii.eqb c z).

(** Two rows of the store for the runs of the rewriter. *)
Definition sample_submit : LocalizationEntry :=
  Entry "btn-1" "button.submit" "Submit" "Enviar" "" "" "" ""
    "2025-11-01 10:00:00" "2025-11-01 10:00:00".

End Preview.

(* ===================================================================== *)
(** ** The table of the store as a whole *)
(* ===================================================================== *)

Module Schema.
Import Store.

(** The two constraints of the [localizations] table: [id] is the primary
    key and [key] is UNIQUE. *)
Definition well_keyed (t : Table) : Prop :=
  NoDup (map id t) /\ NoDup (map key t).

(** What an update by id does to one row. *)
Definition edited_row (now i field value : string) (r : LocalizationEntry)
  : LocalizationEntry :=
  if String.eqb (id r) i then touch now (set_column field value r) else r.

(** The object [getTranslations] builds from a table. *)
Definition table_map (locale : string) (t : Table) : gmap string string :=
  fold_left (fun (acc : gmap string string) r => assign (key r) (get_column locale r) acc) t ∅.

End Schema.

(* ===================================================================== *)
(** ** A scan of a source, step by step *)
(* ===================================================================== *)

Module Rescan.
Import Re Js Store Editor.

(** A text the resolver of the editor finds a key for in the table [t]:
    it has an alias, or a row whose English text is the text, letter case
    and outer white space apart, has a key that is not empty. *)
Definition resolvable (t : Table) (text : string) : Prop :=
  truthy_opt (aliasToKey (toLowerCase text)) = true \/
  exists r, r ∈ t /\ toLowerCase (trim (en r)) = toLowerCase text /\ key r <> "".

(** The keys a source refers to by [t('key')] or [__i18n('key')]. *)
Definition referenced_keys (code : string) : list string :=
  map (group 1) (exec_all keyRegex code).

(** A row of the table [t] with the key [k] and the English text [en_]. *)
Definition stored (t : Table) (k en_ : string) : Prop :=
  exists r, r ∈ t /\ key r = k /\ en r = en_.

(** How the local state of a scan stands to the store while the scan
    runs: every row of [existing] is a row of the store as far as key and
    English text go, every key of the store is a key of [existing], the
    ids not drawn yet are not in the store, and the new keys are stored. *)
Definition in_step (uuid : nat -> string) (sc : Scan) (w : World) : Prop :=
  (forall r, r ∈ existing sc -> stored (db w) (key r) (en r)) /\
  (forall r', r' ∈ db w -> has_key (key r') (existing sc) = true) /\
  (forall n, drawn sc <= n -> has_id (uuid n) (db w) = false) /\
  (forall k en_, (k, en_) ∈ newKeys sc -> stored (db w) k en_).

(** What the maps of a scan know: a text [enToKey] has a key for is
    resolvable in [existing], and a value of [enLowerToKey] is the key of a
    row of [existing]. *)
Definition maps_sound (lm : gmap string string) (sc : Scan) : Prop :=
  (forall t, truthy_opt (enToKey sc !! t) = true -> resolvable (existing sc) t) /\
  (forall x v, lm !! x = Some v ->
     exists r, r ∈ existing sc /\ toLowerCase (trim (en r)) = x /\ key r = v).

(** What the first loop keeps of a quoted literal. *)
Definition candidate_ok (txt : string) : Prop :=
  trim txt = txt /\ 2 <= String.length txt /\ test (Class is_alpha) txt = true /\
  banned (toLowerCase txt) = false.

End Rescan.

(* ===================================================================== *)
(** ** The shape of a minted key *)
(* ===================================================================== *)

Module Slug.
Import Js Editor.

(** The units of a slug: [a-z], [0-9] and the dot. *)
Definition slug_unit (c : ascii) : bool := is_lower_alnum c || is_dot c.

Definition starts_with_dot (s : string) : bool :=
  match s with String c _ => is_dot c | EmptyString => false end.

Fixpoint ends_with_dot (s : string) : bool :=
  match s with
  | EmptyString => false
  | String c EmptyString => is_dot c
  | String _ s' => ends_with_dot s'
  end.

(** Two dots in a row somewhere in [s]. *)
Fixpoint double_dot (s : string) : bool :=
  match s with
  | EmptyString => false
  | String c s' => (is_dot c && starts_with_dot s') || double_dot s'
  end.

End Slug.

(* ===================================================================== *)
(** ** Labels and calls *)
(* ===================================================================== *)

Module Label.
Import Js Re Preview.

(** The label of a segment, unit by unit: the first unit in upper case,
    every underscore a space. *)
Definition capitalize (s : string) : string :=
  match s with
  | EmptyString => EmptyString
  | String c rest => String (upper_char c) rest
  end.

Definition underscore_to_space (c : ascii) : ascii :=
  if is_char "_" c then " "%char else c.

Definition label_spec (last : string) : string :=
  map_string underscore_to_space (capitalize last).

(** One turn of the starred group of [emitted_shape]. *)
Definition dseg : regex := Group 1 (Seq (Class is_any) (Plus (Class is_word))).

(** The text of a call [t('k')]. *)
Definition tcall_text (k : string) : string := "t(" +:+ literal sq k +:+ ")".

End Label.

(* ===================================================================== *)
(** ** The locale tag of a message and the name of a component *)
(* ===================================================================== *)

Module Chat.
Import Js Re.

(** [re.exec(s)] and [s.match(re)] for a regex without the [g] flag: the
    first match, scanning from the left. *)
Fixpoint search_from (r : regex) (src : string) (pos : nat) (prev : option ascii)
    (rest : string) : option minfo :=
  match match_at r prev rest with
  | Some (t, st) => Some (MInfo t (ms_caps st) pos src)
  | None =>
      match rest with
      | EmptyString => None
      | String c rest' => search_from r src (S pos) (Some c) rest'
      end
  end.

Definition exec (r : regex) (src : string) : option minfo :=
  search_from r src 0 None src.

(** [s.replace(re, template)] for a regex without the [g] flag: the first
    match only. *)
Definition replace_first (r : regex) (template : string) (s : string) : string :=
  match exec r s with
  | Some m =>
      take (mi_offset m) s +:+ template_fn template m
      +:+ drop (mi_offset m + String.length (mi_text m)) s
  | None => s
  end.

(** One unit under the [i] flag, for a pattern unit in the ASCII range:
    the unit itself or its other case. *)
Definition is_char_i (a c : ascii) : bool := Ascii.eqb (upper_char a) (upper_char c).

Fixpoint Lit_i (s : string) : regex :=
  match s with
  | EmptyString => Empty
  | String c s' => Seq (Class (is_char_i c)) (Lit_i s')
  end.

Fixpoint alts (rs : list regex) : regex :=
  match rs with
  | [] => Empty
  | [r] => r
  | r :: rs' => Alt r (alts rs')
  end.

(** [/\(locale:\s*(en|es|fr|de|ja|zh)\)/i] *)
Definition localeTag : regex :=
  seqs [Lit_i "(locale:"; Star (Class is_ws);
        Group 1 (alts [Lit_i "en"; Lit_i "es"; Lit_i "fr"; Lit_i "de"; Lit_i "ja"; Lit_i "zh"]);
        Lit_i ")"].

(** [handleSubmit] of the editor: the text handed to [sendMessage], if any.
    [stored] is what [localStorage.getItem("current_locale")] returned,
    [None] for [null] and for a storage that throws. *)
Definition handleSubmit (stored : option string) (input : string) : option string :=
  if truthy (trim input) then
    let locale :=
      match stored with
      | Some s => if truthy s then s else "en"
      | None => "en"
      end in
    Some (input +:+ " (locale: " +:+ locale +:+ ")")
  else None.

(** A message of the conversation, as the chat route reads it. *)
Inductive part : Type :=
| TextPart (text : string)
| OtherPart.

Record UIMessage : Type := MkMessage {
  role : string;
  parts : list part
}.

(** The loops of the chat route's [POST] over the messages and their
    parts: the tag found last is the one that stays. *)
Definition scan_part (acc : option string) (p : part) : option string :=
  match p with
  | TextPart text =>
      match exec localeTag text with
      | Some m => Some (toLowerCase (group 1 m))
      | None => acc
      end
  | OtherPart => acc
  end.

Definition scan_message (acc : option string) (m : UIMessage) : option string :=
  if negb (String.eqb (role m) "user") then acc
  else fold_left scan_part (parts m) acc.

Definition preferredLocale (messages : list UIMessage) : option string :=
  fold_left scan_message messages None.

(** What the editor shows for a text part of a user's message. *)
Definition shown_text (text : string) : string :=
  trim (replace_first localeTag "" text).

(** [deriveComponentName(code)] *)
Definition word_run : regex := Plus (Class is_word).
Definition ws1 : regex := Plus (Class is_ws).
Definition ws0 : regex := Star (Class is_ws).

Definition namePatterns : list regex :=
  [ seqs [Lit "export"; ws1; Lit "default"; ws1; Lit "function"; ws1; Group 1 word_run];
    seqs [Lit "function"; ws1; Group 1 word_run; ws0; Lit "("];
    seqs [Lit "const"; ws1; Group 1 word_run; ws0; Lit "="; ws0; Lit "("];
    seqs [Lit "export"; ws1; Lit "default"; ws1; Group 1 word_run] ].

Fixpoint first_name (patterns : list regex) (code : string) : option string :=
  match patterns with
  | [] => None
  | re :: patterns' =>
      match exec re code with
      | Some m => if truthy (group 1 m) then Some (group 1 m) else first_name patterns' code
      | None => first_name patterns' code
      end
  end.

Definition deriveComponentName (code : string) : string :=
  match first_name namePatterns code with
  | Some name => name
  | None =>
      if test (Lit_i "button") code then "Button"
      else if test (Lit_i "card") code then "Card"
      else if test (Lit_i "form") code then "Form"
      else "Component"
  end.

(** [captures g P r]: every match of [r] leaves in group [g] a text that
    is not empty and is made of units of [P]. *)
Definition captures (g : nat) (P : ascii -> bool) (r : regex) : Prop :=
  forall st t st', (t, st') ∈ run r st ->
    exists w, cap_lookup g (ms_caps st') = Some w /\ truthy w = true /\
              all_units P w = true.

(** The tag of a locale, as [handleSubmit] writes it. *)
Definition tag_of (l : string) : string := "(locale: " +:+ l +:+ ")".

(** What [sendMessage] adds to the conversation. *)
Definition sent (text : string) : UIMessage := MkMessage "user" [TextPart text].

(** A conversation for the runs below. *)
Definition sample_history : list UIMessage :=
  [MkMessage "user" [TextPart "A card (locale: fr)"];
   MkMessage "assistant" [TextPart "Here it is (locale: de)"]].

End Chat.

(* ===================================================================== *)
(** ** The rows on screen ([app/components/LocalizationTable.tsx]) *)
(* ===================================================================== *)

Module TableView.
Import Js Store.

(** The rows the table component holds in its state, next to the store. *)
Definition View : Type := list LocalizationEntry.

Section view.
(** [a.key.localeCompare(b.key) <= 0], whatever the browser's collation
    is. *)
Variable key_before : LocalizationEntry -> LocalizationEntry -> Prop.
Context `{!RelDecision key_before}.

(** [arr.sort((a, b) => a.key.localeCompare(b.key))]: the sort is stable,
    a row goes behind the rows it does not come before. *)
Fixpoint insert_sorted (x : LocalizationEntry) (l : View) : View :=
  match l with
  | [] => [x]
  | y :: l' =>
      if decide (key_before y x) then y :: insert_sorted x l' else x :: y :: l'
  end.

Definition sort (l : View) : View :=
  fold_left (fun sorted x => insert_sorted x sorted) l [].

(** [handleAddEntry]: [newId] is what [generateId()] returned and [iso]
    what [new Date().toISOString()] did. *)
Definition handleAddEntry (now iso newId : string) (entries : View) (w : World)
  : View * World :=
  let newEntry := Entry newId "new.key" "" "" "" "" "" "" "" "" in
  match createLocalization now newEntry w with
  | (Ok _, w') =>
      (sort (entries ++ [Entry newId "new.key" "" "" "" "" "" "" iso iso]), w')
  | (Throw _, w') => (entries, w')
  end.

End view.

(** [handleDeleteEntry(id)] *)
Definition handleDeleteEntry (id_ : string) (entries : View) (w : World) : View * World :=
  match deleteLocalization id_ w with
  | (Ok _, w') => (filter (fun entry => negb (String.eqb (id entry) id_)) entries, w')
  | (Throw _, w') => (entries, w')
  end.

(** [handleSave] with the state of the component: the row of the cell
    under edit is rewritten in the view once the store has taken the
    update. *)
Definition handleSave_view (now stamp entryId field editValue : string)
    (entries : View) (w : World) : View * World :=
  match updateLocalization now entryId field editValue w with
  | (Ok _, w') =>
      (map (fun entry => if String.eqb (id entry) entryId
                         then set_column field editValue entry else entry) entries,
       if storage_writable w' then set_version stamp w' else w')
  | (Throw _, w') => (entries, w')
  end.

End TableView.

(* ===================================================================== *)
(** ** Segments of a source ([rewriteWithKeys] around one occurrence) *)
(* ===================================================================== *)

Module Segment.
Import Js Re Preview.

(** [unanchored r]: [r] looks neither behind nor ahead of what it takes:
    it has no [^], no [$] and no [\b]. *)
Fixpoint unanchored (r : regex) : Prop :=
  match r with
  | Bol | Eol | WordB => False
  | Seq r1 r2 | Alt r1 r2 => unanchored r1 /\ unanchored r2
  | Star r' | Group _ r' => unanchored r'
  | Empty | Class _ | Backref _ => True
  end.

(** The state [st] with [u] more of the subject ahead, and with another
    unit behind. *)
Definition ahead (u : string) (st : mstate) : mstate :=
  MState (ms_caps st) (ms_prev st) (ms_rest st +:+ u).
Definition behind (p : option ascii) (st : mstate) : mstate :=
  MState (ms_caps st) p (ms_rest st).

Definition short (n : nat) (x : string * mstate) : bool :=
  Nat.leb (String.length x.1) n.
Definition lift (u : string) (x : string * mstate) : string * mstate :=
  (x.1, ahead u x.2).
Definition reprev (p : option ascii) (x : string * mstate) : string * mstate :=
  (x.1, behind (last_unit p x.1) x.2).

(** [t1] put in front of the text of a match. *)
Definition prepend (t1 : string) (x : string * mstate) : string * mstate :=
  (t1 +:+ x.1, x.2).

(** What follows an iteration of a starred body: nothing when the
    iteration was empty. *)
Definition star_body (k : mstate -> list (string * mstate)) (x : string * mstate)
  : list (string * mstate) :=
  match x.1 with
  | EmptyString => []
  | _ => k x.2
  end.

(** What a match hands to the replacer: its text and its captures. *)
Definition outcome (x : option (string * mstate)) : option (string * list (nat * string)) :=
  match x with
  | Some (t, st) => Some (t, ms_caps st)
  | None => None
  end.

(** [nonempty r]: [r] matches no empty text. *)
Definition nonempty (r : regex) : Prop :=
  forall caps p, run r (MState caps p "") = [].


(** [carries F s s']: [F] rewrites what is before and what is after an
    occurrence of [s] as it rewrites them alone, and leaves [s'] where
    [s] was. *)
Definition carries (F : string -> string) (s s' : string) : Prop :=
  forall pre post, F (pre +:+ s +:+ post) = F pre +:+ s' +:+ F post.

(** [passes F s s']: [F] leaves [s'] where [s] was, whatever it makes of
    the text around it. *)
Definition passes (F : string -> string) (s s' : string) : Prop :=
  forall pre post, exists pre' post', F (pre +:+ s +:+ post) = pre' +:+ s' +:+ post'.






(** Rows of the store for the runs of the rewriter. *)
Definition row (k e : string) : Store.LocalizationEntry :=
  Store.Entry "row" k e "" "" "" "" "" "2025-11-01 10:00:00" "2025-11-01 10:00:00".




End Segment.

(* ===================================================================== *)
(** ** The store *)
(* ===================================================================== *)

Module StoreFacts.
Import Store.

Ltac in_list :=
  unfold locale_columns;
  repeat first [apply list_elem_of_here | apply list_elem_of_further].

Ltac columns H :=
  unfold locale_columns in H;
  repeat (apply elem_of_cons in H; destruct H as [->|H]);
  [..|by apply elem_of_nil in H].

Lemma includes_elem_of (l : list string) (s : string) :
  includes l s = true <-> s ∈ l.
Proof.
  unfold includes. rewrite existsb_exists. split.
  - intros (x & Hin & Heq). apply String.eqb_eq in Heq. subst x.
    by apply list_elem_of_In.
  - intros Hin. exists s. split; [by apply list_elem_of_In | apply String.eqb_refl].
Qed.

Lemma includes_not_elem_of (l : list string) (s : string) :
  s ∉ l -> includes l s = false.
Proof.
  intros Hn. destruct (includes l s) eqn:E; [|done].
  apply includes_elem_of in E. done.
Qed.

Lemma has_key_elem_of (k : string) (t : Table) :
  has_key k t = true <-> k ∈ map key t.
Proof.
  unfold has_key. rewrite existsb_exists, list_elem_of_fmap. split.
  - intros (r & Hin & Heq). apply String.eqb_eq in Heq.
    exists r. split; [done | by apply list_elem_of_In].
  - intros (r & -> & Hin). exists r. split; [by apply list_elem_of_In | apply String.eqb_refl].
Qed.

Lemma has_id_elem_of (i : string) (t : Table) :
  has_id i t = true <-> i ∈ map id t.
Proof.
  unfold has_id. rewrite existsb_exists, list_elem_of_fmap. split.
  - intros (r & Hin & Heq). apply String.eqb_eq in Heq.
    exists r. split; [done | by apply list_elem_of_In].
  - intros (r & -> & Hin). exists r. split; [by apply list_elem_of_In | apply String.eqb_refl].
Qed.

(** Saving never touches the version marker. *)
Lemma save_version (w : World) :
  localizations_db_version (localStorage (saveDatabaseToLocalStorage w))
  = localizations_db_version (localStorage w).
Proof. unfold saveDatabaseToLocalStorage. by destruct (storage_writable w). Qed.

Lemma save_writable (t : Table) (w : World) :
  storage_writable (saveDatabaseToLocalStorage (set_db t w)) = storage_writable w.
Proof. unfold saveDatabaseToLocalStorage. by destruct w as [? ? []]. Qed.

Lemma save_db (w : World) : db (saveDatabaseToLocalStorage w) = db w.
Proof. unfold saveDatabaseToLocalStorage. by destruct (storage_writable w). Qed.

Lemma save_snapshot (w : World) :
  storage_writable w = true ->
  localizations_db (localStorage (saveDatabaseToLocalStorage w)) = Some (db w).
Proof. unfold saveDatabaseToLocalStorage. by intros ->. Qed.

(** C8: for a locale outside en, es, fr, de, ja, zh the read
    [getTranslations] fails with [Invalid locale] and the write
    [updateLocalization] of that column fails with [Invalid field], both
    leaving the world as it was; for a locale of the set
    [getTranslations] returns. *)
Theorem locale_validation (locale : string) (w : World) :
  (locale ∉ validLocales ->
     getTranslations locale w = (Throw ("Invalid locale: " +:+ locale), w)) /\
  (locale ∉ validLocales -> locale <> "key" ->
     forall now id_ value,
       updateLocalization now id_ locale value w
       = (Throw ("Invalid field: " +:+ locale), w)) /\
  (locale ∈ validLocales ->
     exists m, getTranslations locale w = (Ok m, w)).
Proof.
  split; [|split].
  - intros Hn. unfold getTranslations.
    by rewrite (includes_not_elem_of _ _ Hn).
  - intros Hn Hk now id_ value. unfold updateLocalization.
    rewrite includes_not_elem_of; [done|].
    unfold validFields. unfold validLocales in Hn.
    rewrite elem_of_cons. tauto.
  - intros Hin. unfold getTranslations.
    apply includes_elem_of in Hin. rewrite Hin. simpl. eauto.
Qed.

Lemma locale_validation_witness :
  getTranslations "pt" sample_world = (Throw "Invalid locale: pt", sample_world) /\
  exists m, getTranslations "ja" sample_world = (Ok m, sample_world).
Proof.
  split.
  - apply (proj1 (locale_validation "pt" sample_world)).
    refine (bool_decide_unpack _ _). vm_compute. exact I.
  - apply (proj2 (proj2 (locale_validation "ja" sample_world))).
    refine (bool_decide_unpack _ _). vm_compute. exact I.
Defined.

(** C10: [updateLocalizationByKey] with no field at all returns at
    once: no row changes, [updated_at] included, and nothing is written
    to the storage. *)
Theorem updateByKey_without_fields (now key_ : string) (w : World) :
  updateLocalizationByKey now key_ no_translations w = (Ok tt, w).
Proof. unfold updateLocalizationByKey, no_translations. simpl. reflexivity. Qed.

Lemma insert_or_ignore_has_id now e t :
  has_id (id e) (insert_or_ignore now e t) = true \/
  has_key (key e) (insert_or_ignore now e t) = true.
Proof.
  unfold insert_or_ignore.
  destruct (has_id (id e) t) eqn:Hi; [by left|].
  destruct (has_key (key e) t) eqn:Hk; [by right|].
  simpl. left. unfold has_id. rewrite existsb_app. simpl.
  rewrite String.eqb_refl. by rewrite orb_true_r.
Qed.

Lemma insert_or_ignore_twice now1 now2 e t :
  insert_or_ignore now2 e (insert_or_ignore now1 e t) = insert_or_ignore now1 e t.
Proof.
  destruct (insert_or_ignore_has_id now1 e t) as [H|H];
    unfold insert_or_ignore at 1; rewrite H; [done|by rewrite orb_true_r].
Qed.

Lemma createLocalization_eq now e w :
  createLocalization now e w
  = (Ok tt, saveDatabaseToLocalStorage (set_db (insert_or_ignore now e (db w)) w)).
Proof. reflexivity. Qed.

Lemma deleteLocalization_eq i w :
  deleteLocalization i w
  = (Ok tt, saveDatabaseToLocalStorage (set_db (delete_where_id i (db w)) w)).
Proof. reflexivity. Qed.

(** C5: [createLocalization] of an entry whose key the table already
    has returns without an error and leaves the table as it was; creating
    an entry a second time leaves the table as the first creation left
    it. *)
Theorem create_is_idempotent (now : string) (e : LocalizationEntry) (w : World) :
  (has_key (key e) (db w) = true ->
     (createLocalization now e w).1 = Ok tt /\
     db (createLocalization now e w).2 = db w) /\
  (forall now',
     db (createLocalization now' e (createLocalization now e w).2).2
     = db (createLocalization now e w).2).
Proof.
  split.
  - intros Hk. rewrite createLocalization_eq. simpl. split; [done|].
    rewrite save_db. simpl.
    unfold insert_or_ignore. rewrite Hk. by rewrite orb_true_r.
  - intros now'. rewrite !createLocalization_eq. simpl.
    rewrite !save_db. simpl. apply insert_or_ignore_twice.
Qed.

Lemma create_is_idempotent_witness :
  (createLocalization "2025-11-02 09:00:00" sample_row sample_world).1 = Ok tt /\
  db (createLocalization "2025-11-02 09:00:00" sample_row sample_world).2
  = db sample_world.
Proof.
  apply (proj1 (create_is_idempotent "2025-11-02 09:00:00" sample_row sample_world)).
  vm_compute. reflexivity.
Defined.

Lemma set_column_fixed c v r :
  c ∈ locale_columns -> fixed_part (set_column c v r) = fixed_part r.
Proof. intros H. destruct r. columns H; reflexivity. Qed.

Lemma set_column_other c c' v r :
  c ∈ locale_columns -> c' ∈ locale_columns -> c <> c' ->
  get_column c' (set_column c v r) = get_column c' r.
Proof.
  intros H H' Hne. destruct r. columns H; columns H'; try reflexivity; done.
Qed.

Lemma set_column_same c v r :
  c ∈ locale_columns -> get_column c (set_column c v r) = v.
Proof. intros H. destruct r. columns H; reflexivity. Qed.

Lemma touch_fixed now r : fixed_part (touch now r) = fixed_part r.
Proof. by destruct r. Qed.

Lemma touch_column now c r : get_column c (touch now r) = get_column c r.
Proof. by destruct r. Qed.

Lemma apply_sets_fixed sets r :
  Forall (fun cv => cv.1 ∈ locale_columns) sets ->
  fixed_part (apply_sets sets r) = fixed_part r.
Proof.
  unfold apply_sets. revert r. induction sets as [|[c v] sets IH]; intros r Hall; [done|].
  inversion Hall; subst. simpl. rewrite IH by done. by apply set_column_fixed.
Qed.

Lemma apply_sets_other sets c r :
  Forall (fun cv => cv.1 ∈ locale_columns) sets ->
  c ∈ locale_columns -> c ∉ sets.*1 ->
  get_column c (apply_sets sets r) = get_column c r.
Proof.
  unfold apply_sets. revert r. induction sets as [|[c' v] sets IH]; intros r Hall Hc Hn; [done|].
  inversion Hall; subst. simpl in *. apply not_elem_of_cons in Hn as [Hne Hn].
  rewrite IH by done. by apply set_column_other.
Qed.

Lemma sets_of_columns tr : Forall (fun cv => cv.1 ∈ locale_columns) (sets_of tr).
Proof.
  destruct tr as [[?|] [?|] [?|] [?|] [?|]]; unfold sets_of; simpl;
    repeat constructor; simpl; in_list.
Qed.

Lemma sets_of_absent tr c :
  c ∈ locale_columns -> field_of tr c = None -> c ∉ (sets_of tr).*1.
Proof.
  intros H. columns H; destruct tr as [[?|] [?|] [?|] [?|] [?|]];
    unfold field_of, sets_of; simpl; intros ?; try done;
    rewrite ?not_elem_of_cons; repeat split; try done; apply not_elem_of_nil.
Qed.

Lemma sets_of_present tr c v r :
  c ∈ locale_columns -> field_of tr c = Some v ->
  get_column c (apply_sets (sets_of tr) r) = v.
Proof.
  intros H. destruct r.
  columns H; destruct tr as [[?|] [?|] [?|] [?|] [?|]];
    unfold field_of, sets_of; simpl; intros ?; simplify_eq; reflexivity.
Qed.

Lemma updateLocalizationByKey_eq now k tr w :
  updateLocalizationByKey now k tr w =
  match sets_of tr with
  | [] => (Ok tt, w)
  | _ => (Ok tt, saveDatabaseToLocalStorage
                   (set_db (update_where (fun r => String.eqb (key r) k)
                                         (sets_of tr) now (db w)) w))
  end.
Proof.
  unfold updateLocalizationByKey. fold (sets_of tr). by destruct (sets_of tr).
Qed.

Lemma updateLocalizationByKey_db now k tr w :
  db (updateLocalizationByKey now k tr w).2 =
  map (fun r => if String.eqb (key r) k
                then match sets_of tr with
                     | [] => r
                     | _ => touch now (apply_sets (sets_of tr) r)
                     end
                else r) (db w).
Proof.
  rewrite updateLocalizationByKey_eq. destruct (sets_of tr) eqn:E.
  - simpl. induction (db w) as [|r t IH]; [done|]. simpl. rewrite <- IH.
    by destruct (String.eqb (key r) k).
  - simpl. rewrite save_db. reflexivity.
Qed.

Lemma updated_row_fixed now k tr r : fixed_part (updated_row now k tr r) = fixed_part r.
Proof.
  unfold updated_row. destruct (String.eqb (key r) k); [|done].
  destruct (sets_of tr) eqn:E; [done|]. rewrite <- E.
  rewrite touch_fixed. apply apply_sets_fixed, sets_of_columns.
Qed.

Lemma updated_row_absent now k tr c r :
  c ∈ locale_columns -> field_of tr c = None ->
  get_column c (updated_row now k tr r) = get_column c r.
Proof.
  intros Hc Hn. unfold updated_row. destruct (String.eqb (key r) k); [|done].
  destruct (sets_of tr) eqn:E; [done|]. rewrite <- E.
  rewrite touch_column. apply apply_sets_other; auto using sets_of_columns, sets_of_absent.
Qed.

Lemma updated_row_present now k tr c v r :
  c ∈ locale_columns -> field_of tr c = Some v -> key r = k ->
  get_column c (updated_row now k tr r) = v.
Proof.
  intros Hc Hs <-. unfold updated_row. rewrite String.eqb_refl.
  destruct (sets_of tr) eqn:E.
  - exfalso. revert Hs E. columns Hc; destruct tr as [[?|] [?|] [?|] [?|] [?|]]; done.
  - rewrite <- E. rewrite touch_column. by apply sets_of_present.
Qed.

(** C6: [updateLocalizationByKey] leaves id, key, en and created_at
    of every row, and every locale column the argument does not give;
    with an es value only, the columns fr, de, ja, zh, en and key of the
    table are what they were, and es is the new value in the rows of the
    key. *)
Theorem updateByKey_touches_only_given (now k : string) (tr : Translations) (w : World) :
  let t' := db (updateLocalizationByKey now k tr w).2 in
  map fixed_part t' = map fixed_part (db w) /\
  (forall c, c ∈ locale_columns -> field_of tr c = None ->
     map (get_column c) t' = map (get_column c) (db w)) /\
  (forall v, tr = Tr (Some v) None None None None ->
     map es t' = map (fun r => if String.eqb (key r) k then v else es r) (db w) /\
     map fr t' = map fr (db w) /\ map de t' = map de (db w) /\
     map ja t' = map ja (db w) /\ map zh t' = map zh (db w) /\
     map en t' = map en (db w) /\ map key t' = map key (db w)).
Proof.
  intros t'. subst t'. rewrite updateLocalizationByKey_db.
  fold (updated_row now k tr).
  assert (Hfix : map fixed_part (map (updated_row now k tr) (db w)) = map fixed_part (db w)).
  { rewrite map_map. apply map_ext. intros r. apply updated_row_fixed. }
  assert (Hcol : forall c, c ∈ locale_columns -> field_of tr c = None ->
            map (get_column c) (map (updated_row now k tr) (db w)) = map (get_column c) (db w)).
  { intros c Hc Hn. rewrite map_map. apply map_ext. intros r. by apply updated_row_absent. }
  split; [done|]. split; [done|].
  intros v ->.
  repeat split.
  - rewrite map_map. apply map_ext. intros r. unfold updated_row.
    destruct (String.eqb (key r) k); [|done]. by destruct r.
  - apply (Hcol "fr"); [in_list | done].
  - apply (Hcol "de"); [in_list | done].
  - apply (Hcol "ja"); [in_list | done].
  - apply (Hcol "zh"); [in_list | done].
  - rewrite map_map. apply map_ext. intros r.
    exact (f_equal (fun p => p.1.2) (updated_row_fixed now k _ r)).
  - rewrite map_map. apply map_ext. intros r.
    exact (f_equal (fun p => p.1.1.2) (updated_row_fixed now k _ r)).
Qed.

Lemma updateByKey_touches_only_given_witness :
  let t' := db (updateLocalizationByKey "2025-11-02 09:00:00" "button.submit"
                  (Tr (Some "Mandar") None None None None) sample_world).2 in
  map es t' = ["Mandar"] /\
  map fr t' = ["Soumettre"] /\ map de t' = ["Senden"] /\
  map ja t' = ["s"] /\ map zh t' = ["t"] /\
  map en t' = ["Submit"] /\ map key t' = ["button.submit"].
Proof.
  exact (proj2 (proj2 (updateByKey_touches_only_given "2025-11-02 09:00:00"
           "button.submit" (Tr (Some "Mandar") None None None None) sample_world))
         "Mandar" eq_refl).
Defined.

Lemma updateLocalization_eq now i f v w :
  updateLocalization now i f v w =
  if negb (includes validFields f) then (Throw ("Invalid field: " +:+ f), w)
  else
    let t' := update_where (fun r => String.eqb (id r) i) [(f, v)] now (db w) in
    if String.eqb f "key" && keys_distinct (db w) && negb (keys_distinct t')
    then (Throw "UNIQUE constraint failed: localizations.key", w)
    else (Ok tt, saveDatabaseToLocalStorage (set_db t' w)).
Proof.
  unfold updateLocalization. destruct (negb (includes validFields f)); [done|].
  unfold mbind, M_bind, gets. simpl.
  by destruct (String.eqb f "key" && keys_distinct (db w) && negb _).
Qed.

Lemma sets_of_nil tr : sets_of tr = [] -> tr = no_translations.
Proof. by destruct tr as [[?|] [?|] [?|] [?|] [?|]]. Qed.

Lemma saved_world t w :
  version (saveDatabaseToLocalStorage (set_db t w)) = version w /\
  (storage_writable w = true ->
   snapshot (saveDatabaseToLocalStorage (set_db t w))
   = Some (db (saveDatabaseToLocalStorage (set_db t w)))).
Proof.
  unfold version, snapshot. rewrite save_version, save_db. split; [done|].
  intros Hw. by rewrite save_snapshot.
Qed.

(** C4: create, update by id, update by key and delete leave the
    version marker [localizations_db_version] as it was, and write the
    whole table as the snapshot [localizations_db] (when the storage can
    be written, and the operation went through and had something to
    write); the marker is set by the callers: [handleSave] of the table
    view sets it to the time stamp after an update that went through,
    when the storage can be written. *)
Theorem store_ops_leave_version (now : string) (w : World) :
  (forall e,
     let w' := (createLocalization now e w).2 in
     version w' = version w /\
     (storage_writable w = true -> snapshot w' = Some (db w'))) /\
  (forall i f v,
     let w' := (updateLocalization now i f v w).2 in
     version w' = version w /\
     (storage_writable w = true -> (updateLocalization now i f v w).1 = Ok tt ->
      snapshot w' = Some (db w'))) /\
  (forall k tr,
     let w' := (updateLocalizationByKey now k tr w).2 in
     version w' = version w /\
     (storage_writable w = true -> tr <> no_translations ->
      snapshot w' = Some (db w'))) /\
  (forall i,
     let w' := (deleteLocalization i w).2 in
     version w' = version w /\
     (storage_writable w = true -> snapshot w' = Some (db w'))) /\
  (forall stamp i f v,
     storage_writable w = true -> (updateLocalization now i f v w).1 = Ok tt ->
     version (handleSave now stamp i f v w) = Some stamp).
Proof.
  split; [|split; [|split; [|split]]].
  - intros e. rewrite createLocalization_eq. apply saved_world.
  - intros i f v. rewrite updateLocalization_eq.
    destruct (negb (includes validFields f)); [done|]. simpl.
    destruct (String.eqb f "key" && keys_distinct (db w) && negb _); [done|].
    simpl. split; [apply saved_world|]. intros Hw _. by apply saved_world.
  - intros k tr. rewrite updateLocalizationByKey_eq.
    destruct (sets_of tr) eqn:E.
    + split; [done|]. intros _ Hne. by apply sets_of_nil in E.
    + split; [apply saved_world|]. intros Hw _. by apply saved_world.
  - intros i. rewrite deleteLocalization_eq. apply saved_world.
  - intros stamp i f v Hw. unfold handleSave. rewrite updateLocalization_eq.
    destruct (negb (includes validFields f)); [done|]. simpl.
    destruct (String.eqb f "key" && keys_distinct (db w) && negb _); [done|].
    intros _. by rewrite save_writable, Hw.
Qed.

Lemma store_ops_leave_version_witness :
  snapshot (deleteLocalization "btn-2" sample_world).2
  = Some (db (deleteLocalization "btn-2" sample_world).2).
Proof.
  apply (proj1 (proj2 (proj2 (proj2
           (store_ops_leave_version "2025-11-02 09:00:00" sample_world)))) "btn-2").
  reflexivity.
Defined.

(** C4, as the claim words it, fails for a delete: the table loses its
    row and the marker stays. *)
Lemma delete_keeps_version :
  db sample_world = [sample_row] /\
  db (deleteLocalization "btn-2" sample_world).2 = [] /\
  version sample_world = Some "1762000000000" /\
  version (deleteLocalization "btn-2" sample_world).2 = Some "1762000000000".
Proof. vm_compute. repeat split; reflexivity. Qed.

End StoreFacts.

(* ===================================================================== *)
(** ** The pattern engine *)
(* ===================================================================== *)

Module ReFacts.
#[local] Arguments String.append !_ _ / : simpl nomatch.
Import Re Js Editor.

Lemma append_nil_r (s : string) : s +:+ "" = s.
Proof. induction s; simpl; congruence. Qed.

Lemma append_assoc (a b c : string) : (a +:+ b) +:+ c = a +:+ (b +:+ c).
Proof. induction a; simpl; congruence. Qed.

Lemma length_append (a b : string) :
  String.length (a +:+ b) = String.length a + String.length b.
Proof. induction a; simpl; congruence. Qed.

Lemma last_unit_app prev a b : last_unit prev (a +:+ b) = last_unit (last_unit prev a) b.
Proof. revert prev. induction a; simpl; auto. Qed.

Lemma star_class_splits p fuel caps prev rest :
  String.length rest < fuel ->
  star_run (run (Class p)) fuel (MState caps prev rest)
  = map (after caps prev) (splits p rest).
Proof.
  revert fuel prev. induction rest as [|c rest IH]; intros fuel prev Hf.
  - destruct fuel; [simpl in Hf; lia|]. reflexivity.
  - destruct fuel; [simpl in Hf; lia|]. simpl in Hf.
    cbn [star_run run ms_rest ms_caps ms_prev splits].
    destruct (p c) eqn:Hp.
    + cbn [flat_map]. rewrite app_nil_r, IH by lia.
      rewrite map_app, !map_map. f_equal.
      apply map_ext. by intros [t r].
    + reflexivity.
Qed.

Lemma run_star_class p caps prev rest :
  run (Star (Class p)) (MState caps prev rest) = map (after caps prev) (splits p rest).
Proof. cbn [run ms_rest]. apply star_class_splits. lia. Qed.

Lemma run_seq r1 r2 st :
  run (Seq r1 r2) st =
  flat_map (fun '(t1, st1) => map (fun '(t2, st2) => (t1 +:+ t2, st2)) (run r2 st1))
           (run r1 st).
Proof. reflexivity. Qed.

Lemma run_class p caps prev rest :
  run (Class p) (MState caps prev rest) =
  match rest with
  | String c rest' => if p c then [(String c EmptyString, MState caps (Some c) rest')] else []
  | EmptyString => []
  end.
Proof. reflexivity. Qed.

Lemma run_plus_class p caps prev rest :
  run (Plus (Class p)) (MState caps prev rest) =
  match rest with
  | String c rest' =>
      if p c then map (fun tr => after caps prev (String c tr.1, tr.2)) (splits p rest')
      else []
  | EmptyString => []
  end.
Proof.
  unfold Plus. rewrite run_seq, run_class. destruct rest as [|c rest']; [done|].
  destruct (p c); [|done]. cbn [flat_map]. rewrite app_nil_r, run_star_class, map_map.
  apply map_ext. by intros [t r].
Qed.

Lemma splits_head p s : head (splits p s) = Some (takeWhile p s, dropWhile p s).
Proof.
  induction s as [|c s IH]; [done|]. simpl. destruct (p c); [|done].
  destruct (splits p s) as [|[t r] l]; [done|]. simpl in *. by simplify_eq.
Qed.

Lemma splits_app p s t r : (t, r) ∈ splits p s -> s = t +:+ r /\ all_units p t = true.
Proof.
  revert t r. induction s as [|c s IH]; intros t r; simpl.
  - intros H. apply list_elem_of_singleton in H. by simplify_eq.
  - destruct (p c) eqn:Hp.
    + rewrite elem_of_app, list_elem_of_fmap, list_elem_of_singleton.
      intros [([t' r'] & Heq & Hin)|Heq]; simplify_eq; [|done].
      apply IH in Hin as [-> Hall]. simpl. by rewrite Hp.
    + intros H. apply list_elem_of_singleton in H. by simplify_eq.
Qed.

Lemma match_at_plus_class p prev s :
  match_at (Plus (Class p)) prev s =
  match s with
  | String c s' =>
      if p c then Some (String c (takeWhile p s'),
                        MState [] (last_unit (Some c) (takeWhile p s')) (dropWhile p s'))
      else None
  | EmptyString => None
  end.
Proof.
  unfold match_at. rewrite run_plus_class. destruct s as [|c s']; [done|].
  destruct (p c); [|done].
  pose proof (splits_head p s') as H.
  destruct (splits p s') as [|[t r] l]; [done|]. simpl in H. by simplify_eq.
Qed.

Lemma length_takeWhile_all p s :
  all_units p s = true -> takeWhile p s = s.
Proof.
  induction s as [|c s IH]; [done|]. simpl. destruct (p c); [|done].
  simpl. intros H. by rewrite IH.
Qed.

Lemma template_plain_dot m : template_fn "." m = ".".
Proof. reflexivity. Qed.

Lemma template_empty m : template_fn "" m = "".
Proof. reflexivity. Qed.

(** Skipping the units a match has consumed. *)
Lemma replace_from_skip r f src t : forall pos prev rest,
  replace_from r f src pos prev (t +:+ rest) (String.length t)
  = replace_from r f src (pos + String.length t) (last_unit prev t) rest 0.
Proof.
  induction t as [|c t IH]; intros pos prev rest.
  - simpl. rewrite Nat.add_0_r. by destruct rest.
  - simpl. rewrite IH. f_equal. lia.
Qed.

Lemma takeWhile_dropWhile p s : takeWhile p s +:+ dropWhile p s = s.
Proof. induction s as [|c s IH]; [done|]. simpl. destruct (p c); simpl; congruence. Qed.

Lemma collapse_in_run s :
  collapse_runs true s = collapse_runs true (dropWhile non_alnum s).
Proof. induction s as [|c s IH]; [done|]. simpl. destruct (non_alnum c) eqn:E; [done|]. simpl. by rewrite E. Qed.

Lemma collapse_after_run s :
  collapse_runs true (dropWhile non_alnum s) = collapse_runs false (dropWhile non_alnum s).
Proof.
  induction s as [|c s IH]; [done|]. simpl. destruct (non_alnum c) eqn:E; [done|].
  simpl. by rewrite E.
Qed.

Lemma replace_non_alnum_from src : forall rest pos prev,
  replace_from Editor.re_non_alnum (template_fn ".") src pos prev rest 0
  = collapse_runs false rest.
Proof.
  intros rest. remember (String.length rest) as n eqn:Hn.
  revert rest Hn. induction (lt_wf n) as [n _ IH]. intros rest -> pos prev.
  destruct rest as [|c rest]; [done|].
  cbn [replace_from]. unfold Editor.re_non_alnum. rewrite match_at_plus_class.
  fold non_alnum. cbn [collapse_runs]. destruct (non_alnum c) eqn:E.
  - rewrite template_plain_dot. cbn [String.length].
    pose proof (replace_from_skip re_non_alnum (template_fn ".") src
                  (takeWhile non_alnum rest) (S pos) (Some c)
                  (dropWhile non_alnum rest)) as Hs.
    rewrite takeWhile_dropWhile in Hs. unfold re_non_alnum in Hs. rewrite Hs.
    fold re_non_alnum.
    rewrite (IH (String.length (dropWhile non_alnum rest))); [| |done].
    + by rewrite collapse_in_run, collapse_after_run.
    + simpl. rewrite <- (takeWhile_dropWhile non_alnum rest) at 2.
      rewrite length_append. lia.
  - f_equal. eapply IH; [|done]. simpl. lia.
Qed.

Lemma replace_non_alnum s :
  replace Editor.re_non_alnum "." s = collapse_runs false s.
Proof. apply replace_non_alnum_from. Qed.

Lemma run_alt r1 r2 st : run (Alt r1 r2) st = run r1 st ++ run r2 st.
Proof. reflexivity. Qed.

Lemma flat_map_nil {A B} (f : A -> list B) (l : list A) :
  (forall x, x ∈ l -> f x = []) -> flat_map f l = [].
Proof.
  induction l as [|x l IH]; [done|]. intros H. simpl.
  rewrite (H x) by apply list_elem_of_here. apply IH.
  intros y Hy. apply H. by apply list_elem_of_further.
Qed.

Lemma last_unit_some c t : exists d, last_unit (Some c) t = Some d.
Proof. revert c. induction t as [|a t IH]; intros c; simpl; eauto. Qed.

Lemma all_units_app p a b :
  all_units p (a +:+ b) = all_units p a && all_units p b.
Proof. induction a as [|c a IH]; [done|]. simpl. rewrite IH. by destruct (p c). Qed.

(** [\.+$] at a position: the rest of the subject, when it is dots only. *)
Lemma run_plus_eol p caps prev s :
  head (run (Seq (Plus (Class p)) Eol) (MState caps prev s)) =
  match s with
  | String c s' =>
      if all_units p s then Some (s, MState caps (last_unit prev s) EmptyString) else None
  | EmptyString => None
  end.
Proof.
  rewrite run_seq, run_plus_class. destruct s as [|c s']; [done|].
  cbn [all_units]. destruct (p c); [|done]. cbn [andb].
  destruct (all_units p s') eqn:Hall.
  - pose proof (splits_head p s') as H.
    rewrite (length_takeWhile_all _ _ Hall) in H.
    assert (dropWhile p s' = "") as Hd.
    { pose proof (takeWhile_dropWhile p s') as E.
      rewrite (length_takeWhile_all _ _ Hall) in E.
      apply (f_equal String.length) in E. rewrite length_append in E.
      destruct (dropWhile p s'); [done|simpl in E; lia]. }
    rewrite Hd in H. destruct (splits p s') as [|[t r] l]; [done|].
    simpl in H. simplify_eq. cbn. by rewrite append_nil_r.
  - rewrite flat_map_nil; [done|]. intros [t st] Hin.
    apply list_elem_of_fmap in Hin as ([t' r'] & Heq & Hin). unfold after in Heq.
    simpl in Heq. simplify_eq. apply splits_app in Hin as [-> Ht].
    rewrite all_units_app, Ht in Hall. simpl in Hall.
    cbn. by destruct r'.
Qed.

Lemma match_at_edge_dots_start s :
  match_at re_edge_dots None s =
  match s with
  | String c s' =>
      if is_dot c
      then Some (String c (takeWhile is_dot s'),
                 MState [] (last_unit (Some c) (takeWhile is_dot s')) (dropWhile is_dot s'))
      else None
  | EmptyString => None
  end.
Proof.
  unfold match_at, re_edge_dots. rewrite run_alt, run_seq. cbn [run ms_prev flat_map].
  rewrite app_nil_r.
  pose proof (match_at_plus_class is_dot None s) as H. unfold match_at in H.
  pose proof (run_plus_eol is_dot [] None s) as H2. rewrite run_seq in H2.
  destruct s as [|c s']; [done|].
  destruct (is_dot c) eqn:Hc.
  - destruct (run (Plus (Class is_dot)) _) as [|[t st] l]; [done|].
    simpl in H. simplify_eq. done.
  - destruct (run (Plus (Class is_dot)) _) as [|[t st] l]; [|done].
    simpl. cbn [all_units] in H2. by rewrite Hc in H2.
Qed.

Lemma match_at_edge_dots_inner c0 s :
  match_at re_edge_dots (Some c0) s =
  match s with
  | String c s' =>
      if all_units is_dot s then Some (s, MState [] (last_unit (Some c0) s) EmptyString)
      else None
  | EmptyString => None
  end.
Proof.
  unfold match_at, re_edge_dots. rewrite run_alt.
  replace (run (Seq Bol (Plus (Class is_dot))) (MState [] (Some c0) s)) with
    (@nil (string * mstate)) by reflexivity.
  cbn [app]. apply run_plus_eol.
Qed.

Lemma replace_edge_dots_inner src : forall rest pos c0,
  replace_from re_edge_dots (template_fn "") src pos (Some c0) rest 0
  = strip_trailing is_dot rest.
Proof.
  induction rest as [|c rest IH]; intros pos c0; [done|].
  cbn [replace_from]. rewrite match_at_edge_dots_inner. cbn [strip_trailing].
  destruct (all_units is_dot (String c rest)) eqn:Hall.
  - rewrite template_empty. cbn [String.length].
    pose proof (replace_from_skip re_edge_dots (template_fn "") src rest
                  (S pos) (Some c) "") as Hs.
    rewrite append_nil_r in Hs. rewrite Hs.
    destruct (last_unit_some c rest) as [d Hd]. by rewrite Hd.
  - f_equal. apply IH.
Qed.

Lemma replace_edge_dots s : replace re_edge_dots "" s = trim_dots s.
Proof.
  unfold replace, replace_fn, trim_dots. destruct s as [|c s]; [done|].
  cbn [replace_from]. rewrite match_at_edge_dots_start. cbn [dropWhile].
  destruct (is_dot c) eqn:Hc.
  - rewrite template_empty. cbn [String.length].
    pose proof (replace_from_skip re_edge_dots (template_fn "") (String c s)
                  (takeWhile is_dot s) 1 (Some c) (dropWhile is_dot s)) as Hs.
    rewrite takeWhile_dropWhile in Hs. rewrite Hs.
    destruct (last_unit_some c (takeWhile is_dot s)) as [d Hd]. rewrite Hd.
    apply replace_edge_dots_inner.
  - cbn [strip_trailing all_units]. rewrite Hc. cbn [andb]. f_equal.
    apply replace_edge_dots_inner.
Qed.

(** [generateKeyFromText] computes the slug of the specification. *)
Lemma generateKeyFromText_spec text :
  generateKeyFromText text = "auto." +:+ slug_spec text.
Proof.
  unfold generateKeyFromText, slug_spec.
  by rewrite replace_non_alnum, replace_edge_dots.
Qed.

(** *** Membership in [run] *)

Lemma elem_of_flat_map {A B} (f : A -> list B) (l : list A) (y : B) :
  y ∈ flat_map f l <-> exists x, x ∈ l /\ y ∈ f x.
Proof.
  induction l as [|a l IH]; simpl.
  - split; [by intros ?%elem_of_nil | by intros (x & ?%elem_of_nil & _)].
  - rewrite elem_of_app, IH. split.
    + intros [H|(x & H1 & H2)].
      * exists a. split; [apply list_elem_of_here | done].
      * exists x. split; [by apply list_elem_of_further | done].
    + intros (x & [->|H1]%elem_of_cons & H2); [by left|right; eauto].
Qed.

Lemma elem_of_run_seq r1 r2 st t st' :
  (t, st') ∈ run (Seq r1 r2) st <->
  exists t1 st1 t2, (t1, st1) ∈ run r1 st /\ (t2, st') ∈ run r2 st1 /\ t = t1 +:+ t2.
Proof.
  rewrite run_seq, elem_of_flat_map. split.
  - intros ([t1 st1] & H1 & H2). apply list_elem_of_fmap in H2 as ([t2 st2] & Heq & H2).
    simplify_eq. eauto 10.
  - intros (t1 & st1 & t2 & H1 & H2 & ->). exists (t1, st1). split; [done|].
    apply list_elem_of_fmap. by exists (t2, st').
Qed.

Lemma elem_of_run_alt r1 r2 st x :
  x ∈ run (Alt r1 r2) st <-> x ∈ run r1 st \/ x ∈ run r2 st.
Proof. rewrite run_alt. apply elem_of_app. Qed.

Lemma elem_of_run_class p st t st' :
  (t, st') ∈ run (Class p) st <->
  exists c, p c = true /\ t = String c "" /\ ms_rest st = String c (ms_rest st') /\
            ms_caps st' = ms_caps st /\ ms_prev st' = Some c.
Proof.
  destruct st as [caps prev rest]. rewrite run_class. destruct rest as [|c rest]; simpl.
  - split; [by intros ?%elem_of_nil|]. by intros (c & _ & _ & ? & _).
  - destruct (p c) eqn:Hp.
    + rewrite list_elem_of_singleton. split.
      * intros ?; simplify_eq. exists c. by simpl.
      * intros (c' & ? & -> & ? & ? & ?). destruct st'; simpl in *. by simplify_eq.
    + split; [by intros ?%elem_of_nil|]. intros (c' & ? & _ & ? & _). congruence.
Qed.

Lemma elem_of_run_group n r st t st' :
  (t, st') ∈ run (Group n r) st <->
  exists st1, (t, st1) ∈ run r st /\ st' = set_cap n t st1.
Proof.
  cbn [run]. rewrite list_elem_of_fmap. split.
  - intros ([t1 st1] & ? & ?). simplify_eq. eauto.
  - intros (st1 & ? & ->). by exists (t, st1).
Qed.

Lemma elem_of_star_run step fuel st t st' :
  (t, st') ∈ star_run step fuel st ->
  (t = "" /\ st' = st) \/
  exists fuel' t1 st1 t2, fuel = S fuel' /\ (t1, st1) ∈ step st /\ t1 <> "" /\
    (t2, st') ∈ star_run step fuel' st1 /\ t = t1 +:+ t2.
Proof.
  destruct fuel as [|fuel]; cbn [star_run].
  - intros ?%list_elem_of_singleton. simplify_eq. by left.
  - rewrite elem_of_app, elem_of_flat_map, list_elem_of_singleton.
    intros [([t1 st1] & H1 & H2)|?]; [|simplify_eq; by left].
    right. destruct t1 as [|c t1]; [by apply elem_of_nil in H2|].
    apply list_elem_of_fmap in H2 as ([t2 st2] & ? & H2). simplify_eq.
    exists fuel, (String c t1), st1, t2. done.
Qed.

Lemma star_run_stop step fuel st : ("", st) ∈ star_run step fuel st.
Proof.
  destruct fuel; cbn [star_run]; [apply list_elem_of_here|].
  apply elem_of_app. right. apply list_elem_of_here.
Qed.

Lemma star_run_more step fuel st t1 st1 t2 st2 :
  (t1, st1) ∈ step st -> t1 <> "" -> (t2, st2) ∈ star_run step fuel st1 ->
  (t1 +:+ t2, st2) ∈ star_run step (S fuel) st.
Proof.
  intros H1 Hne H2. cbn [star_run]. apply elem_of_app. left.
  apply elem_of_flat_map. exists (t1, st1). split; [done|].
  destruct t1; [done|]. apply list_elem_of_fmap. by exists (t2, st2).
Qed.

Lemma star_run_mono step : forall fuel fuel' st x,
  fuel <= fuel' -> x ∈ star_run step fuel st -> x ∈ star_run step fuel' st.
Proof.
  induction fuel as [|fuel IH]; intros fuel' st [t st'] Hle Hin.
  - apply list_elem_of_singleton in Hin. simplify_eq. apply star_run_stop.
  - apply elem_of_star_run in Hin as [[-> ->]|(f & t1 & st1 & t2 & ? & H1 & Hne & H2 & ->)].
    + apply star_run_stop.
    + simplify_eq. destruct fuel' as [|fuel']; [lia|].
      eapply star_run_more; [done..|]. apply (IH fuel'); [lia|done].
Qed.

(** The text a match returns is the text it took from the subject. *)
Lemma run_consumes r : forall st t st',
  (t, st') ∈ run r st -> ms_rest st = t +:+ ms_rest st'.
Proof.
  induction r as [|p|r1 IH1 r2 IH2|r1 IH1 r2 IH2|r IH|n r IH|n| | |]; intros st t st' Hin.
  - apply list_elem_of_singleton in Hin. by simplify_eq.
  - apply elem_of_run_class in Hin as (c & _ & -> & -> & _). done.
  - apply elem_of_run_seq in Hin as (t1 & st1 & t2 & H1 & H2 & ->).
    rewrite (IH1 _ _ _ H1), (IH2 _ _ _ H2). by rewrite append_assoc.
  - apply elem_of_run_alt in Hin as [?|?]; eauto.
  - cbn [run] in Hin. remember (S (String.length (ms_rest st))) as fuel eqn:E.
    clear E. revert st t st' Hin.
    induction fuel as [|fuel IHf]; intros st t st' Hin.
    + apply list_elem_of_singleton in Hin. by simplify_eq.
    + apply elem_of_star_run in Hin as [[-> ->]|(f & t1 & st1 & t2 & ? & H1 & Hne & H2 & ->)];
        [done|]. simplify_eq.
      rewrite (IH _ _ _ H1), (IHf _ _ _ H2). by rewrite append_assoc.
  - apply elem_of_run_group in Hin as (st1 & H1 & ->). cbn [set_cap ms_rest]. by apply IH.
  - cbn [run] in Hin. destruct (cap_lookup n (ms_caps st)) as [x|].
    + destruct (strip_prefix x (ms_rest st)) as [rest|] eqn:E; [|by apply elem_of_nil in Hin].
      apply list_elem_of_singleton in Hin. simplify_eq. simpl.
      revert E. generalize (ms_rest st). induction x as [|a x IHx]; intros s E.
      * simpl in E. by simplify_eq.
      * destruct s as [|b s]; [done|]. simpl in E.
        destruct (Ascii.eqb_spec a b); [|done]. subst. simpl. f_equal. by apply IHx.
    + apply list_elem_of_singleton in Hin. by simplify_eq.
  - cbn [run] in Hin. destruct (ms_prev st); [by apply elem_of_nil in Hin|].
    apply list_elem_of_singleton in Hin. by simplify_eq.
  - cbn [run] in Hin. destruct (ms_rest st) eqn:E; [|by apply elem_of_nil in Hin].
    apply list_elem_of_singleton in Hin. simplify_eq. by rewrite E.
  - cbn [run] in Hin. destruct (xorb _ _); [|by apply elem_of_nil in Hin].
    apply list_elem_of_singleton in Hin. by simplify_eq.
Qed.

Lemma run_star_fuel r st t st' :
  (t, st') ∈ run (Star r) st <->
  (t, st') ∈ star_run (run r) (S (String.length (ms_rest st))) st.
Proof. reflexivity. Qed.

(** An induction principle for the matches of a starred pattern. *)
Lemma star_run_ind (step : mstate -> list (string * mstate))
    (Q : mstate -> string -> mstate -> Prop) :
  (forall st, Q st "" st) ->
  (forall st t1 st1 t2 st2,
     (t1, st1) ∈ step st -> t1 <> "" -> Q st1 t2 st2 -> Q st (t1 +:+ t2) st2) ->
  forall fuel st t st', (t, st') ∈ star_run step fuel st -> Q st t st'.
Proof.
  intros Hstop Hmore. induction fuel as [|fuel IH]; intros st t st' Hin.
  - apply list_elem_of_singleton in Hin. simplify_eq. apply Hstop.
  - apply elem_of_star_run in Hin as [[-> ->]|(f & t1 & st1 & t2 & ? & H1 & Hne & H2 & ->)];
      [apply Hstop|]. simplify_eq. eapply Hmore; eauto.
Qed.

Lemma run_within P r : within P r -> forall st t st',
  (t, st') ∈ run r st -> all_units P t = true.
Proof.
  induction r as [|p|r1 IH1 r2 IH2|r1 IH1 r2 IH2|r IH|n r IH|n| | |];
    cbn [within]; intros Hw st t st' Hin.
  - apply list_elem_of_singleton in Hin. by simplify_eq.
  - apply elem_of_run_class in Hin as (c & Hp & -> & _). simpl. by rewrite (Hw c Hp).
  - destruct Hw as [Hw1 Hw2]. apply elem_of_run_seq in Hin as (t1 & st1 & t2 & H1 & H2 & ->).
    rewrite all_units_app, (IH1 Hw1 _ _ _ H1), (IH2 Hw2 _ _ _ H2). done.
  - destruct Hw as [Hw1 Hw2]. apply elem_of_run_alt in Hin as [?|?]; eauto.
  - apply run_star_fuel in Hin. revert Hin.
    apply (star_run_ind (run r) (fun _ t _ => all_units P t = true)); [done|].
    intros s t1 s1 t2 s2 H1 _ H2. by rewrite all_units_app, (IH Hw _ _ _ H1), H2.
  - apply elem_of_run_group in Hin as (st1 & H1 & ->). eauto.
  - done.
  - cbn [run] in Hin. destruct (ms_prev st); [by apply elem_of_nil in Hin|].
    apply list_elem_of_singleton in Hin. by simplify_eq.
  - cbn [run] in Hin. destruct (ms_rest st); [|by apply elem_of_nil in Hin].
    apply list_elem_of_singleton in Hin. by simplify_eq.
  - cbn [run] in Hin. destruct (xorb _ _); [|by apply elem_of_nil in Hin].
    apply list_elem_of_singleton in Hin. by simplify_eq.
Qed.

Lemma free_app P a b : free P (a +:+ b) <-> free P a /\ free P b.
Proof. unfold free. rewrite all_units_app. apply andb_true_iff. Qed.

Lemma run_demands P r : demands P r -> forall st t st',
  (t, st') ∈ run r st -> ~ free P t.
Proof.
  induction r as [|p|r1 IH1 r2 IH2|r1 IH1 r2 IH2|r IH|n r IH|n| | |];
    cbn [demands]; intros Hd st t st' Hin; try done.
  - apply elem_of_run_class in Hin as (c & Hp & -> & _). unfold free. simpl.
    by rewrite (Hd c Hp).
  - apply elem_of_run_seq in Hin as (t1 & st1 & t2 & H1 & H2 & ->).
    rewrite free_app. intros [F1 F2]. destruct Hd as [Hd|Hd].
    + by eapply IH1.
    + by eapply IH2.
  - destruct Hd as [Hd1 Hd2]. apply elem_of_run_alt in Hin as [?|?]; eauto.
  - apply elem_of_run_group in Hin as (st1 & H1 & ->). eauto.
Qed.

(** A pattern leaves the groups it does not hold as they were. *)
Lemma run_caps r : forall st t st' n,
  (t, st') ∈ run r st -> n ∉ groups r ->
  cap_lookup n (ms_caps st') = cap_lookup n (ms_caps st).
Proof.
  induction r as [|p|r1 IH1 r2 IH2|r1 IH1 r2 IH2|r IH|g r IH|g| | |];
    cbn [groups]; intros st t st' n Hin Hn.
  - apply list_elem_of_singleton in Hin. by simplify_eq.
  - apply elem_of_run_class in Hin as (c & _ & _ & _ & -> & _). done.
  - apply not_elem_of_app in Hn as [Hn1 Hn2].
    apply elem_of_run_seq in Hin as (t1 & st1 & t2 & H1 & H2 & ->).
    by rewrite (IH2 _ _ _ _ H2 Hn2), (IH1 _ _ _ _ H1 Hn1).
  - apply not_elem_of_app in Hn as [Hn1 Hn2].
    apply elem_of_run_alt in Hin as [?|?]; eauto.
  - apply run_star_fuel in Hin. revert Hin.
    apply (star_run_ind (run r)
             (fun s _ s' => cap_lookup n (ms_caps s') = cap_lookup n (ms_caps s))); [done|].
    intros s t1 s1 t2 s2 H1 _ H2. by rewrite H2, (IH _ _ _ _ H1 Hn).
  - apply not_elem_of_cons in Hn as [Hne Hn].
    apply elem_of_run_group in Hin as (st1 & H1 & ->). cbn [set_cap ms_caps cap_lookup].
    destruct (Nat.eqb_spec n g); [done|]. eauto.
  - cbn [run] in Hin. destruct (cap_lookup g (ms_caps st)) as [x|].
    + destruct (strip_prefix x (ms_rest st)); [|by apply elem_of_nil in Hin].
      apply list_elem_of_singleton in Hin. by simplify_eq.
    + apply list_elem_of_singleton in Hin. by simplify_eq.
  - cbn [run] in Hin. destruct (ms_prev st); [by apply elem_of_nil in Hin|].
    apply list_elem_of_singleton in Hin. by simplify_eq.
  - cbn [run] in Hin. destruct (ms_rest st); [|by apply elem_of_nil in Hin].
    apply list_elem_of_singleton in Hin. by simplify_eq.
  - cbn [run] in Hin. destruct (xorb _ _); [|by apply elem_of_nil in Hin].
    apply list_elem_of_singleton in Hin. by simplify_eq.
Qed.

Lemma run_group_cap n r st t st' :
  (t, st') ∈ run (Group n r) st -> cap_lookup n (ms_caps st') = Some t.
Proof.
  intros (st1 & _ & ->)%elem_of_run_group. cbn [set_cap ms_caps cap_lookup].
  by rewrite Nat.eqb_refl.
Qed.

(** *** Building matches *)

Lemma splits_stop p s : ("", s) ∈ splits p s.
Proof.
  destruct s as [|c s]; simpl; [apply list_elem_of_here|].
  destruct (p c); [|apply list_elem_of_here].
  apply elem_of_app. right. apply list_elem_of_here.
Qed.

Lemma splits_complete p t rest :
  all_units p t = true -> (t, rest) ∈ splits p (t +:+ rest).
Proof.
  induction t as [|c t IH]; simpl; [intros _; apply splits_stop|].
  destruct (p c); [|done]. simpl. intros H. apply elem_of_app. left.
  apply list_elem_of_fmap. exists (t, rest). split; [done|]. by apply IH.
Qed.

Lemma plus_class_complete p caps prev t rest :
  t <> "" -> all_units p t = true ->
  (t, MState caps (last_unit prev t) rest)
  ∈ run (Plus (Class p)) (MState caps prev (t +:+ rest)).
Proof.
  intros Hne Hall. rewrite run_plus_class. destruct t as [|c t]; [done|].
  simpl in *. destruct (p c); [|done]. simpl in Hall.
  apply list_elem_of_fmap. exists (t, rest). split; [done|]. by apply splits_complete.
Qed.

Lemma run_lit x : forall caps prev rest,
  run (Lit x) (MState caps prev (x +:+ rest)) = [(x, MState caps (last_unit prev x) rest)].
Proof.
  induction x as [|c x IH]; intros caps prev rest; [done|].
  cbn [Lit]. rewrite run_seq, run_class. simpl. unfold is_char. rewrite Ascii.eqb_refl.
  cbn [flat_map]. rewrite IH. done.
Qed.

Lemma elem_of_run_lit x st t st' :
  (t, st') ∈ run (Lit x) st ->
  t = x /\ ms_rest st = x +:+ ms_rest st' /\ ms_caps st' = ms_caps st.
Proof.
  revert st t st'. induction x as [|c x IH]; intros st t st' Hin.
  - apply list_elem_of_singleton in Hin. by simplify_eq.
  - cbn [Lit] in Hin. apply elem_of_run_seq in Hin as (t1 & st1 & t2 & H1 & H2 & ->).
    apply elem_of_run_class in H1 as (c' & Hc & -> & Hr & Hcaps & _).
    unfold is_char in Hc. apply Ascii.eqb_eq in Hc. subst c'.
    apply IH in H2 as (-> & Hr2 & Hcaps2). rewrite Hr, Hr2, Hcaps2, Hcaps. done.
Qed.

Lemma star_complete r st t1 st1 t2 st2 :
  (t1, st1) ∈ run r st -> t1 <> "" -> (t2, st2) ∈ run (Star r) st1 ->
  (t1 +:+ t2, st2) ∈ run (Star r) st.
Proof.
  intros H1 Hne H2. apply run_star_fuel. apply run_star_fuel in H2.
  eapply star_run_more; [done..|]. eapply star_run_mono; [|done].
  rewrite (run_consumes _ _ _ _ H1), length_append. destruct t1; [done|]. simpl. lia.
Qed.

Lemma star_stop r st : ("", st) ∈ run (Star r) st.
Proof. apply run_star_fuel, star_run_stop. Qed.

Lemma seq_complete r1 r2 st t1 st1 t2 st2 :
  (t1, st1) ∈ run r1 st -> (t2, st2) ∈ run r2 st1 ->
  (t1 +:+ t2, st2) ∈ run (Seq r1 r2) st.
Proof. intros. apply elem_of_run_seq. eauto 10. Qed.

Lemma head_elem {A} (l : list A) x : x ∈ l -> exists y, head l = Some y /\ y ∈ l.
Proof. destruct l as [|y l]; [by intros ?%elem_of_nil|]. intros _. exists y. split; [done|apply list_elem_of_here]. Qed.

(** *** Regions without a match *)

Lemma replace_from_region r f src P :
  opens P r -> forall pre pos prev rest,
  free P pre ->
  replace_from r f src pos prev (pre +:+ rest) 0
  = pre +:+ replace_from r f src (pos + String.length pre) (last_unit prev pre) rest 0.
Proof.
  intros Hop. induction pre as [|c pre IH]; intros pos prev rest Hfree.
  - simpl. by rewrite Nat.add_0_r.
  - unfold free in Hfree. simpl in Hfree. apply andb_true_iff in Hfree as [Hc Hfree].
    simpl. unfold match_at. pose proof (Hop [] prev (String c (pre +:+ rest))) as Hrun.
    simpl in Hrun. rewrite Hrun by (by destruct (P c)). simpl.
    rewrite IH by done.
    by replace (pos + S (String.length pre)) with (S pos + String.length pre) by lia.
Qed.

Lemma replace_from_end r f src P pos prev :
  opens P r -> replace_from r f src pos prev "" 0 = "".
Proof.
  intros Hop. simpl. unfold match_at. pose proof (Hop [] prev "") as Hrun.
  simpl in Hrun. by rewrite Hrun.
Qed.

Lemma replace_from_tail r f src P pos prev post :
  opens P r -> free P post -> replace_from r f src pos prev post 0 = post.
Proof.
  intros Hop Hfree.
  pose proof (replace_from_region r f src P Hop post pos prev "" Hfree) as H.
  rewrite append_nil_r in H. rewrite H, (replace_from_end _ _ _ P) by done.
  apply append_nil_r.
Qed.

End ReFacts.

(* ===================================================================== *)
(** ** Keys and translations in the editor *)
(* ===================================================================== *)

Module EditorFacts.
#[local] Arguments String.append !_ _ / : simpl nomatch.
Import Re Js Store Editor StoreFacts ReFacts.

Lemma suffixed_inj key_ : Inj (=) (=) (suffixed key_).
Proof.
  intros [|n] [|m] H; unfold suffixed in H; [done|..].
  - apply (f_equal String.length) in H. rewrite length_append in H. simpl in H. lia.
  - apply (f_equal String.length) in H. rewrite length_append in H. simpl in H. lia.
  - apply (inj (String.app key_)) in H. simpl in H. injection H as H.
    apply (inj pretty) in H. lia.
Qed.

Lemma suffix_loop_spec existing key_ : forall fuel n m,
  n <= m <= n + fuel ->
  has_key (suffixed key_ m) existing = false ->
  exists m', n <= m' <= m /\
    suffix_loop fuel existing key_ (n + 1) (suffixed key_ n) = suffixed key_ m' /\
    has_key (suffixed key_ m') existing = false /\
    forall j, n <= j < m' -> has_key (suffixed key_ j) existing = true.
Proof.
  induction fuel as [|fuel IH]; intros n m Hm Hfree.
  - assert (m = n) as -> by lia. exists n. simpl. rewrite Hfree.
    repeat split; [lia..|done|intros; lia].
  - cbn [suffix_loop]. destruct (has_key (suffixed key_ n) existing) eqn:Hn.
    + assert (n <> m) by (intros ->; congruence).
      destruct (IH (S n) m) as (m' & Hm' & Hloop & Hf & Hused); [lia|done|].
      exists m'. split; [lia|]. split.
      { assert (suffixed key_ (S n) = key_ +:+ "." +:+ pretty ((n + 1 + 1)%nat)) as <-.
        { unfold suffixed. do 3 f_equal. lia. }
        by replace (n + 1 + 1) with (S n + 1) by lia. }
      split; [done|]. intros j Hj. destruct (decide (j = n)) as [->|]; [done|].
      apply Hused. lia.
    + exists n. repeat split; [lia..|done|intros; lia].
Qed.

Lemma bounded_search (P : nat -> bool) (k : nat) :
  (exists m, m <= k /\ P m = false) \/ (forall m, m <= k -> P m = true).
Proof.
  induction k as [|k [(m & Hm & HP)|Hall]].
  - destruct (P 0) eqn:E; [right|left; eauto]. intros m Hm. by replace m with 0 by lia.
  - left. exists m. split; [lia|done].
  - destruct (P (S k)) eqn:E; [right|left; eauto].
    intros m Hm. destruct (decide (m = S k)) as [->|]; [done|]. apply Hall. lia.
Qed.

(** Among [length existing + 1] keys of the sequence one is unused. *)
Lemma unused_suffix (existing : Table) (key_ : string) :
  exists m, m <= length existing /\ has_key (suffixed key_ m) existing = false.
Proof.
  destruct (bounded_search (fun m => has_key (suffixed key_ m) existing) (length existing))
    as [H|Hall]; [done|exfalso].
  assert (map (suffixed key_) (seq 0 (S (length existing))) ⊆+ map key existing) as Hsub.
  { apply NoDup_submseteq.
    - pose proof (suffixed_inj key_). apply (NoDup_fmap_2 (suffixed key_)), NoDup_seq.
    - intros x Hx. apply list_elem_of_fmap in Hx as (m & -> & Hm).
      apply elem_of_seq in Hm. apply has_key_elem_of. apply Hall. lia. }
  apply submseteq_length in Hsub. rewrite !length_map, length_seq in Hsub. lia.
Qed.

Lemma finalKey_for_spec (existing : Table) (key_ : string) :
  exists n, finalKey_for existing key_ = suffixed key_ n /\
    has_key (finalKey_for existing key_) existing = false /\
    forall j, j < n -> has_key (suffixed key_ j) existing = true.
Proof.
  destruct (unused_suffix existing key_) as (m & Hm & Hfree).
  destruct (suffix_loop_spec existing key_ (length existing) 0 m) as (n & Hn & Hloop & Hf & Hused);
    [lia|done|].
  exists n. unfold finalKey_for. simpl in Hloop. rewrite Hloop.
  repeat split; [done|]. intros j Hj. apply Hused. lia.
Qed.

Lemma mappedKey_none (m1 : gmap string value) (m2 : gmap string string) (text : string) :
  aliasToKey (toLowerCase text) = None ->
  m1 !! text = None ->
  m2 !! toLowerCase text = None ->
  mappedKey m1 m2 text = None.
Proof. intros Ha H1 H2. unfold mappedKey. rewrite Ha, H1, H2. reflexivity. Qed.

Section resolve.
Variables (now : string) (uuid : nat -> string).

Lemma resolve_text_mint (enLowerToKey : gmap string string) (sc : Scan)
    (text : string) (w : World) :
  aliasToKey (toLowerCase text) = None ->
  enToKey sc !! text = None ->
  enLowerToKey !! toLowerCase text = None ->
  resolve_text now uuid enLowerToKey sc text w =
  (Ok (minted sc text),
   (createLocalization now
      (blank_entry (uuid (drawn sc))
         (finalKey_for (existing sc) (generateKeyFromText text)) text) w).2).
Proof.
  intros Ha H1 H2. unfold resolve_text.
  rewrite (mappedKey_none _ _ _ Ha H1 H2). reflexivity.
Qed.

Lemma finalKey_for_unused (existing : Table) (key_ : string) :
  has_key key_ existing = false -> finalKey_for existing key_ = key_.
Proof.
  intros H. unfold finalKey_for. destruct (length existing); simpl; by rewrite H.
Qed.

Lemma has_key_app k t1 t2 : has_key k (t1 ++ t2) = has_key k t1 || has_key k t2.
Proof. unfold has_key. apply existsb_app. Qed.

Lemma append_neq_self (a b : string) : b <> "" -> a +:+ b <> a.
Proof.
  intros Hb H. apply (f_equal String.length) in H. rewrite length_append in H.
  destruct b; [done|]. simpl in H. lia.
Qed.

Lemma finalKey_for_second (existing : Table) (key_ id_ en_ : string) :
  has_key key_ existing = false ->
  has_key (key_ +:+ ".2") existing = false ->
  finalKey_for (existing ++ [blank_entry id_ key_ en_]) key_ = key_ +:+ ".2".
Proof.
  intros H1 H2. unfold finalKey_for. rewrite length_app, Nat.add_comm.
  cbn [length Nat.add suffix_loop].
  assert (has_key key_ (existing ++ [blank_entry id_ key_ en_]) = true) as ->.
  { rewrite has_key_app. unfold has_key at 2. simpl. rewrite String.eqb_refl.
    by rewrite orb_true_r. }
  change (key_ +:+ "." +:+ pretty 2) with (key_ +:+ ".2").
  assert (has_key (key_ +:+ ".2") (existing ++ [blank_entry id_ key_ en_]) = false) as Hf.
  { rewrite has_key_app, H2. unfold has_key. simpl.
    destruct (String.eqb_spec key_ (key_ +:+ ".2")) as [E|]; [|done].
    symmetry in E. by apply append_neq_self in E. }
  destruct (length existing); cbn [suffix_loop]; by rewrite Hf.
Qed.

Lemma two_texts_one_slug (enLowerToKey : gmap string string) (sc : Scan)
    (t1 t2 : string) (w : World) :
  t1 <> t2 ->
  generateKeyFromText t2 = generateKeyFromText t1 ->
  aliasToKey (toLowerCase t1) = None -> enToKey sc !! t1 = None ->
  enLowerToKey !! toLowerCase t1 = None ->
  aliasToKey (toLowerCase t2) = None -> enToKey sc !! t2 = None ->
  enLowerToKey !! toLowerCase t2 = None ->
  has_key (generateKeyFromText t1) (existing sc) = false ->
  has_key (generateKeyFromText t1 +:+ ".2") (existing sc) = false ->
  exists sc' w',
    resolve_all now uuid enLowerToKey sc [t1; t2] w = (Ok sc', w') /\
    newKeys sc' = newKeys sc ++ [(generateKeyFromText t1, t1);
                                 (generateKeyFromText t1 +:+ ".2", t2)].
Proof.
  intros Hne Hslug Ha1 He1 Hl1 Ha2 He2 Hl2 Hk Hk2.
  cbn [resolve_all]. unfold mbind, M_bind.
  rewrite (resolve_text_mint _ _ _ _ Ha1 He1 Hl1).
  set (w1 := (createLocalization _ _ w).2).
  rewrite resolve_text_mint; [| done | | done].
  2:{ unfold minted. cbn [enToKey]. by rewrite lookup_insert_ne. }
  eexists _, _. split; [reflexivity|].
  unfold minted. cbn [newKeys existing].
  rewrite Hslug, (finalKey_for_unused _ _ Hk), (finalKey_for_second _ _ _ _ Hk Hk2).
  by rewrite <- app_assoc.
Qed.

Lemma has_updates_sets u : has_updates u = false -> sets_of (strings_of u) = [].
Proof. by destruct u as [[?|] [?|] [?|] [?|] [?|]]. Qed.

Lemma updateLocalizationByKey_ok k tr w :
  (updateLocalizationByKey now k tr w).1 = Ok tt.
Proof. rewrite updateLocalizationByKey_eq. by destruct (sets_of tr). Qed.

Lemma updateLocalizationByKey_rows k tr w :
  db (updateLocalizationByKey now k tr w).2 = map (updated_row now k tr) (db w).
Proof. apply updateLocalizationByKey_db. Qed.

Lemma updated_row_no_sets k tr r : sets_of tr = [] -> updated_row now k tr r = r.
Proof. intros H. unfold updated_row. rewrite H. by destruct (String.eqb (key r) k). Qed.

(** One item of the merge: the row of its key is updated, or, when a
    value is not bound, the loop is left with nothing written. *)
Lemma merge_item trans k en_ w :
  let step := if has_updates (updates_for trans en_)
              then update_item now k (updates_for trans en_) else mret () in
  if binds trans en_
  then exists w1, step w = (Ok tt, w1) /\
         db w1 = map (updated_row now k (strings_of (updates_for trans en_))) (db w)
  else exists msg, step w = (Throw msg, w).
Proof.
  intros step. unfold step, update_item, binds.
  set (u := updates_for trans en_).
  destruct (bindable (u_es u) && bindable (u_fr u) && bindable (u_de u)
            && bindable (u_ja u) && bindable (u_zh u)) eqn:Hb.
  - destruct (has_updates u) eqn:Hu.
    + pose proof (updateLocalizationByKey_ok k (strings_of u) w) as Hok.
      pose proof (updateLocalizationByKey_rows k (strings_of u) w) as Hrows.
      destruct (updateLocalizationByKey now k (strings_of u) w) as [res w1]. simpl in *.
      subst res. by exists w1.
    + exists w. split; [done|]. symmetry. rewrite <- (map_id (db w)) at 2.
      apply map_ext. intros r. by apply updated_row_no_sets, has_updates_sets.
  - assert (has_updates u = true) as ->; [|by eexists].
    destruct u as [[[]|] [[]|] [[]|] [[]|] [[]|]]; done.
Qed.

Lemma merge_translations_db trans : forall items w,
  db (merge_translations now trans items w).2
  = map (merge_row now trans (merged trans items)) (db w) /\
  (merged trans items = items -> (merge_translations now trans items w).1 = Ok tt) /\
  (merged trans items <> items ->
   exists msg, (merge_translations now trans items w).1 = Throw msg).
Proof.
  induction items as [|[k en_] items IH]; intros w.
  - simpl. split; [by rewrite map_id|]. split; [done|]. by intros [].
  - cbn [merge_translations merged]. unfold mbind, M_bind.
    pose proof (merge_item trans k en_ w) as Hstep. cbv zeta in Hstep.
    destruct (binds trans en_).
    + destruct Hstep as (w1 & -> & Hdb).
      destruct (IH w1) as (Hrows & Hok & Hthrow).
      split; [|split].
      * rewrite Hrows, Hdb, map_map. done.
      * intros [= E]. by apply Hok.
      * intros Hne. apply Hthrow. congruence.
    + destruct Hstep as (msg & ->). split; [by rewrite map_id|].
      split; [done|]. intros _. by exists msg.
Qed.

Lemma field_of_updates trans en_ c :
  c ∈ locale_columns ->
  field_of (strings_of (updates_for trans en_)) c = string_of (translated trans c en_).
Proof. intros H. columns H; reflexivity. Qed.

Lemma updated_row_key k tr r : key (updated_row now k tr r) = key r.
Proof. exact (f_equal (fun p => p.1.1.2) (updated_row_fixed now k tr r)). Qed.

Lemma updated_row_other k tr r : key r <> k -> updated_row now k tr r = r.
Proof. intros H. unfold updated_row. by destruct (String.eqb_spec (key r) k). Qed.

Lemma merge_row_cons trans k en_ items r :
  merge_row now trans ((k, en_) :: items) r
  = merge_row now trans items (updated_row now k (strings_of (updates_for trans en_)) r).
Proof. reflexivity. Qed.

Lemma merge_row_other trans : forall items r,
  key r ∉ items.*1 -> merge_row now trans items r = r.
Proof.
  induction items as [|[k en_] items IH]; intros r Hn; [done|].
  simpl in Hn. apply not_elem_of_cons in Hn as [Hne Hn].
  rewrite merge_row_cons, updated_row_other by done. by apply IH.
Qed.

Lemma merge_row_item trans : forall items k en_ r,
  NoDup items.*1 -> (k, en_) ∈ items -> key r = k ->
  fixed_part (merge_row now trans items r) = fixed_part r /\
  forall c, c ∈ locale_columns ->
    get_column c (merge_row now trans items r)
    = default (get_column c r) (string_of (translated trans c en_)).
Proof.
  induction items as [|[k0 en0] items IH]; intros k en_ r Hnd Hin Hk.
  - by apply elem_of_nil in Hin.
  - simpl in Hnd. apply NoDup_cons in Hnd as [Hfresh Hnd].
    rewrite merge_row_cons. apply elem_of_cons in Hin as [Heq|Hin].
    + simplify_eq.
      rewrite merge_row_other by (by rewrite updated_row_key).
      split; [apply updated_row_fixed|]. intros c Hc.
      destruct (string_of (translated trans c en0)) eqn:Ht; simpl.
      * apply updated_row_present; [done| |done]. by rewrite field_of_updates.
      * apply updated_row_absent; [done|]. by rewrite field_of_updates.
    + assert (key r <> k0) as Hne.
      { intros E. apply Hfresh. apply list_elem_of_fmap. exists (k, en_).
        split; [simpl; congruence | done]. }
      rewrite updated_row_other by done. by apply (IH k en_).
Qed.

Lemma merge_row_fixed_part trans : forall items r,
  fixed_part (merge_row now trans items r) = fixed_part r.
Proof.
  induction items as [|[k en_] items IH]; intros r; [done|].
  rewrite merge_row_cons, IH. apply updated_row_fixed.
Qed.

Lemma merged_sublist trans : forall items, merged trans items `sublist_of` items.
Proof.
  induction items as [|[k en_] items IH]; simpl; [done|].
  destruct (binds trans en_); [by apply sublist_skip|apply sublist_nil_l].
Qed.

Lemma merged_all trans items :
  Forall (fun item => binds trans item.2 = true) items -> merged trans items = items.
Proof.
  induction 1 as [|[k en_] items Hb _ IH]; [done|]. simpl in *. by rewrite Hb, IH.
Qed.

End resolve.

End EditorFacts.

(* ===================================================================== *)
(** ** The key of a literal *)
(* ===================================================================== *)

Module PreviewFacts.
#[local] Arguments String.append !_ _ / : simpl nomatch.
Import Re Js Store Preview ReFacts.

(** *** Strings *)
Lemma drop_app_le n a b :
  n <= String.length a -> drop n (a +:+ b) = drop n a +:+ b.
Proof.
  revert n. induction a as [|c a IH]; intros [|n] H; simpl in *; try done; try lia.
  apply IH. lia.
Qed.

Lemma drop_app_length a b : drop (String.length a) (a +:+ b) = b.
Proof. induction a; simpl; auto. Qed.

Lemma take_app_length a b : take (String.length a) (a +:+ b) = a.
Proof. induction a; simpl; congruence. Qed.

Lemma length_drop n a : String.length (drop n a) = String.length a - n.
Proof. revert n. induction a as [|c a IH]; intros [|n]; simpl; auto. Qed.

Lemma slice_before n pre x :
  slice (String.length pre - n) (String.length pre) (pre +:+ x) = last_n n pre.
Proof.
  unfold slice, last_n. rewrite drop_app_le by lia.
  pose proof (take_app_length (drop (String.length pre - n) pre) x) as H.
  rewrite length_drop in H. done.
Qed.

Lemma slice_after n a post :
  slice (String.length a) (String.length a + n) (a +:+ post) = take n post.
Proof.
  unfold slice. rewrite drop_app_length. f_equal. lia.
Qed.

Lemma split_at_first P : forall a c b a' c' b',
  all_units P a = true -> all_units P a' = true -> P c = false -> P c' = false ->
  a +:+ String c b = a' +:+ String c' b' -> a = a' /\ c = c' /\ b = b'.
Proof.
  induction a as [|x a IH]; intros c b [|x' a'] c' b' Ha Ha' Hc Hc' E; simpl in *.
  - by simplify_eq.
  - simplify_eq. apply andb_true_iff in Ha' as [? _]. congruence.
  - simplify_eq. apply andb_true_iff in Ha as [? _]. congruence.
  - apply andb_true_iff in Ha as [_ Ha]. apply andb_true_iff in Ha' as [_ Ha'].
    injection E as -> E. destruct (IH _ _ _ _ _ Ha Ha' Hc Hc' E) as (-> & -> & ->). done.
Qed.

Lemma all_units_impl (P Q : ascii -> bool) s :
  (forall c, P c = true -> Q c = true) -> all_units P s = true -> all_units Q s = true.
Proof.
  intros H. induction s as [|c s IH]; [done|]. simpl.
  intros [Hc Hs]%andb_true_iff. by rewrite (H c Hc), IH.
Qed.

(** *** The shape of a key *)
Lemma is_alpha_key_unit c : is_alpha c = true -> key_unit c = true.
Proof. unfold key_unit, is_word. by intros ->. Qed.

Lemma is_word_key_unit c : is_word c = true -> key_unit c = true.
Proof. unfold key_unit. by intros ->. Qed.

Lemma is_dot_key_unit c : is_char "." c = true -> key_unit c = true.
Proof. unfold key_unit. intros ->. apply orb_true_r. Qed.

Lemma keyShape_within g : within key_unit (keyShape g).
Proof.
  unfold keyShape, Plus. cbn [within Lit].
  repeat split; auto using is_alpha_key_unit, is_word_key_unit, is_dot_key_unit.
Qed.

Lemma join_segs_units segs :
  Forall (word1 is_word) segs -> all_units key_unit (join_segs segs) = true.
Proof.
  induction 1 as [|w segs [_ Hw] _ IH]; [done|]. cbn [join_segs]. simpl.
  rewrite all_units_app, IH, (all_units_impl _ _ _ is_word_key_unit Hw). done.
Qed.

Lemma key_str_units k : key_str k -> all_units key_unit k = true.
Proof.
  intros (a & w & ws & -> & [_ Ha] & Hsegs).
  rewrite all_units_app, (all_units_impl _ _ _ is_alpha_key_unit Ha).
  by rewrite join_segs_units.
Qed.

Lemma quote_cases q : is_quote q = true -> q = sq \/ q = dq.
Proof.
  unfold is_quote. intros [H|H]%orb_true_iff; apply Ascii.eqb_eq in H; auto.
Qed.

Lemma quote_not_key_unit q : is_quote q = true -> key_unit q = false.
Proof. intros [-> | ->]%quote_cases; reflexivity. Qed.

Lemma join_segs_cons w segs :
  join_segs (w :: segs) = ("." +:+ w) +:+ join_segs segs.
Proof. cbn [join_segs]. by rewrite append_assoc. Qed.

Lemma join_segs_cons_app w segs rest :
  join_segs (w :: segs) +:+ rest = "." +:+ w +:+ (join_segs segs +:+ rest).
Proof. cbn [join_segs]. by rewrite !append_assoc. Qed.

Lemma seg_complete caps prev w rest :
  word1 is_word w ->
  exists prev', ("." +:+ w, MState caps prev' rest) ∈ run seg (MState caps prev ("." +:+ w +:+ rest)).
Proof.
  intros [Hne Hw]. eexists. unfold seg. eapply seq_complete.
  - rewrite (run_lit "." caps prev (w +:+ rest)). apply list_elem_of_here.
  - by apply plus_class_complete.
Qed.

Lemma segs_complete caps : forall segs prev rest,
  Forall (word1 is_word) segs ->
  exists prev', (join_segs segs, MState caps prev' rest)
    ∈ run (Star seg) (MState caps prev (join_segs segs +:+ rest)).
Proof.
  intros segs. induction segs as [|w ws IH]; intros prev rest Hall.
  - exists prev. apply star_stop.
  - inversion Hall as [|? ? Hw Hws]; subst.
    destruct (seg_complete caps prev w (join_segs ws +:+ rest) Hw) as [p1 H1].
    destruct (IH p1 rest Hws) as [p2 H2]. exists p2.
    rewrite (join_segs_cons_app w ws rest), (join_segs_cons w ws).
    eapply star_complete; [exact H1 | done | exact H2].
Qed.

Lemma keyShape_complete g caps prev k rest :
  key_str k ->
  exists st', (k, st') ∈ run (keyShape g) (MState caps prev (k +:+ rest)).
Proof.
  intros (a & w & ws & -> & [Hane Ha] & Hsegs).
  inversion Hsegs as [|? ? Hw Hws]; subst.
  destruct (seg_complete ((S g, a) :: caps) (last_unit prev a) w (join_segs ws +:+ rest) Hw)
    as [p1 H1].
  destruct (segs_complete ((S g, a) :: caps) ws p1 rest Hws) as [p2 H2].
  pose proof (plus_class_complete is_alpha caps prev a
                (join_segs (w :: ws) +:+ rest) Hane Ha) as H0.
  eexists. unfold keyShape. apply elem_of_run_group. eexists. split; [|reflexivity].
  rewrite append_assoc. eapply seq_complete.
  - apply elem_of_run_group. eexists. split; [exact H0|reflexivity].
  - cbn [set_cap ms_caps ms_prev ms_rest]. unfold Plus. fold seg.
    rewrite (join_segs_cons_app w ws rest), (join_segs_cons w ws).
    eapply seq_complete; [exact H1 | exact H2].
Qed.

Lemma keyLike_unfold :
  keyLike = Seq (Group 1 (Class is_quote)) (Seq (keyShape 2) (Backref 1)).
Proof. reflexivity. Qed.

Lemma keyLike_opens : opens is_quote keyLike.
Proof.
  intros caps prev [|c rest]; rewrite keyLike_unfold, run_seq; cbn [run ms_rest]; [done|].
  by intros ->.
Qed.

Lemma elem_of_run_backref n st t st' x :
  cap_lookup n (ms_caps st) = Some x ->
  (t, st') ∈ run (Backref n) st ->
  t = x /\ ms_rest st = x +:+ ms_rest st' /\ ms_caps st' = ms_caps st.
Proof.
  intros Hx Hin. pose proof (run_consumes _ _ _ _ Hin) as Hc.
  cbn [run] in Hin. rewrite Hx in Hin.
  destruct (strip_prefix x (ms_rest st)); [|by apply elem_of_nil in Hin].
  apply list_elem_of_singleton in Hin. by simplify_eq.
Qed.

Lemma strip_prefix_app x rest : strip_prefix x (x +:+ rest) = Some rest.
Proof. induction x as [|c x IH]; [done|]. simpl. by rewrite Ascii.eqb_refl. Qed.

(** At a quoted key the pattern matches the literal, and nothing else. *)
Lemma match_keyLike prev q k post :
  is_quote q = true -> key_str k ->
  exists st', match_at keyLike prev (literal q k +:+ post) = Some (literal q k, st') /\
              cap_lookup 2 (ms_caps st') = Some k.
Proof.
  intros Hq Hk. unfold match_at.
  set (st0 := MState [] prev (literal q k +:+ post)).
  assert (Hall : forall t st', (t, st') ∈ run keyLike st0 ->
            t = literal q k /\ cap_lookup 2 (ms_caps st') = Some k).
  { intros t st' Hin. rewrite keyLike_unfold in Hin.
    apply elem_of_run_seq in Hin as (t1 & s1 & t23 & H1 & H23 & ->).
    apply elem_of_run_seq in H23 as (t2 & s2 & t3 & H2 & H3 & ->).
    pose proof (run_group_cap _ _ _ _ _ H1) as Hc1.
    apply elem_of_run_group in H1 as (s1' & H1 & ->).
    apply elem_of_run_class in H1 as (c & _ & -> & Hr1 & _).
    unfold st0, literal in Hr1. simpl in Hr1. injection Hr1 as Hqc Hr1. subst c.
    pose proof (run_within _ _ (keyShape_within 2) _ _ _ H2) as Hu2.
    pose proof (run_consumes _ _ _ _ H2) as Hr2. cbn [set_cap ms_rest] in Hr2.
    assert (cap_lookup 1 (ms_caps s2) = Some (String q "")) as Hc1'.
    { rewrite (run_caps _ _ _ _ 1 H2); [done|].
      cbn. rewrite !not_elem_of_cons. repeat split; try done. apply not_elem_of_nil. }
    pose proof (run_group_cap _ _ _ _ _ H2) as Hc2.
    apply (elem_of_run_backref _ _ _ _ _ Hc1') in H3 as (-> & Hr3 & Hcaps3).
    rewrite <- Hr1, Hr3, append_assoc in Hr2. simpl in Hr2.
    apply split_at_first with (P := key_unit) in Hr2 as (-> & _ & _);
      auto using key_str_units, quote_not_key_unit.
    rewrite Hcaps3. split; [done|]. done. }
  assert (Hex : exists x, x ∈ run keyLike st0).
  { destruct (keyShape_complete 2 [(1, String q "")] (Some q) k (String q post) Hk)
      as [s2 H2].
    pose proof (run_consumes _ _ _ _ H2) as Hr2. simpl in Hr2.
    apply (inj (String.app k)) in Hr2.
    assert (cap_lookup 1 (ms_caps s2) = Some (String q "")) as Hc1.
    { rewrite (run_caps _ _ _ _ 1 H2); [by simpl|].
      cbn. rewrite !not_elem_of_cons. repeat split; try done. apply not_elem_of_nil. }
    eexists. rewrite keyLike_unfold. eapply seq_complete.
    - apply elem_of_run_group. eexists. split; [|reflexivity].
      unfold st0, literal. rewrite run_class. simpl. rewrite Hq. apply list_elem_of_here.
    - eapply seq_complete.
      + cbn [set_cap ms_caps ms_prev ms_rest]. rewrite append_assoc. simpl. exact H2.
      + cbn [run]. rewrite Hc1, <- Hr2. simpl. rewrite Ascii.eqb_refl.
        apply list_elem_of_here. }
  destruct Hex as [x Hx]. destruct (head_elem _ _ Hx) as ([t st'] & Hhead & Hin).
  destruct (Hall _ _ Hin) as [-> Hc]. exists st'. done.
Qed.

Lemma length_literal q k : String.length (literal q k) = S (S (String.length k)).
Proof. unfold literal. simpl. rewrite length_append. simpl. lia. Qed.

(** The [keyLike] pass on a source that holds one quoted key. *)
Lemma rewrite_keyLike_literal allKeys pre post q k :
  is_quote q = true -> key_str k -> free is_quote pre -> free is_quote post ->
  rewrite_keyLike allKeys (pre +:+ literal q k +:+ post) =
  pre +:+
  (if guarded_before pre || guarded_after post then literal q k
   else if known allKeys k then "{" +:+ call (resolvedKey k) +:+ "}"
   else literal q k)
  +:+ post.
Proof.
  intros Hq Hk Hpre Hpost. unfold rewrite_keyLike, replace_fn.
  set (src := pre +:+ literal q k +:+ post). unfold src at 2.
  rewrite (replace_from_region _ _ _ _ keyLike_opens) by done.
  destruct (match_keyLike (last_unit None pre) q k post Hq Hk) as (st' & Hm & Hc).
  f_equal.
  assert (Hm' : match_at keyLike (last_unit None pre)
                  (String q ((k +:+ String q "") +:+ post)) = Some (literal q k, st'))
    by exact Hm.
  change (literal q k +:+ post) with (String q ((k +:+ String q "") +:+ post)) at 1.
  cbn [replace_from Nat.add]. rewrite Hm'.
  rewrite length_literal.
  pose proof (replace_from_skip keyLike (keyLike_replacer allKeys) src
                (k +:+ String q "") (S (String.length pre))
                (Some q) post) as Hs.
  rewrite length_append in Hs. simpl in Hs.
  replace (String.length k + 1) with (S (String.length k)) in Hs by lia.
  rewrite Hs, (replace_from_tail _ _ _ _ _ _ _ keyLike_opens) by done.
  f_equal. unfold keyLike_replacer. cbn [mi_text mi_offset mi_src mi_caps].
  unfold group. cbn [mi_caps]. rewrite Hc. cbn [default].
  unfold src at 1 2. rewrite slice_before.
  assert (slice (String.length pre + String.length (literal q k))
                (String.length pre + String.length (literal q k) + 5) src
          = take 5 post) as ->.
  { unfold src. rewrite <- append_assoc, <- length_append. apply slice_after. }
  unfold guarded_before, guarded_after.
  destruct (test re_t_open (last_n 12 pre) || test re_i18n_open (last_n 12 pre)); [done|].
  simpl. by destruct (test re_colon (take 5 post)).
Qed.

End PreviewFacts.

(* ===================================================================== *)
(** ** The passes of the rewriter on one literal *)
(* ===================================================================== *)

Module LiteralFacts.
#[local] Arguments String.append !_ _ / : simpl nomatch.
Import Re Js Store Preview ReFacts PreviewFacts.

(** *** Strings and quotes *)
Lemma app_eq_cases (u x a y : string) :
  u +:+ x = a +:+ y ->
  (exists z, a = u +:+ z /\ x = z +:+ y) \/ (exists z, u = a +:+ z /\ y = z +:+ x).
Proof.
  revert a. induction u as [|c u IH]; intros a E.
  - left. exists a. by simpl in *.
  - destruct a as [|d a].
    + right. exists (String c u). by simpl in *.
    + simpl in E. injection E as -> E. destruct (IH _ E) as [(z & -> & ->)|(z & -> & ->)].
      * left. by exists z.
      * right. by exists z.
Qed.

Lemma app_cons_assoc (x : string) (c : ascii) (y z : string) :
  (x +:+ String c y) +:+ z = x +:+ String c (y +:+ z).
Proof. by rewrite append_assoc. Qed.

Lemma free_cons P c s : free P (String c s) <-> P c = false /\ free P s.
Proof.
  unfold free. simpl. rewrite andb_true_iff, negb_true_iff. done.
Qed.

Lemma free_nil P : free P "".
Proof. done. Qed.

Lemma free_all_units P s : free P s -> all_units (fun c => negb (P c)) s = true.
Proof. done. Qed.

(** A text with a quote is not free of quotes. *)
Lemma not_free_quote a q b : is_quote q = true -> ~ free is_quote (a +:+ String q b).
Proof. intros Hq [_ [Hc _]%free_cons]%free_app. congruence. Qed.

(** Splitting at the first quote is unique. *)
Lemma first_quote a q b a' q' b' :
  free is_quote a -> free is_quote a' -> is_quote q = true -> is_quote q' = true ->
  a +:+ String q b = a' +:+ String q' b' -> a = a' /\ q = q' /\ b = b'.
Proof.
  intros Ha Ha' Hq Hq'. apply split_at_first with (P := fun c => negb (is_quote c));
    try done; by rewrite ?Hq, ?Hq'.
Qed.

Lemma is_quote_sq : is_quote sq = true.
Proof. reflexivity. Qed.

Lemma quote_or_free s :
  free is_quote s \/ exists a q b, s = a +:+ String q b /\ free is_quote a /\ is_quote q = true.
Proof.
  induction s as [|c s [IH|(a & q & b & -> & Ha & Hq)]].
  - by left.
  - destruct (is_quote c) eqn:Hc.
    + right. exists "", c, s. done.
    + left. by apply free_cons.
  - destruct (is_quote c) eqn:Hc.
    + right. exists "", c, (a +:+ String q b). done.
    + right. exists (String c a), q, b. split; [done|]. split; [|done]. by apply free_cons.
Qed.

(** The last unit of a text whose units satisfy [p]. *)
Lemma last_unit_all p s prev :
  s <> "" -> all_units p s = true -> exists c, last_unit prev s = Some c /\ p c = true.
Proof.
  revert prev. induction s as [|c s IH]; intros prev Hne Hall; [done|].
  simpl in *. apply andb_true_iff in Hall as [Hc Hs].
  destruct s as [|d s]; [by exists c|]. by apply IH.
Qed.


(** *** A subject with two quotes *)

(** A match that holds a quoted body, in a subject whose only quotes are
    two single quotes: the quotes are those of the subject. *)
Lemma two_quote_align (a tl : string) (q1 : ascii) (body : string) (q2 : ascii)
    (tr A B C : string) :
  free is_quote tl -> is_quote q1 = true -> is_quote q2 = true ->
  free is_quote A -> free is_quote B -> free is_quote C ->
  a +:+ tl +:+ String q1 (body +:+ String q2 tr) = A +:+ String sq (B +:+ String sq C) ->
  a +:+ tl = A /\ q1 = sq /\ body = B /\ q2 = sq /\ tr = C.
Proof.
  intros Htl Hq1 Hq2 HA HB HC E.
  assert (Hbody : forall X, body +:+ String q2 tr = X -> ~ free is_quote X).
  { intros X <-. by apply not_free_quote. }
  rewrite <- append_assoc in E.
  destruct (app_eq_cases _ _ _ _ E) as [(z & -> & Ez)|(z & Eu & Ez)].
  - destruct z as [|c z].
    + simpl in Ez. injection Ez as -> Ez. rewrite append_nil_r. split; [done|]. split; [done|].
      destruct (quote_or_free body) as [Hb|(b1 & q' & b2 & -> & Hb1 & Hq')].
      * by destruct (first_quote _ _ _ _ _ _ Hb HB Hq2 is_quote_sq Ez) as (-> & -> & ->).
      * rewrite append_assoc in Ez. simpl in Ez.
        destruct (first_quote _ _ _ _ _ _ Hb1 HB Hq' is_quote_sq Ez) as (_ & _ & Ez').
        exfalso. revert HC. rewrite <- Ez'. by apply not_free_quote.
    + simpl in Ez. injection Ez as <- _. apply free_app in HA as [_ HA].
      apply free_cons in HA as [HA _]. congruence.
  - destruct z as [|c z].
    + simpl in Ez. injection Ez as <- Ez. rewrite append_nil_r in Eu. split; [done|].
      split; [done|]. symmetry in Ez.
      destruct (quote_or_free body) as [Hb|(b1 & q' & b2 & -> & Hb1 & Hq')].
      * by destruct (first_quote _ _ _ _ _ _ Hb HB Hq2 is_quote_sq Ez) as (-> & -> & ->).
      * rewrite append_assoc in Ez. simpl in Ez.
        destruct (first_quote _ _ _ _ _ _ Hb1 HB Hq' is_quote_sq Ez) as (_ & _ & Ez').
        exfalso. revert HC. rewrite <- Ez'. by apply not_free_quote.
    + simpl in Ez. injection Ez as <- Ez. exfalso.
      destruct (app_eq_cases _ _ _ _ (eq_sym Ez)) as [(z2 & -> & Ez2)|(z2 & -> & Ez2)].
      * destruct z2 as [|c z2].
        -- simpl in Ez2. injection Ez2 as _ Ez2. by eapply Hbody.
        -- simpl in Ez2. injection Ez2 as <- _. apply free_app in HB as [_ HB].
           apply free_cons in HB as [HB _]. congruence.
      * destruct z2 as [|c z2].
        -- simpl in Ez2. injection Ez2 as _ Ez2. symmetry in Ez2. by eapply Hbody.
        -- simpl in Ez2. injection Ez2 as _ Ez2. revert HC. rewrite Ez2.
           by apply not_free_quote.
Qed.

(** *** The text of a match *)

Lemma ws_not_quote c : is_ws c = true -> is_quote c = false.
Proof.
  intros H. destruct (is_quote c) eqn:E; [|done].
  apply quote_cases in E as [-> | ->]; done.
Qed.

Lemma ws_free_quote w : all_units is_ws w = true -> free is_quote w.
Proof.
  apply all_units_impl. intros c Hc. by rewrite (ws_not_quote c Hc).
Qed.

Lemma elem_of_run_ws st t st' :
  (t, st') ∈ run ws st -> all_units is_ws t = true.
Proof. intros Hin. eapply (run_within is_ws ws); [|exact Hin]. cbn. auto. Qed.

Lemma elem_of_run_char q st t st' :
  (t, st') ∈ run (Class (is_char q)) st -> t = String q "".
Proof.
  intros (c & Hc & -> & _)%elem_of_run_class. unfold is_char in Hc.
  apply Ascii.eqb_eq in Hc. by subst.
Qed.

Lemma wrapped_unfold o c q T :
  wrapped o c q T =
  Seq (Lit o) (Seq ws (Seq (Seq (Class (is_char q)) (Seq (Lit T) (Class (is_char q))))
                           (Seq ws (Lit c)))).
Proof. reflexivity. Qed.

Lemma elem_of_run_wrapped o c q T st t st' :
  (t, st') ∈ run (wrapped o c q T) st ->
  exists w1 w2, all_units is_ws w1 = true /\ all_units is_ws w2 = true /\
    t = (o +:+ w1) +:+ String q (T +:+ String q (w2 +:+ c)).
Proof.
  rewrite wrapped_unfold. intros Hin.
  apply elem_of_run_seq in Hin as (t1 & s1 & u1 & H1 & Hin & ->).
  apply elem_of_run_seq in Hin as (t2 & s2 & u2 & H2 & Hin & ->).
  apply elem_of_run_seq in Hin as (t3 & s3 & u3 & H3 & Hin & ->).
  apply elem_of_run_seq in Hin as (t4 & s4 & t5 & H4 & H5 & ->).
  apply elem_of_run_seq in H3 as (ta & sa & u4 & Ha & H3 & ->).
  apply elem_of_run_seq in H3 as (tb & sb & tc & Hb & Hc & ->).
  apply elem_of_run_lit in H1 as (-> & _). apply elem_of_run_lit in H5 as (-> & _).
  apply elem_of_run_lit in Hb as (-> & _).
  apply elem_of_run_char in Ha as ->. apply elem_of_run_char in Hc as ->.
  apply elem_of_run_ws in H2. apply elem_of_run_ws in H4.
  exists t2, t4. split; [done|]. split; [done|].
  rewrite !append_assoc. simpl. reflexivity.
Qed.

Lemma wrapped_in_two_quoted o c q T caps prev a b t st' A B C :
  (t, st') ∈ run (wrapped o c q T) (MState caps prev b) ->
  a +:+ b = two_quoted A B C ->
  is_quote q = true -> free is_quote o ->
  free is_quote A -> free is_quote B -> free is_quote C ->
  exists w1 w2, all_units is_ws w1 = true /\ all_units is_ws w2 = true /\
    a +:+ o +:+ w1 = A /\ q = sq /\ T = B /\ w2 +:+ c +:+ ms_rest st' = C /\
    t = (o +:+ w1) +:+ String sq (B +:+ String sq (w2 +:+ c)).
Proof.
  intros Hin E Hq Ho HA HB HC.
  pose proof (run_consumes _ _ _ _ Hin) as Hr. cbn [ms_rest] in Hr.
  apply elem_of_run_wrapped in Hin as (w1 & w2 & Hw1 & Hw2 & ->).
  assert (Et : ((o +:+ w1) +:+ String q (T +:+ String q (w2 +:+ c))) +:+ ms_rest st'
             = (o +:+ w1) +:+ String q (T +:+ String q ((w2 +:+ c) +:+ ms_rest st'))).
  { by rewrite !app_cons_assoc. }
  rewrite Hr, Et in E. unfold two_quoted in E.
  assert (free is_quote (o +:+ w1)) as Htl by (apply free_app; auto using ws_free_quote).
  apply (two_quote_align a (o +:+ w1) q T q _ A B C) in E as (E1 & -> & -> & _ & E2);
    try done.
  exists w1, w2. rewrite append_assoc in E2. done.
Qed.

(** *** Regions without a match *)

Lemma replace_from_quiet r f src : forall pre pos prev rest,
  (forall a b prev', pre = a +:+ b -> b <> "" -> match_at r prev' (b +:+ rest) = None) ->
  replace_from r f src pos prev (pre +:+ rest) 0
  = pre +:+ replace_from r f src (pos + String.length pre) (last_unit prev pre) rest 0.
Proof.
  induction pre as [|c pre IH]; intros pos prev rest Hq.
  - simpl. by rewrite Nat.add_0_r.
  - pose proof (Hq "" (String c pre) prev eq_refl) as H0.
    simpl in *. rewrite H0 by done.
    rewrite IH.
    + by replace (pos + S (String.length pre)) with (S pos + String.length pre) by lia.
    + intros a b prev' -> Hb. by apply (Hq (String c a) b prev').
Qed.

Lemma replace_from_quiet_tail r f src post pos prev :
  (forall a b prev', post = a +:+ b -> match_at r prev' b = None) ->
  replace_from r f src pos prev post 0 = post.
Proof.
  intros Hq.
  pose proof (replace_from_quiet r f src post pos prev "") as H.
  rewrite append_nil_r in H. rewrite H.
  - simpl. rewrite (Hq post "" _) by (by rewrite append_nil_r). apply append_nil_r.
  - intros a b prev' -> _. rewrite append_nil_r. by apply (Hq a b prev').
Qed.

Lemma match_at_none r prev b :
  (forall t st', (t, st') ∈ run r (MState [] prev b) -> False) -> match_at r prev b = None.
Proof.
  intros H. unfold match_at. destruct (run r _) as [|[t st'] l] eqn:E; [done|].
  exfalso. apply (H t st'). apply list_elem_of_here.
Qed.

Lemma match_at_demands P r prev b :
  demands P r -> free P b -> match_at r prev b = None.
Proof.
  intros Hd Hf. apply match_at_none. intros t st' Hin.
  pose proof (run_consumes _ _ _ _ Hin) as Hr. cbn [ms_rest] in Hr.
  rewrite Hr in Hf. apply free_app in Hf as [Hf _]. by eapply run_demands.
Qed.

Lemma replace_fn_demands P r f s : demands P r -> free P s -> replace_fn r f s = s.
Proof.
  intros Hd Hf. apply replace_from_quiet_tail. intros a b prev' ->.
  apply free_app in Hf as [_ Hf]. by eapply match_at_demands.
Qed.

(** *** Templates without a dollar *)
Lemma substitute_plain tpl m b a : free (is_char "$") tpl -> substitute tpl m b a = tpl.
Proof.
  induction tpl as [|c tpl IH]; [done|]. intros [Hc Hf]%free_cons. simpl.
  unfold is_char in Hc. rewrite Ascii.eqb_sym in Hc. rewrite Hc. by rewrite IH.
Qed.

Lemma template_fn_plain tpl m : free (is_char "$") tpl -> template_fn tpl m = tpl.
Proof. apply substitute_plain. Qed.

(** *** One turn of the loop over the stored texts *)

Lemma free_quote_dq s : free is_quote s -> free (is_char dq) s.
Proof.
  unfold free. apply all_units_impl. intros c Hc. unfold is_quote in Hc.
  apply negb_true_iff, orb_false_iff in Hc as [_ Hc].
  unfold is_char. by rewrite Ascii.eqb_sym, Hc.
Qed.

Ltac solve_free :=
  repeat first [ done | by apply free_quote_dq
               | (apply free_app; split) | (apply free_cons; split) ].

Lemma wrapped_dq_demands o c T : demands (is_char dq) (wrapped o c dq T).
Proof. rewrite wrapped_unfold. cbn [demands]. right. right. left. left. auto. Qed.

Lemma replace_wrapped_dq o c T tpl s :
  free (is_char dq) s -> replace (wrapped o c dq T) tpl s = s.
Proof. intros Hf. eapply replace_fn_demands; [apply wrapped_dq_demands|done]. Qed.

Lemma quiet_subject r f s :
  (forall a b caps prev t st', (t, st') ∈ run r (MState caps prev b) -> a +:+ b = s -> False) ->
  replace_fn r f s = s.
Proof.
  intros H. apply replace_from_quiet_tail. intros a b prev' ->.
  apply match_at_none. intros t st' Hin. by eapply (H a b).
Qed.

(** The text before the first quote of the subject ends in [z]; a match
    whose text before its first quote ends otherwise is not there. *)
Lemma ends_differ (a tl X : string) (z : ascii) (p : ascii -> bool) :
  tl <> "" -> (exists c, last_unit None tl = Some c /\ p c = true) -> p z = false ->
  a +:+ tl = X +:+ String z "" -> False.
Proof.
  intros Hne (c & Hl & Hc) Hz E. apply (f_equal (last_unit None)) in E.
  rewrite !last_unit_app in E. simpl in E.
  destruct tl as [|d tl]; [done|]. simpl in *.
  assert (last_unit (Some d) tl = Some c) as Hl'.
  { clear -Hl. revert d Hl. induction tl; simpl; auto. }
  assert (forall prev, last_unit (Some d) tl = last_unit prev (String d tl)) as Hp by done.
  rewrite Hl' in E. congruence.
Qed.

Lemma last_unit_ws_or (o : string) (oc : ascii) (w : string) (p : ascii -> bool) :
  last_unit None o = Some oc -> p oc = true -> (forall c, is_ws c = true -> p c = true) ->
  all_units is_ws w = true ->
  exists c, last_unit None (o +:+ w) = Some c /\ p c = true.
Proof.
  intros Ho Hoc Hws Hw. rewrite last_unit_app, Ho.
  destruct w as [|d w]; [by exists oc|].
  destruct (last_unit_all is_ws (String d w) (Some oc)) as (c & Hc & Hcw); [done..|].
  exists c. auto.
Qed.

Lemma src_two_quoted pre T post :
  src_of pre T post = two_quoted (pre +:+ "{") T ("}" +:+ post).
Proof. unfold src_of, two_quoted. rewrite ?append_assoc. reflexivity. Qed.

Lemma res_two_quoted pre K post :
  res_of pre K post = two_quoted (pre +:+ "{__i18n(") K (")}" +:+ post).
Proof.
  unfold res_of, two_quoted, call. rewrite ?append_assoc. reflexivity.
Qed.

Lemma ws_not_char z : is_ws z = false -> forall c, is_ws c = true -> not_char z c = true.
Proof.
  intros Hz c Hc. unfold not_char. destruct (Ascii.eqb_spec c z); [|done]. congruence.
Qed.

(** A wrapped literal cannot start where the text before the first quote
    of the subject ends in a unit that is neither its opening unit nor white
    space. *)
Lemma wrapped_blocked oc c T' tpl A z B C :
  is_quote oc = false -> oc <> z -> is_ws z = false ->
  free is_quote A -> is_quote z = false -> free is_quote B -> free is_quote C ->
  replace (wrapped (String oc "") c sq T') tpl (two_quoted (A +:+ String z "") B C)
  = two_quoted (A +:+ String z "") B C.
Proof.
  intros Hoc Hne Hz HA Hzq HB HC. apply quiet_subject. intros a b caps prev t st' Hin E.
  apply wrapped_in_two_quoted
    with (a := a) (A := A +:+ String z "") (B := B) (C := C) in Hin
    as (w1 & w2 & Hw1 & _ & E1 & _); [|exact E|solve_free..].
  eapply (ends_differ a (String oc "" +:+ w1) A z (not_char z)); [done| | |exact E1].
  - apply (last_unit_ws_or (String oc "") oc); [done| |by apply ws_not_char|done].
    unfold not_char. by destruct (Ascii.eqb_spec oc z).
  - unfold not_char. by rewrite Ascii.eqb_refl.
Qed.

Lemma textNode_on_src T' tpl pre T post :
  free is_quote pre -> free is_quote T -> free is_quote post ->
  replace (textNode sq T') tpl (src_of pre T post) = src_of pre T post.
Proof.
  intros Hpre HT Hpost. rewrite src_two_quoted. unfold textNode.
  apply wrapped_blocked; done.
Qed.

Lemma wrapped_on_res oc c T' tpl pre K post :
  is_quote oc = false -> oc <> "("%char ->
  free is_quote pre -> free is_quote K -> free is_quote post ->
  replace (wrapped (String oc "") c sq T') tpl (res_of pre K post) = res_of pre K post.
Proof.
  intros Hoc Hne Hpre HK Hpost. rewrite res_two_quoted.
  change (pre +:+ "{__i18n(") with (pre +:+ ("{__i18n" +:+ String "(" "")).
  rewrite <- append_assoc. apply wrapped_blocked; solve_free.
Qed.

Lemma exprLiteral_other T' tpl pre T post :
  T' <> T -> free is_quote pre -> free is_quote T -> free is_quote post ->
  replace (exprLiteral sq T') tpl (src_of pre T post) = src_of pre T post.
Proof.
  intros Hne Hpre HT Hpost. rewrite src_two_quoted. apply quiet_subject.
  intros a b caps prev t st' Hin E.
  apply wrapped_in_two_quoted
    with (a := a) (A := pre +:+ "{") (B := T) (C := "}" +:+ post) in Hin
    as (w1 & w2 & _ & _ & _ & _ & HT' & _); [done|exact E|solve_free..].
Qed.

Lemma wrapped_sq_demands o c T : demands is_quote (wrapped o c sq T).
Proof.
  rewrite wrapped_unfold. cbn [demands]. right. right. left. left.
  intros c' Hc. unfold is_char in Hc. apply Ascii.eqb_eq in Hc. by subst.
Qed.

Lemma replace_from_demands_tail P r f src pos prev post :
  demands P r -> free P post -> replace_from r f src pos prev post 0 = post.
Proof.
  intros Hd Hf. apply replace_from_quiet_tail. intros a b prev' ->.
  apply free_app in Hf as [_ Hf]. by eapply match_at_demands.
Qed.

Lemma lit_complete x caps prev rest :
  (x, MState caps (last_unit prev x) rest) ∈ run (Lit x) (MState caps prev (x +:+ rest)).
Proof. rewrite run_lit. apply list_elem_of_here. Qed.

Lemma class_complete (p : ascii -> bool) c caps prev rest :
  p c = true ->
  (String c "", MState caps (Some c) rest) ∈ run (Class p) (MState caps prev (String c rest)).
Proof. intros Hp. rewrite run_class, Hp. apply list_elem_of_here. Qed.

Lemma exprLiteral_match prev pre T post :
  free is_quote pre -> free is_quote T -> free is_quote post ->
  exists st', match_at (exprLiteral sq T) prev ("{'" +:+ T +:+ "'}" +:+ post)
              = Some ("{'" +:+ T +:+ "'}", st').
Proof.
  intros Hpre HT Hpost. unfold match_at.
  set (b := "{'" +:+ T +:+ "'}" +:+ post).
  assert (Hall : forall t st', (t, st') ∈ run (exprLiteral sq T) (MState [] prev b) ->
            t = "{'" +:+ T +:+ "'}").
  { intros t st' Hin.
    apply wrapped_in_two_quoted
      with (a := pre) (A := pre +:+ "{") (B := T) (C := "}" +:+ post) in Hin
      as (w1 & w2 & Hw1 & Hw2 & E1 & _ & _ & E2 & ->);
      [|apply src_two_quoted|solve_free..].
    apply (inj (String.app pre)) in E1. simpl in E1. injection E1 as E1.
    destruct w1; [|done]. destruct w2 as [|d w2].
    - done.
    - simpl in E2. injection E2 as -> _. simpl in Hw2. done. }
  assert (Hex : exists x, x ∈ run (exprLiteral sq T) (MState [] prev b)).
  { eexists. unfold exprLiteral. rewrite wrapped_unfold.
    eapply seq_complete;
      [apply (lit_complete "{" [] prev (String sq (T +:+ "'}" +:+ post)))|].
    eapply seq_complete; [apply star_stop|].
    eapply seq_complete.
    - eapply seq_complete; [by apply class_complete|].
      eapply seq_complete; [apply lit_complete|]. by apply class_complete.
    - eapply seq_complete; [apply star_stop|]. apply (lit_complete "}"). }
  destruct Hex as [x Hx]. destruct (head_elem _ _ Hx) as ([t st'] & Hhead & Hin).
  rewrite (Hall _ _ Hin) in Hhead. eauto.
Qed.

Lemma exprLiteral_hit tpl pre T post :
  free (is_char "$") tpl ->
  free is_quote pre -> free is_quote T -> free is_quote post ->
  replace (exprLiteral sq T) tpl (src_of pre T post) = pre +:+ tpl +:+ post.
Proof.
  intros Htpl Hpre HT Hpost. unfold replace, replace_fn.
  set (src := src_of pre T post). unfold src at 2. unfold src_of.
  rewrite replace_from_quiet.
  2:{ intros a b prev' -> Hb. apply match_at_none. intros t st' Hin.
      apply wrapped_in_two_quoted
        with (a := a) (A := (a +:+ b) +:+ "{") (B := T) (C := "}" +:+ post) in Hin
        as (w1 & w2 & Hw1 & _ & E1 & _); [| |solve_free..].
      2:{ rewrite <- append_assoc. apply src_two_quoted. }
      rewrite append_assoc in E1. apply (inj (String.app a)) in E1.
      destruct b as [|c b]; [done|]. simpl in E1. injection E1 as <- E1.
      rewrite E1, all_units_app in Hw1. simpl in Hw1.
      by apply andb_true_iff in Hw1 as [_ ?]. }
  f_equal.
  destruct (exprLiteral_match (last_unit None pre) pre T post Hpre HT Hpost) as (st' & Hm).
  assert (Hm' : match_at (exprLiteral sq T) (last_unit None pre)
                  (String "{" ((String sq (T +:+ "'}")) +:+ post))
                = Some ("{'" +:+ T +:+ "'}", st')).
  { rewrite <- Hm. f_equal. simpl. by rewrite !append_assoc. }
  assert (Esub : "{'" +:+ T +:+ "'}" +:+ post
                 = String "{" ((String sq (T +:+ "'}")) +:+ post)).
  { simpl. by rewrite !append_assoc. }
  rewrite Esub. cbn [replace_from Nat.add]. rewrite Hm'.
  rewrite template_fn_plain by done. f_equal.
  assert (String.length ("{'" +:+ T +:+ "'}") = S (String.length (String sq (T +:+ "'}"))))
    as -> by done.
  rewrite replace_from_skip.
  eapply replace_from_demands_tail; [apply wrapped_sq_demands|done].
Qed.

(** The turn of the loop for [T] itself. *)
Lemma rewrite_text_hit pre T K post :
  T <> "" -> toLowerCase T <> "react" -> toLowerCase T <> "use client" ->
  free is_quote pre -> free is_quote T -> free is_quote post ->
  free is_quote K -> free (is_char "$") K ->
  rewrite_text (src_of pre T post) (T, K) = res_of pre K post.
Proof.
  intros Hne Hr Hu Hpre HT Hpost HK HK'. unfold rewrite_text.
  assert (truthy T = true) as ->.
  { unfold truthy. by destruct (String.eqb_spec T ""). }
  destruct (String.eqb_spec (toLowerCase T) "react"); [done|].
  destruct (String.eqb_spec (toLowerCase T) "use client"); [done|]. cbn [negb orb].
  rewrite textNode_on_src by done. unfold textNode at 1.
  rewrite replace_wrapped_dq.
  2:{ rewrite src_two_quoted. unfold two_quoted. solve_free. }
  rewrite exprLiteral_hit; try done.
  2:{ unfold call. solve_free. }
  fold (res_of pre K post). unfold exprLiteral. apply replace_wrapped_dq.
  rewrite res_two_quoted. unfold two_quoted. solve_free.
Qed.

(** The turn for another text. *)
Lemma src_free_dq pre T post :
  free is_quote pre -> free is_quote T -> free is_quote post ->
  free (is_char dq) (src_of pre T post).
Proof. intros. rewrite src_two_quoted. unfold two_quoted. solve_free. Qed.

Lemma res_free_dq pre K post :
  free is_quote pre -> free is_quote K -> free is_quote post ->
  free (is_char dq) (res_of pre K post).
Proof. intros. rewrite res_two_quoted. unfold two_quoted. solve_free. Qed.

Lemma rewrite_text_other pre T post T' K' :
  T' <> T -> free is_quote pre -> free is_quote T -> free is_quote post ->
  rewrite_text (src_of pre T post) (T', K') = src_of pre T post.
Proof.
  intros Hne Hpre HT Hpost. unfold rewrite_text.
  destruct (negb (truthy T')); [done|].
  destruct (_ || _); [done|].
  rewrite textNode_on_src by done. unfold textNode at 1.
  rewrite replace_wrapped_dq by (by apply src_free_dq).
  rewrite exprLiteral_other by done. unfold exprLiteral.
  apply replace_wrapped_dq. by apply src_free_dq.
Qed.

(** Any turn after the literal was replaced. *)
Lemma rewrite_text_done pre K post T' K' :
  free is_quote pre -> free is_quote K -> free is_quote post ->
  rewrite_text (res_of pre K post) (T', K') = res_of pre K post.
Proof.
  intros Hpre HK Hpost. unfold rewrite_text.
  destruct (negb (truthy T')); [done|].
  destruct (_ || _); [done|].
  unfold textNode, exprLiteral.
  rewrite (wrapped_on_res ">") by done.
  rewrite (replace_wrapped_dq ">" "<") by (by apply res_free_dq).
  rewrite (wrapped_on_res "{") by done.
  apply replace_wrapped_dq. by apply res_free_dq.
Qed.

Lemma fold_rewrite_done pre K post (l : list (string * string)) :
  free is_quote pre -> free is_quote K -> free is_quote post ->
  fold_left rewrite_text l (res_of pre K post) = res_of pre K post.
Proof.
  intros Hpre HK Hpost. induction l as [|[T' K'] l IH]; [done|].
  cbn [fold_left]. rewrite rewrite_text_done by done. apply IH.
Qed.

Lemma fold_rewrite_hit pre T K post : forall l : list (string * string),
  NoDup l.*1 -> (T, K) ∈ l ->
  T <> "" -> toLowerCase T <> "react" -> toLowerCase T <> "use client" ->
  free is_quote pre -> free is_quote T -> free is_quote post ->
  free is_quote K -> free (is_char "$") K ->
  fold_left rewrite_text l (src_of pre T post) = res_of pre K post.
Proof.
  induction l as [|[T' K'] l IH]; intros Hnd Hin Hne Hr Hu Hpre HT Hpost HK HK'.
  - by apply elem_of_nil in Hin.
  - simpl in Hnd. apply NoDup_cons in Hnd as [Hfresh Hnd]. cbn [fold_left].
    apply elem_of_cons in Hin as [Heq|Hin].
    + simplify_eq. rewrite rewrite_text_hit by done. by apply fold_rewrite_done.
    + rewrite rewrite_text_other; [by apply IH| |done..].
      intros ->. apply Hfresh. apply list_elem_of_fmap. by exists (T, K).
Qed.





(** *** The later passes leave the call alone *)

Lemma last_n_app n x s :
  String.length s <= n -> last_n n (x +:+ s) = last_n (n - String.length s) x +:+ s.
Proof.
  intros H. unfold last_n. rewrite length_append, drop_app_le by lia.
  do 2 f_equal. lia.
Qed.

Lemma test_from_suffix r s :
  (forall prev, match_at r prev s <> None) ->
  forall y prev, test_from r prev (y +:+ s) = true.
Proof.
  intros H. induction y as [|c y IH]; intros prev.
  - simpl. specialize (H prev). destruct s; simpl; by destruct (match_at r prev _).
  - simpl. destruct (match_at r prev _); [done|]. apply IH.
Qed.

Lemma guarded_before_i18n x : guarded_before (x +:+ "__i18n(") = true.
Proof.
  unfold guarded_before. rewrite last_n_app by (simpl; lia).
  apply orb_true_iff. right. apply test_from_suffix. intros prev. by vm_compute.
Qed.

Lemma guarded_before_t x : guarded_before (x +:+ "t(") = true.
Proof.
  unfold guarded_before. rewrite last_n_app by (simpl; lia).
  apply orb_true_iff. left. apply test_from_suffix. intros prev. by vm_compute.
Qed.


Lemma key_unit_not_quote c : key_unit c = true -> is_quote c = false.
Proof.
  intros H. destruct (is_quote c) eqn:E; [|done].
  rewrite quote_not_key_unit in H; done.
Qed.

Lemma key_str_free_quote k : key_str k -> free is_quote k.
Proof.
  intros H%key_str_units. unfold free. revert H. apply all_units_impl.
  intros c Hc. by rewrite (key_unit_not_quote c Hc).
Qed.

Lemma key_unit_not_dollar c : key_unit c = true -> is_char "$" c = false.
Proof.
  intros H. unfold is_char. destruct (Ascii.eqb_spec "$" c) as [<-|]; [|done]. done.
Qed.

Lemma key_str_free_dollar k : key_str k -> free (is_char "$") k.
Proof.
  intros H%key_str_units. unfold free. revert H. apply all_units_impl.
  intros c Hc. by rewrite (key_unit_not_dollar c Hc).
Qed.

Lemma res_literal pre K post :
  res_of pre K post = (pre +:+ "{__i18n(") +:+ literal sq K +:+ (")}" +:+ post).
Proof. unfold res_of, call, literal. rewrite ?append_assoc. simpl. by rewrite ?append_assoc. Qed.

Lemma keyLike_on_res allKeys pre K post :
  key_str K -> free is_quote pre -> free is_quote post ->
  rewrite_keyLike allKeys (res_of pre K post) = res_of pre K post.
Proof.
  intros HK Hpre Hpost. rewrite res_literal.
  rewrite rewrite_keyLike_literal; [|done|done|solve_free..].
  change (pre +:+ "{__i18n(") with (pre +:+ "{" +:+ "__i18n(").
  rewrite <- (append_assoc pre "{" "__i18n("), guarded_before_i18n. done.
Qed.

Lemma app_inj_tail (x y : string) (c d : ascii) :
  x +:+ String c "" = y +:+ String d "" -> x = y /\ c = d.
Proof.
  revert y. induction x as [|a x IH]; intros [|b y] E; simpl in E.
  - by simplify_eq.
  - injection E as -> E. by destruct y.
  - injection E as -> E. by destruct x.
  - injection E as -> E. by destruct (IH _ E) as [-> ->].
Qed.

Lemma elem_of_run_quote st t st' :
  (t, st') ∈ run (Class is_quote) st -> exists q, is_quote q = true /\ t = String q "".
Proof. intros (c & Hc & -> & _)%elem_of_run_class. eauto. Qed.

Lemma last_unit_ws_tail (o w : string) prev :
  w <> "" -> all_units is_ws w = true ->
  exists c, last_unit prev (o +:+ w) = Some c /\ is_ws c = true.
Proof. intros Hne Hw. rewrite last_unit_app. by apply last_unit_all. Qed.

Lemma tCall_unfold :
  tCall = Seq (Lit "t(") (Seq ws (Seq (Class is_quote) (Seq (keyShape 1)
            (Seq (Class is_quote) (Seq ws (Lit ")")))))).
Proof. reflexivity. Qed.

Lemma elem_of_run_tCall st t st' :
  (t, st') ∈ run tCall st ->
  exists w1 q1 body q2 tr, all_units is_ws w1 = true /\
    is_quote q1 = true /\ is_quote q2 = true /\
    t = ("t(" +:+ w1) +:+ String q1 (body +:+ String q2 tr).
Proof.
  rewrite tCall_unfold. intros Hin.
  apply elem_of_run_seq in Hin as (t1 & s1 & u1 & H1 & Hin & ->).
  apply elem_of_run_seq in Hin as (t2 & s2 & u2 & H2 & Hin & ->).
  apply elem_of_run_seq in Hin as (t3 & s3 & u3 & H3 & Hin & ->).
  apply elem_of_run_seq in Hin as (t4 & s4 & u4 & H4 & Hin & ->).
  apply elem_of_run_seq in Hin as (t5 & s5 & u5 & H5 & Hin & ->).
  apply elem_of_run_lit in H1 as (-> & _).
  apply elem_of_run_ws in H2.
  apply elem_of_run_quote in H3 as (q1 & Hq1 & ->).
  apply elem_of_run_quote in H5 as (q2 & Hq2 & ->).
  exists t2, q1, t4, q2, u5. split; [done|]. split; [done|]. split; [done|].
  by rewrite ?app_cons_assoc, ?append_assoc.
Qed.

Lemma tCall_on_res pre K post :
  free is_quote pre -> free is_quote K -> free is_quote post ->
  rewrite_tCall (res_of pre K post) = res_of pre K post.
Proof.
  intros Hpre HK Hpost. apply quiet_subject. intros a b caps prev t st' Hin E.
  pose proof (run_consumes _ _ _ _ Hin) as Hr. cbn [ms_rest] in Hr.
  apply elem_of_run_tCall in Hin as (w1 & q1 & body & q2 & tr & Hw1 & Hq1 & Hq2 & ->).
  rewrite Hr, res_two_quoted, !app_cons_assoc in E. unfold two_quoted in E.
  apply two_quote_align in E as (E1 & _); [|solve_free; by apply ws_free_quote|solve_free..].
  destruct w1 as [|d w1].
  - assert ((a +:+ "t") +:+ String "(" "" = (pre +:+ "{__i18n") +:+ String "(" "") as E2
      by (rewrite !append_assoc; exact E1).
    apply app_inj_tail in E2 as [E2 _].
    assert (a +:+ "t" = (pre +:+ "{__i18") +:+ String "n" "") as E3
      by (rewrite append_assoc; exact E2).
    eapply (ends_differ a "t" _ "n" (not_char "n")); [done| |done|exact E3].
    by exists "t"%char.
  - assert (a +:+ "t(" +:+ String d w1 = (pre +:+ "{__i18n") +:+ String "(" "") as E2
      by (rewrite append_assoc; exact E1).
    eapply (ends_differ a _ _ "(" (not_char "(")); [|  |done|exact E2]; [done|].
    destruct (last_unit_ws_tail "t(" (String d w1) None) as (c & Hc & Hcw); [done..|].
    exists c. split; [done|]. by apply ws_not_char.
Qed.

Lemma propKey_unfold f q :
  propKey f q = Seq (Lit f) (Seq ws (Seq (Lit ":") (Seq ws
                  (Seq (Class (is_char q)) (Seq (keyShape 1) (Class (is_char q))))))).
Proof. reflexivity. Qed.

Lemma elem_of_run_propKey f q st t st' :
  (t, st') ∈ run (propKey f q) st ->
  exists w1 w2 body, all_units is_ws w1 = true /\ all_units is_ws w2 = true /\
    t = ((f +:+ w1 +:+ ":") +:+ w2) +:+ String q (body +:+ String q "").
Proof.
  rewrite propKey_unfold. intros Hin.
  apply elem_of_run_seq in Hin as (t1 & s1 & u1 & H1 & Hin & ->).
  apply elem_of_run_seq in Hin as (t2 & s2 & u2 & H2 & Hin & ->).
  apply elem_of_run_seq in Hin as (t3 & s3 & u3 & H3 & Hin & ->).
  apply elem_of_run_seq in Hin as (t4 & s4 & u4 & H4 & Hin & ->).
  apply elem_of_run_seq in Hin as (t5 & s5 & u5 & H5 & Hin & ->).
  apply elem_of_run_seq in Hin as (t6 & s6 & t7 & H6 & H7 & ->).
  apply elem_of_run_lit in H1 as (-> & _). apply elem_of_run_lit in H3 as (-> & _).
  apply elem_of_run_ws in H2. apply elem_of_run_ws in H4.
  apply elem_of_run_char in H5 as ->. apply elem_of_run_char in H7 as ->.
  exists t2, t4, t6. split; [done|]. split; [done|].
  by rewrite ?app_cons_assoc, ?append_assoc.
Qed.

Lemma propKey_on_res allKeys f q pre K post :
  free is_quote f -> is_quote q = true ->
  free is_quote pre -> free is_quote K -> free is_quote post ->
  replace_fn (propKey f q) (propKey_replacer allKeys f) (res_of pre K post)
  = res_of pre K post.
Proof.
  intros Hf Hq Hpre HK Hpost. apply quiet_subject. intros a b caps prev t st' Hin E.
  pose proof (run_consumes _ _ _ _ Hin) as Hr. cbn [ms_rest] in Hr.
  apply elem_of_run_propKey in Hin as (w1 & w2 & body & Hw1 & Hw2 & ->).
  rewrite Hr, res_two_quoted, !app_cons_assoc in E. unfold two_quoted in E.
  apply two_quote_align in E as (E1 & _);
    [|solve_free; by apply ws_free_quote|solve_free..].
  assert (a +:+ (f +:+ w1 +:+ ":") +:+ w2 = (pre +:+ "{__i18n") +:+ String "(" "") as E2
    by (rewrite (append_assoc pre); exact E1).
  eapply (ends_differ a _ _ "(" (not_char "(")); [| |done|exact E2].
  - intros E0. apply (f_equal String.length) in E0.
    rewrite !length_append in E0. simpl in E0. lia.
  - apply (last_unit_ws_or (f +:+ w1 +:+ ":") ":"); [|done|by apply ws_not_char|done].
    rewrite !last_unit_app. done.
Qed.

Lemma fields_free_quote f : f ∈ fields -> free is_quote f.
Proof.
  unfold fields. intros H.
  repeat (apply elem_of_cons in H; destruct H as [->|H]; [done|]).
  by apply elem_of_nil in H.
Qed.

Lemma fields_on_res allKeys pre K post :
  free is_quote pre -> free is_quote K -> free is_quote post ->
  rewrite_fields allKeys (res_of pre K post) = res_of pre K post.
Proof.
  intros Hpre HK Hpost. unfold rewrite_fields.
  assert (Hall : forall f, f ∈ fields -> free is_quote f) by apply fields_free_quote.
  induction fields as [|f fs IH]; [done|]. cbn [fold_left]. unfold rewrite_field at 2.
  rewrite !propKey_on_res; try done.
  - apply IH. intros f' Hf'. apply Hall. by apply list_elem_of_further.
  - apply Hall. apply list_elem_of_here.
  - apply Hall. apply list_elem_of_here.
Qed.

End LiteralFacts.

(* ===================================================================== *)
(** ** The rewriter and the resolver *)
(* ===================================================================== *)

Module RewriterFacts.
#[local] Arguments String.append !_ _ / : simpl nomatch.
Import Re Js Store Preview ReFacts PreviewFacts LiteralFacts.

Lemma map_set_fresh k v m : k ∉ m.*1 -> map_set k v m = m ++ [(k, v)].
Proof.
  induction m as [|[k' v'] m IH]; intros Hn; [done|].
  cbn [map_set]. change (((k', v') :: m).*1) with (k' :: m.*1) in Hn.
  apply not_elem_of_cons in Hn as [Hne Hn].
  destruct (String.eqb_spec k k') as [->|_]; [done|].
  by rewrite IH.
Qed.

Lemma fold_map_set_distinct : forall pairs m : list (string * string),
  NoDup (m.*1 ++ pairs.*1) ->
  fold_left (fun m '(k, v) => map_set k v m) pairs m = m ++ pairs.
Proof.
  induction pairs as [|[k v] pairs IH]; intros m Hnd.
  - by rewrite app_nil_r.
  - cbn [fold_left]. change (((k, v) :: pairs).*1) with (k :: pairs.*1) in Hnd.
    assert (k ∉ m.*1) as Hk.
    { apply NoDup_app in Hnd as (_ & Hd & _). intros Hin.
      apply (Hd k Hin). apply list_elem_of_here. }
    rewrite map_set_fresh by done. rewrite IH.
    + by rewrite <- app_assoc.
    + rewrite fmap_app. simpl. rewrite <- app_assoc. exact Hnd.
Qed.

(** When no two entries have the same trimmed English text, the Map of
    the rewriter holds one pair for every entry. *)
Lemma textToKey_distinct entries e :
  NoDup (map (fun e => trim (en e)) entries) -> e ∈ entries ->
  (trim (en e), key e) ∈ textToKey entries.
Proof.
  intros Hnd Hin. unfold textToKey, Map_entries.
  rewrite fold_map_set_distinct.
  - simpl. apply list_elem_of_fmap. by exists e.
  - simpl. rewrite <- list_fmap_compose. exact Hnd.
Qed.

Lemma key_str_button_submit : key_str "button.submit".
Proof.
  exists "button", "submit", []. split; [done|]. split; [done|].
  constructor; [done|constructor].
Qed.


Lemma truthy_true s : truthy s = true <-> s <> "".
Proof. unfold truthy. destruct (String.eqb_spec s ""); split; done. Qed.

(** C1: the resolver returns the value of the current locale when it is
    not empty, else the English value when it is not empty; after the two
    tables it agrees with the resolver of the specification on every key
    on which the emitted test and the dotted shape agree.  They do not
    agree on [abc]: the emitted test, whose dot stands for any unit,
    accepts it, and the resolver returns the label [Abc] where the key
    itself was to come back. *)
Theorem resolver_label_without_dot :
  (forall TX EN k v, TX !! k = Some v -> v <> "" -> __i18n TX EN k = v) /\
  (forall TX EN k e, (TX !! k = None \/ TX !! k = Some "") ->
     EN !! k = Some e -> e <> "" -> __i18n TX EN k = e) /\
  (forall TX EN k, test emitted_shape k = test dotted_shape k ->
     __i18n TX EN k = resolve_spec TX EN k) /\
  test emitted_shape "abc" = true /\ test dotted_shape "abc" = false /\
  __i18n ∅ ∅ "abc" = "Abc" /\ resolve_spec ∅ ∅ "abc" = "abc".
Proof.
  split; [|split; [|split]].
  - intros TX EN k v Hv Hne. unfold __i18n. rewrite Hv.
    by rewrite (proj2 (truthy_true v) Hne).
  - intros TX EN k e Hv He Hne. unfold __i18n.
    destruct Hv as [-> | ->]; rewrite He; by rewrite (proj2 (truthy_true e) Hne).
  - intros TX EN k Hk. unfold __i18n, resolve_spec, derive. by rewrite Hk.
  - repeat split; by vm_compute.
Qed.

End RewriterFacts.

(* ===================================================================== *)
(** ** Minting and merging *)
(* ===================================================================== *)

Module EditorClaims.
#[local] Arguments String.append !_ _ / : simpl nomatch.
Import Re Js Store Editor ReFacts StoreFacts EditorFacts.

Lemma set_version_db v w : db (set_version v w) = db w.
Proof. by destruct w. Qed.

Lemma translate_batch_body now stamp trans items w :
  items <> [] ->
  translate_batch now stamp items (Body (Some trans)) w
  = match merge_translations now trans items w with
    | (Ok _, w1) => (Ok Translated, (bump_version stamp w1).2)
    | (Throw _, w1) => (Ok Warned, w1)
    end.
Proof.
  intros Hne. destruct items as [|i items]; [done|].
  unfold translate_batch. by destruct (merge_translations _ _ _ _) as [[]].
Qed.

Lemma bump_version_db stamp w : db (bump_version stamp w).2 = db w.
Proof.
  unfold bump_version, modify. simpl. destruct (storage_writable w); [|done].
  apply set_version_db.
Qed.

(** C3: a text for which the alias lookup, the English values and the
    English values without regard to case give nothing gets the key
    [auto.] followed by its slug (lower case, each run of units outside
    [a-z0-9] one dot, no dot at either end, forty units at most), with the
    first of the suffixes none, [.2], [.3], ... that gives a key the store
    does not have; two different such texts with one slug get [auto.x] and
    [auto.x.2].  The alias lookup is a lookup on an object literal and finds
    what every object inherits as well: the text [Constructor] is none of
    the four aliases and no text of the store, yet the lookup hands back the
    constructor of objects, the text counts as mapped and the run creates
    no key where [auto.constructor] was to be created. *)
Theorem minted_key_policy now uuid (enLowerToKey : gmap string string) (sc : Scan)
    (w : World) :
  (forall text,
     aliasToKey (toLowerCase text) = None ->
     enToKey sc !! text = None ->
     enLowerToKey !! toLowerCase text = None ->
     exists sc' w' n,
       resolve_text now uuid enLowerToKey sc text w = (Ok sc', w') /\
       newKeys sc' = newKeys sc ++ [(suffixed ("auto." +:+ slug_spec text) n, text)] /\
       enToKey sc' !! text = Some (Str (suffixed ("auto." +:+ slug_spec text) n)) /\
       has_key (suffixed ("auto." +:+ slug_spec text) n) (existing sc) = false /\
       forall j, j < n ->
         has_key (suffixed ("auto." +:+ slug_spec text) j) (existing sc) = true) /\
  (forall t1 t2,
     t1 <> t2 -> slug_spec t2 = slug_spec t1 ->
     aliasToKey (toLowerCase t1) = None -> enToKey sc !! t1 = None ->
     enLowerToKey !! toLowerCase t1 = None ->
     aliasToKey (toLowerCase t2) = None -> enToKey sc !! t2 = None ->
     enLowerToKey !! toLowerCase t2 = None ->
     has_key ("auto." +:+ slug_spec t1) (existing sc) = false ->
     has_key (("auto." +:+ slug_spec t1) +:+ ".2") (existing sc) = false ->
     exists sc' w',
       resolve_all now uuid enLowerToKey sc [t1; t2] w = (Ok sc', w') /\
       newKeys sc' = newKeys sc ++ [("auto." +:+ slug_spec t1, t1);
                                    (("auto." +:+ slug_spec t1) +:+ ".2", t2)]) /\
  (aliases !! "constructor" = None /\
   aliasToKey (toLowerCase "Constructor") = Some (Member "constructor") /\
   candidates_of constructor_code = ["Constructor"] /\
   has_key ("auto." +:+ slug_spec "Constructor") (db sample_world) = false /\
   forall stamp fetched,
     ensureLocalizationsForCode now uuid stamp constructor_code fetched sample_world
     = (Ok (NothingNew, []), sample_world)).
Proof.
  split; [|split].
  - intros text Ha He Hl.
    destruct (finalKey_for_spec (existing sc) (generateKeyFromText text))
      as (n & Hn & Hfree & Hused).
    rewrite Hn in Hfree. rewrite generateKeyFromText_spec in Hn, Hfree, Hused.
    eexists _, _, n. split; [by apply resolve_text_mint|].
    unfold minted. cbn [newKeys enToKey]. rewrite generateKeyFromText_spec, Hn.
    split; [done|]. split; [by rewrite lookup_insert_eq|]. done.
  - intros t1 t2 Hne Hslug Ha1 He1 Hl1 Ha2 He2 Hl2 Hk Hk2.
    rewrite <- !generateKeyFromText_spec in *.
    apply two_texts_one_slug; try done.
    by rewrite !generateKeyFromText_spec, Hslug.
  - split; [by vm_compute|]. split; [by vm_compute|]. split; [by vm_compute|].
    split; [by vm_compute|]. intros stamp fetched. by vm_compute.
Qed.

Lemma minted_key_policy_witness :
  exists sc' w',
    resolve_all "2025-11-02 09:00:00" sample_uuid ∅ sample_scan
      ["Sign up!"; "Sign up?"] sample_world = (Ok sc', w') /\
    newKeys sc' = [("auto.sign.up", "Sign up!"); ("auto.sign.up.2", "Sign up?")].
Proof.
  apply (proj1 (proj2 (minted_key_policy "2025-11-02 09:00:00" sample_uuid ∅ sample_scan
                  sample_world)) "Sign up!" "Sign up?").
  - discriminate.
  - reflexivity.
  - reflexivity.
  - apply lookup_empty.
  - apply lookup_empty.
  - reflexivity.
  - apply lookup_empty.
  - apply lookup_empty.
  - reflexivity.
  - reflexivity.
Defined.

(** *** What the merge reads from the response *)

Lemma translated_string trans c en_ s :
  string_of (translated trans c en_) = Some s <->
  exists per, trans !! c = Some per /\ per !! en_ = Some s /\ s <> "".
Proof.
  unfold translated, translation, property. split.
  - destruct (trans !! c) as [per|]; [|done].
    destruct (per !! en_) as [x|] eqn:E.
    + cbn [truthy_value]. destruct (truthy x) eqn:Ht; [|done].
      intros [= ->]. exists per. split; [done|]. split; [done|].
      by apply RewriterFacts.truthy_true.
    + by destruct (inherited en_).
  - intros (per & -> & -> & Hs%RewriterFacts.truthy_true). cbn [truthy_value]. by rewrite Hs.
Qed.

Lemma translated_member trans c en_ m :
  translated trans c en_ = Some (Member m) ->
  exists per, trans !! c = Some per /\ per !! en_ = None /\ inherited en_ = true.
Proof.
  unfold translated, translation, property.
  destruct (trans !! c) as [per|]; [|done].
  destruct (per !! en_) as [x|] eqn:E.
  - cbn [truthy_value]. by destruct (truthy x).
  - destruct (inherited en_) eqn:Hi; [|done]. intros _. by exists per.
Qed.

Lemma binds_no_member trans en_ :
  (forall c per, c ∈ locale_columns -> trans !! c = Some per -> per !! en_ = None ->
     inherited en_ = false) ->
  binds trans en_ = true.
Proof.
  intros H.
  assert (forall c, c ∈ locale_columns -> bindable (translated trans c en_) = true) as Hb.
  { intros c Hc. destruct (translated trans c en_) as [[x|m]|] eqn:E; [done| |done].
    apply translated_member in E as (per & Hp & Hn & Hi).
    rewrite (H c per Hc Hp Hn) in Hi. done. }
  unfold binds, updates_for. cbn [u_es u_fr u_de u_ja u_zh].
  rewrite !Hb; [done|in_list..].
Qed.

Lemma NoDup_fst_unique (l : list (string * string)) k a b :
  NoDup l.*1 -> (k, a) ∈ l -> (k, b) ∈ l -> a = b.
Proof.
  induction l as [|[k0 x] l IH]; intros Hnd Ha Hb; [by apply elem_of_nil in Ha|].
  simpl in Hnd. apply NoDup_cons in Hnd as [Hfresh Hnd].
  assert (forall y, (k0, y) ∈ l -> False) as Hno.
  { intros y Hy. apply Hfresh. apply list_elem_of_fmap. by exists (k0, y). }
  apply elem_of_cons in Ha as [Ea|Ha]; apply elem_of_cons in Hb as [Eb|Hb];
    simplify_eq; try done; try (by exfalso; eapply Hno).
  by apply IH.
Qed.

Lemma merged_item trans items k en_ :
  NoDup items.*1 -> (k, en_) ∈ items -> k ∈ (merged trans items).*1 ->
  (k, en_) ∈ merged trans items.
Proof.
  intros Hnd Hin Hk. apply list_elem_of_fmap in Hk as ([k' en'] & E & Hm).
  simpl in E. subst k'.
  assert ((k, en') ∈ items) as Hin'.
  { pose proof (merged_sublist trans items) as Hs.
    apply sublist_submseteq in Hs. eapply elem_of_submseteq; [exact Hm|exact Hs]. }
  assert (en' = en_) as ->; [|done].
  exact (NoDup_fst_unique items k en' en_ Hnd Hin' Hin).
Qed.

(** C7: after a response whose [translations] member was parsed, a
    locale column of the row of a new key either stays as it was or holds
    the non-empty string the provider gave under the row's English text;
    it stays as it was when the provider gave nothing or the empty string
    there; id, key, English text and creation time stay, and the rows of
    other keys stay whole.  When no English text of a new key names a
    member every object inherits that the provider's object lacks, the
    merge runs through and every non-empty string the provider gave is in
    its column.  The response [{es: {Sign up free: Registrate gratis}}]
    (with the accented i) leaves the row of [auto.sign.up.free] with that
    es value and its other columns empty. *)
Theorem merge_only_nonempty now stamp trans (items : list (string * string)) w :
  NoDup items.*1 -> items <> [] ->
  exists o w',
    translate_batch now stamp items (Body (Some trans)) w = (Ok o, w') /\
    length (db w') = length (db w) /\
    (forall i r, db w !! i = Some r ->
       exists r', db w' !! i = Some r' /\
         fixed_part r' = fixed_part r /\
         (key r ∉ items.*1 -> r' = r) /\
         forall en_ c, (key r, en_) ∈ items -> c ∈ locale_columns ->
           (get_column c r' = get_column c r \/
            exists per s, trans !! c = Some per /\ per !! en_ = Some s /\ s <> "" /\
                          get_column c r' = s) /\
           ((trans !! c = None \/
             exists per, trans !! c = Some per /\
               (per !! en_ = None \/ per !! en_ = Some "")) ->
            get_column c r' = get_column c r)) /\
    ((forall k en_ c per, (k, en_) ∈ items -> c ∈ locale_columns ->
        trans !! c = Some per -> per !! en_ = None -> inherited en_ = false) ->
     o = Translated /\
     forall i r r' en_ c per s,
       db w !! i = Some r -> db w' !! i = Some r' ->
       (key r, en_) ∈ items -> c ∈ locale_columns ->
       trans !! c = Some per -> per !! en_ = Some s -> s <> "" ->
       get_column c r' = s).
Proof.
  intros Hnd Hne.
  destruct (merge_translations_db now trans items w) as (Hdb & Hok & Hthrow).
  assert (Hndm : NoDup (merged trans items).*1).
  { assert ((merged trans items).*1 `sublist_of` items.*1) as Hs
      by apply fmap_sublist, merged_sublist.
    exact (sublist_NoDup _ _ Hnd Hs). }
  assert (Hrow : forall i r, db w !! i = Some r ->
            map (merge_row now trans (merged trans items)) (db w) !! i
            = Some (merge_row now trans (merged trans items) r)).
  { intros i r Hr.
    change (map (merge_row now trans (merged trans items)) (db w))
      with (merge_row now trans (merged trans items) <$> db w).
    pose proof (list_lookup_fmap (merge_row now trans (merged trans items)) (db w) i) as E.
    unfold Table in *. by rewrite Hr in E. }
  assert (Hcol : forall r en_ c, (key r, en_) ∈ items -> c ∈ locale_columns ->
            get_column c (merge_row now trans (merged trans items) r) = get_column c r \/
            ((key r, en_) ∈ merged trans items /\
             exists s, string_of (translated trans c en_) = Some s /\
               get_column c (merge_row now trans (merged trans items) r) = s)).
  { intros r en_ c Hin Hc.
    destruct (decide (key r ∈ (merged trans items).*1)) as [Hk|Hk].
    - apply (merged_item trans items _ en_ Hnd Hin) in Hk.
      destruct (merge_row_item now trans (merged trans items) (key r) en_ r Hndm Hk eq_refl)
        as [_ Hcols].
      rewrite (Hcols c Hc).
      destruct (string_of (translated trans c en_)) as [s|]; [right|by left].
      split; [done|]. by exists s.
    - left. by rewrite merge_row_other. }
  set (res := merge_translations now trans items w) in *.
  assert (exists o w', translate_batch now stamp items (Body (Some trans)) w = (Ok o, w')
            /\ db w' = map (merge_row now trans (merged trans items)) (db w)
            /\ (merged trans items = items -> o = Translated)) as (o & w' & Hrun & Hdb' & Ho).
  { rewrite translate_batch_body by done. fold res. destruct res as [[[]|msg] w1] eqn:Er.
    - eexists _, _. split; [done|]. split; [|done]. by rewrite bump_version_db.
    - eexists _, _. split; [done|]. split; [done|]. intros E.
      specialize (Hok E). done. }
  exists o, w'. split; [done|]. split; [by rewrite Hdb', length_map|].
  split.
  - intros i r Hr. exists (merge_row now trans (merged trans items) r).
    split; [rewrite Hdb'; by apply Hrow|].
    split; [apply merge_row_fixed_part|].
    split.
    { intros Hn. apply merge_row_other. intros Hk. apply Hn.
      pose proof (merged_sublist trans items) as Hs.
      eapply elem_of_submseteq; [exact Hk|]. apply sublist_submseteq, fmap_sublist, Hs. }
    intros en_ c Hin Hc. split.
    + destruct (Hcol r en_ c Hin Hc) as [E|(_ & s & Hs & E)]; [by left|right].
      apply translated_string in Hs as (per & Hp & He & Hne'). by exists per, s.
    + intros Hmiss. destruct (Hcol r en_ c Hin Hc) as [E|(_ & s & Hs & E)]; [done|].
      apply translated_string in Hs as (per & Hp & He & Hne').
      destruct Hmiss as [Hm|(per' & Hp' & [Hm|Hm])]; simplify_eq.
  - intros Hinh.
    assert (merged trans items = items) as Hall.
    { apply merged_all. apply Forall_forall. intros [k en_] Hin. simpl.
      apply binds_no_member. intros c per Hc Hp Hn. by apply (Hinh k en_ c per). }
    split; [by apply Ho|].
    intros i r r' en_ c per s Hr Hr' Hin Hc Hp He Hs.
    rewrite Hdb' in Hr'. pose proof (Hrow i r Hr) as Hr''.
    unfold Table in *. rewrite Hr'' in Hr'. injection Hr' as <-.
    rewrite Hall in *.
    destruct (merge_row_item now trans items (key r) en_ r Hnd Hin eq_refl) as [_ Hcols].
    rewrite (Hcols c Hc).
    assert (string_of (translated trans c en_) = Some s) as ->; [|done].
    apply translated_string. by exists per.
Qed.

Lemma merge_only_nonempty_witness :
  (exists o w',
     translate_batch "2025-11-02 09:00:05" "1762074000000"
       [("auto.sign.up.free", "Sign up free")] (Body (Some sample_translations))
       sample_pending = (Ok o, w') /\ o = Translated /\
     exists r', db w' !! 1 = Some r' /\ key r' = "auto.sign.up.free" /\
       es r' = registrate /\ fr r' = "" /\ de r' = "" /\ ja r' = "" /\ zh r' = "") /\
  (exists o w',
     translate_batch "2025-11-02 09:00:05" "1762074000000"
       [("button.submit", "Submit")] (Body (Some sample_partial))
       sample_world = (Ok o, w') /\
     exists r', db w' !! 0 = Some r' /\ es r' = "Mandar" /\ fr r' = "Soumettre").
Proof.
  split.
  - destruct (merge_only_nonempty "2025-11-02 09:00:05" "1762074000000"
                sample_translations [("auto.sign.up.free", "Sign up free")]
                sample_pending (NoDup_singleton _) ltac:(discriminate))
      as (o & w' & Hrun & _ & Hrows & Hfull).
    exists o, w'. split; [exact Hrun|].
    destruct Hfull as [Ho Hset].
    { intros k en_ c per [= -> ->]%list_elem_of_singleton _ _ _. reflexivity. }
    split; [exact Ho|].
    destruct (Hrows 1 (Entry "uuid-0" "auto.sign.up.free" "Sign up free" "" "" "" "" ""
                         "2025-11-02 09:00:00" "2025-11-02 09:00:00") eq_refl)
      as (r' & Hr' & Hfix & _ & Hitem).
    exists r'. split; [exact Hr'|].
    split; [exact (f_equal (fun p => p.1.1.2) Hfix)|].
    split.
    { apply (Hset 1 _ r' "Sign up free" "es" {[ "Sign up free" := registrate ]} registrate
               eq_refl Hr' (list_elem_of_here _ _)); [in_list|done|done|done]. }
    split; [apply (proj2 (Hitem "Sign up free" "fr" (list_elem_of_here _ _) ltac:(in_list))); by left|].
    split; [apply (proj2 (Hitem "Sign up free" "de" (list_elem_of_here _ _) ltac:(in_list))); by left|].
    split; [apply (proj2 (Hitem "Sign up free" "ja" (list_elem_of_here _ _) ltac:(in_list))); by left|].
    apply (proj2 (Hitem "Sign up free" "zh" (list_elem_of_here _ _) ltac:(in_list))); by left.
  - destruct (merge_only_nonempty "2025-11-02 09:00:05" "1762074000000"
                sample_partial [("button.submit", "Submit")]
                sample_world (NoDup_singleton _) ltac:(discriminate))
      as (o & w' & Hrun & _ & Hrows & Hfull).
    exists o, w'. split; [exact Hrun|].
    destruct Hfull as [_ Hset].
    { intros k en_ c per [= -> ->]%list_elem_of_singleton _ _ _. reflexivity. }
    destruct (Hrows 0 sample_row eq_refl) as (r' & Hr' & _ & _ & Hitem).
    exists r'. split; [exact Hr'|]. split.
    + apply (Hset 0 _ r' "Submit" "es" {[ "Submit" := "Mandar" ]} "Mandar"
               eq_refl Hr' (list_elem_of_here _ _)); [in_list|done|done|done].
    + apply (proj2 (Hitem "Submit" "fr" (list_elem_of_here _ _) ltac:(in_list))).
      right. exists {[ "Submit" := "" ]}. split; [done|]. by right.
Defined.

(** The run of the scenario from the source to the store. *)
Lemma sign_up_free_scenario :
  let '(r, w') :=
    ensureLocalizationsForCode "2025-11-02 09:00:00" sample_uuid "1762074000000"
      sample_code (Body (Some sample_translations)) sample_world in
  r = Ok (Translated, [("auto.sign.up.free", "Sign up free")]) /\
  filter (fun e => bool_decide (key e = "auto.sign.up.free")) (db w')
  = [Entry "uuid-0" "auto.sign.up.free" "Sign up free" registrate "" "" "" ""
       "2025-11-02 09:00:00" "2025-11-02 09:00:00"] /\
  version w' = Some "1762074000000".
Proof. by vm_compute. Qed.

(** *** The keys of [newKeys] are distinct *)

Lemma fresh_keys_add sc k en_ id_ :
  fresh_keys sc -> has_key k (existing sc) = false ->
  fresh_keys (MkScan (existing sc ++ [blank_entry id_ k en_])
                (enToKey sc) (newKeys sc ++ [(k, en_)]) (S (drawn sc)))
  /\ forall m, fresh_keys (MkScan (existing sc ++ [blank_entry id_ k en_])
                m (newKeys sc ++ [(k, en_)]) (S (drawn sc))).
Proof.
  intros [Hnd Hin] Hk.
  assert (forall m, fresh_keys (MkScan (existing sc ++ [blank_entry id_ k en_])
                m (newKeys sc ++ [(k, en_)]) (S (drawn sc)))) as H; [|by split].
  intros m. unfold fresh_keys. cbn [newKeys existing]. rewrite fmap_app. split.
  - apply NoDup_app. split; [done|]. split; [|apply NoDup_singleton].
    intros x Hx Hx2. simpl in Hx2. apply list_elem_of_singleton in Hx2 as ->.
    apply Hin in Hx. congruence.
  - intros x [Hx|Hx%list_elem_of_singleton]%elem_of_app; rewrite has_key_app.
    + by rewrite (Hin x Hx).
    + simpl in Hx. subst x. unfold has_key at 2. simpl.
      by rewrite String.eqb_refl, orb_true_r.
Qed.

Lemma resolve_text_fresh now uuid m sc text w :
  fresh_keys sc ->
  exists sc' w', resolve_text now uuid m sc text w = (Ok sc', w') /\ fresh_keys sc'.
Proof.
  intros Hf. unfold resolve_text.
  destruct (truthy_opt (mappedKey (enToKey sc) m text)).
  - eexists _, _. split; [reflexivity|]. exact Hf.
  - unfold mbind, M_bind. rewrite createLocalization_eq.
    eexists _, _. split; [reflexivity|].
    apply fresh_keys_add; [done|].
    by destruct (finalKey_for_spec (existing sc) (generateKeyFromText text))
      as (n & _ & Hfree & _).
Qed.

Lemma resolve_all_fresh now uuid m : forall texts sc w,
  fresh_keys sc ->
  exists sc' w', resolve_all now uuid m sc texts w = (Ok sc', w') /\ fresh_keys sc'.
Proof.
  induction texts as [|text texts IH]; intros sc w Hf.
  - by eexists _, _.
  - cbn [resolve_all]. unfold mbind, M_bind.
    destruct (resolve_text_fresh now uuid m sc text w Hf) as (sc1 & w1 & -> & Hf1).
    by apply IH.
Qed.

Lemma ensure_key_fresh now uuid sc k w :
  fresh_keys sc ->
  exists sc' w', ensure_key now uuid sc k w = (Ok sc', w') /\ fresh_keys sc'.
Proof.
  intros Hf. unfold ensure_key. destruct (has_key k (existing sc)) eqn:Hk.
  - by eexists _, _.
  - unfold mbind, M_bind. rewrite createLocalization_eq.
    eexists _, _. split; [reflexivity|]. by apply fresh_keys_add.
Qed.

Lemma ensure_keys_fresh now uuid : forall keys sc w,
  fresh_keys sc ->
  exists sc' w', ensure_keys now uuid sc keys w = (Ok sc', w') /\ fresh_keys sc'.
Proof.
  induction keys as [|k keys IH]; intros sc w Hf.
  - by eexists _, _.
  - cbn [ensure_keys]. unfold mbind, M_bind.
    destruct (ensure_key_fresh now uuid sc k w Hf) as (sc1 & w1 & -> & Hf1).
    by apply IH.
Qed.

Lemma translate_batch_ok now stamp items fetched w :
  exists o, (translate_batch now stamp items fetched w).1 = Ok o.
Proof.
  destruct items as [|i items]; [by eexists|].
  destruct fetched as [| | |[trans|]]; try by eexists.
  rewrite translate_batch_body by done.
  destruct (merge_translations _ _ _ _) as [[]]; by eexists.
Qed.

(** [ensureLocalizationsForCode] always returns, and the keys it hands to
    the translation are distinct. *)
Lemma ensure_newKeys_distinct now uuid stamp code fetched w :
  exists o items, (ensureLocalizationsForCode now uuid stamp code fetched w).1
                  = Ok (o, items) /\ NoDup items.*1.
Proof.
  unfold ensureLocalizationsForCode, mbind, M_bind, getAllLocalizations, gets.
  set (sc0 := MkScan _ _ [] 0).
  assert (fresh_keys sc0) as Hf0.
  { split; [constructor|]. intros k Hk. by apply elem_of_nil in Hk. }
  set (m := new_Map (map (fun e => (toLowerCase _, key e)) _)).
  destruct (resolve_all_fresh now uuid m (candidates_of code) sc0 w Hf0)
    as (sc1 & w1 & -> & Hf1).
  destruct (ensure_keys_fresh now uuid (map (group 1) (exec_all keyRegex code))
              sc1 w1 Hf1) as (sc2 & w2 & -> & [Hnd _]).
  destruct (translate_batch_ok now stamp (newKeys sc2) fetched w2) as (o & Ho).
  destruct (translate_batch now stamp (newKeys sc2) fetched w2) as [r w3].
  simpl in Ho. subst r. by exists o, (newKeys sc2).
Qed.

End EditorClaims.

(* ===================================================================== *)
(** ** The store: uniqueness and read-back *)
(* ===================================================================== *)

Module SchemaFacts.
#[local] Arguments String.append !_ _ / : simpl nomatch.
Import Store Schema StoreFacts.
Import Editor (blank_entry).

Lemma keys_distinct_NoDup (t : Table) : keys_distinct t = true <-> NoDup (map key t).
Proof.
  induction t as [|r t IH]; simpl.
  - split; [constructor|done].
  - rewrite andb_true_iff, negb_true_iff, IH, NoDup_cons. split.
    + intros [Hk Hnd]. split; [|done]. intros Hin.
      apply has_key_elem_of in Hin. congruence.
    + intros [Hk Hnd]. split; [|done]. destruct (has_key (key r) t) eqn:E; [|done].
      by apply has_key_elem_of in E.
Qed.

Lemma has_id_false i (t : Table) : has_id i t = false <-> i ∉ map id t.
Proof.
  split.
  - intros H Hin. apply has_id_elem_of in Hin. congruence.
  - intros H. destruct (has_id i t) eqn:E; [|done]. by apply has_id_elem_of in E.
Qed.

Lemma has_key_false_iff k (t : Table) : has_key k t = false <-> k ∉ map key t.
Proof.
  split.
  - intros H Hin. apply has_key_elem_of in Hin. congruence.
  - intros H. destruct (has_key k t) eqn:E; [|done]. by apply has_key_elem_of in E.
Qed.

(** *** What the operations do to the table *)

Lemma createLocalization_db now e w :
  db (createLocalization now e w).2 = insert_or_ignore now e (db w).
Proof. rewrite createLocalization_eq. cbn [snd]. by rewrite save_db. Qed.

Lemma deleteLocalization_db i w :
  db (deleteLocalization i w).2 = delete_where_id i (db w).
Proof. rewrite deleteLocalization_eq. cbn [snd]. by rewrite save_db. Qed.

Lemma update_where_id now i f v (t : Table) :
  update_where (fun r => String.eqb (id r) i) [(f, v)] now t = map (edited_row now i f v) t.
Proof. reflexivity. Qed.

Lemma updateLocalization_db now i f v w :
  db (updateLocalization now i f v w).2 = db w \/
  (updateLocalization now i f v w).1 = Ok tt /\
  db (updateLocalization now i f v w).2 = map (edited_row now i f v) (db w) /\
  (f = "key" -> keys_distinct (db w) = true ->
   keys_distinct (map (edited_row now i f v) (db w)) = true).
Proof.
  rewrite updateLocalization_eq. destruct (negb (includes validFields f)); [by left|].
  cbv zeta. rewrite update_where_id.
  destruct (String.eqb f "key" && keys_distinct (db w) && negb _) eqn:E; [by left|].
  right. cbn [fst snd]. rewrite save_db. cbn [db set_db]. split; [done|]. split; [done|].
  intros -> Hd. rewrite Hd in E. simpl in E. by apply negb_false_iff in E.
Qed.

Lemma set_column_id c v r : id (set_column c v r) = id r.
Proof. destruct r. unfold set_column. by repeat (destruct (String.eqb c _)). Qed.

Lemma set_column_key c v r : c <> "key" -> key (set_column c v r) = key r.
Proof.
  intros Hc. destruct r. unfold set_column.
  destruct (String.eqb_spec c "key"); [done|]. by repeat (destruct (String.eqb c _)).
Qed.

Lemma touch_id now r : id (touch now r) = id r.
Proof. by destruct r. Qed.

Lemma touch_key now r : key (touch now r) = key r.
Proof. by destruct r. Qed.

Lemma edited_row_id now i f v r : id (edited_row now i f v r) = id r.
Proof.
  unfold edited_row. destruct (String.eqb (id r) i); [|done].
  by rewrite touch_id, set_column_id.
Qed.

Lemma edited_row_key now i f v r : f <> "key" -> key (edited_row now i f v r) = key r.
Proof.
  intros Hf. unfold edited_row. destruct (String.eqb (id r) i); [|done].
  by rewrite touch_key, set_column_key.
Qed.

Lemma updated_row_ids now k tr (t : Table) :
  map id (map (updated_row now k tr) t) = map id t /\
  map key (map (updated_row now k tr) t) = map key t.
Proof.
  rewrite !map_map. split; apply map_ext; intros r;
    pose proof (updated_row_fixed now k tr r) as E; unfold fixed_part in E; by simplify_eq.
Qed.



Lemma delete_where_id_elem i (t : Table) r :
  r ∈ delete_where_id i t <-> r ∈ t /\ id r <> i.
Proof.
  unfold delete_where_id. rewrite list_elem_of_filter.
  destruct (String.eqb_spec (id r) i); simpl; intuition.
Qed.

(** The constraints of the table hold after every operation of the store
    when they hold before it. *)
Theorem store_ops_keep_unique now (w : World) :
  well_keyed (db w) ->
  (forall e, well_keyed (db (createLocalization now e w).2)) /\
  (forall i f v, well_keyed (db (updateLocalization now i f v w).2)) /\
  (forall k tr, well_keyed (db (updateLocalizationByKey now k tr w).2)) /\
  (forall i, well_keyed (db (deleteLocalization i w).2)).
Proof.
  intros [Hid Hkey]. split; [|split; [|split]].
  - intros e. rewrite createLocalization_db. unfold insert_or_ignore.
    destruct (has_id (id e) (db w)) eqn:Ei; [done|].
    destruct (has_key (key e) (db w)) eqn:Ek; [done|]. simpl.
    apply has_id_false in Ei. apply has_key_false_iff in Ek.
    split; rewrite map_app; simpl; apply NoDup_app; (split; [done|]);
      (split; [|apply NoDup_singleton]); intros x Hx Hy;
      apply list_elem_of_singleton in Hy; by subst x.
  - intros i f v. destruct (updateLocalization_db now i f v w) as [-> |(_ & -> & Hk)]; [done|].
    split.
    + rewrite map_map. erewrite map_ext; [exact Hid|]. intros r. apply edited_row_id.
    + destruct (String.eqb_spec f "key") as [->|Hf].
      * apply keys_distinct_NoDup, Hk; [done|]. by apply keys_distinct_NoDup.
      * rewrite map_map. erewrite map_ext; [exact Hkey|]. intros r. by apply edited_row_key.
  - intros k tr. rewrite updateLocalizationByKey_db. fold (updated_row now k tr).
    unfold well_keyed. destruct (updated_row_ids now k tr (db w)) as [-> ->]. done.
  - intros i. rewrite deleteLocalization_db. unfold delete_where_id, Table. split.
    + clear Hkey. induction (db w) as [|r t IH]; [done|]. simpl in Hid.
      apply NoDup_cons in Hid as [Hr Hid]. rewrite filter_cons.
      destruct (decide _); [|by apply IH]. simpl. apply NoDup_cons. split; [|by apply IH].
      intros Hin. apply Hr. apply list_elem_of_fmap in Hin as (b & -> & Hb).
      apply list_elem_of_fmap. exists b. split; [done|]. by apply list_elem_of_filter in Hb as [_ ?].
    + clear Hid. induction (db w) as [|r t IH]; [done|]. simpl in Hkey.
      apply NoDup_cons in Hkey as [Hr Hkey]. rewrite filter_cons.
      destruct (decide _); [|by apply IH]. simpl. apply NoDup_cons. split; [|by apply IH].
      intros Hin. apply Hr. apply list_elem_of_fmap in Hin as (b & -> & Hb).
      apply list_elem_of_fmap. exists b. split; [done|]. by apply list_elem_of_filter in Hb as [_ ?].
Qed.

Lemma store_ops_keep_unique_witness :
  well_keyed (db (createLocalization "2025-11-02 09:00:00" sample_row sample_world).2).
Proof.
  apply (proj1 (store_ops_keep_unique "2025-11-02 09:00:00" sample_world
                  (conj (NoDup_singleton _) (NoDup_singleton _)))).
Defined.


(** *** Reading the table back *)

Lemma getTranslations_eq locale w :
  locale ∈ validLocales -> getTranslations locale w = (Ok (table_map locale (db w)), w).
Proof.
  intros Hin. unfold getTranslations. apply includes_elem_of in Hin. by rewrite Hin.
Qed.

Lemma fold_insert_other c : forall (t : Table) (acc : gmap string string) k,
  k ∉ map key t ->
  fold_left (fun (acc : gmap string string) r => assign (key r) (get_column c r) acc) t acc
    !! k
  = acc !! k.
Proof.
  induction t as [|r t IH]; intros acc k Hk; [done|]. simpl in *.
  apply not_elem_of_cons in Hk as [Hne Hk]. rewrite IH by done. unfold assign.
  destruct (String.eqb (key r) "__proto__"); [done|]. by rewrite lookup_insert_ne.
Qed.

Lemma fold_insert_lookup c : forall (t : Table) (acc : gmap string string) r,
  NoDup (map key t) -> r ∈ t -> key r <> "__proto__" ->
  fold_left (fun (acc : gmap string string) r => assign (key r) (get_column c r) acc) t acc
    !! key r = Some (get_column c r).
Proof.
  induction t as [|r0 t IH]; intros acc r Hnd Hin Hp; [by apply elem_of_nil in Hin|].
  simpl in *. apply NoDup_cons in Hnd as [Hr0 Hnd].
  apply elem_of_cons in Hin as [->|Hin]; [|by apply IH].
  rewrite fold_insert_other by done. unfold assign.
  apply String.eqb_neq in Hp. by rewrite Hp, lookup_insert_eq.
Qed.

Lemma fold_insert_proto c : forall (t : Table) (acc : gmap string string),
  acc !! "__proto__" = None ->
  fold_left (fun (acc : gmap string string) r => assign (key r) (get_column c r) acc) t acc
    !! "__proto__" = None.
Proof.
  induction t as [|r t IH]; intros acc Hacc; [done|]. simpl. apply IH. unfold assign.
  destruct (String.eqb_spec (key r) "__proto__") as [E|Hne]; [done|].
  by rewrite lookup_insert_ne.
Qed.

Lemma table_map_lookup c (t : Table) r :
  NoDup (map key t) -> r ∈ t -> key r <> "__proto__" ->
  table_map c t !! key r = Some (get_column c r).
Proof. apply fold_insert_lookup. Qed.

Lemma table_map_none c (t : Table) k : k ∉ map key t -> table_map c t !! k = None.
Proof. intros H. unfold table_map. by rewrite fold_insert_other. Qed.

Lemma table_map_proto c (t : Table) : table_map c t !! "__proto__" = None.
Proof. by apply fold_insert_proto. Qed.

(** [getTranslations] of a supported locale returns the object that has
    as own properties, for every row whose key is not [__proto__], the
    row's value in the column of the locale under the row's key, and
    nothing else: nothing under [__proto__], which an assignment never
    makes an own property, and nothing under a key no row has.  It leaves
    the world as it is.  (Keys are taken to be distinct, as the table's
    constraint has it.) *)
Theorem translations_map_reads_rows locale w :
  locale ∈ validLocales -> NoDup (map key (db w)) ->
  exists m, getTranslations locale w = (Ok m, w) /\
    (forall r, r ∈ db w -> key r <> "__proto__" ->
       m !! key r = Some (get_column locale r)) /\
    m !! "__proto__" = None /\
    (forall k, has_key k (db w) = false -> m !! k = None).
Proof.
  intros Hl Hnd. exists (table_map locale (db w)).
  split; [by apply getTranslations_eq|]. split; [|split].
  - intros r Hr Hp. by apply table_map_lookup.
  - apply table_map_proto.
  - intros k Hk. apply table_map_none. by apply has_key_false_iff.
Qed.

Ltac in_locales :=
  unfold validLocales; repeat first [apply list_elem_of_here | apply list_elem_of_further].

Lemma translations_map_reads_rows_witness :
  exists m, getTranslations "fr" sample_world = (Ok m, sample_world) /\
    (forall r, r ∈ db sample_world -> key r <> "__proto__" ->
       m !! key r = Some (get_column "fr" r)) /\
    m !! "__proto__" = None /\
    (forall k, has_key k (db sample_world) = false -> m !! k = None).
Proof.
  apply (translations_map_reads_rows "fr" sample_world); [in_locales|apply NoDup_singleton].
Defined.

(** A created entry is read back: after [createLocalization] of an entry
    whose id and key the table does not have, [getTranslations] has the
    entry's value under the entry's key, and what it had before under the
    keys of the other rows; the key [__proto__] apart, which never becomes
    a property of the object. *)
Theorem created_entry_is_read_back now e locale w :
  locale ∈ validLocales -> NoDup (map key (db w)) ->
  has_id (id e) (db w) = false -> has_key (key e) (db w) = false ->
  let w' := (createLocalization now e w).2 in
  exists m, getTranslations locale w' = (Ok m, w') /\
    (key e <> "__proto__" -> m !! key e = Some (get_column locale e)) /\
    (forall r, r ∈ db w -> key r <> "__proto__" ->
       m !! key r = Some (get_column locale r)) /\
    m !! "__proto__" = None.
Proof.
  intros Hl Hnd Hi Hk w'.
  set (row := Entry (id e) (key e) (en e) (es e) (fr e) (de e) (ja e) (zh e) now now).
  assert (db w' = db w ++ [row]) as Hdb.
  { subst w'. rewrite createLocalization_db. unfold insert_or_ignore. by rewrite Hi, Hk. }
  assert (NoDup (map key (db w'))) as Hnd'.
  { rewrite Hdb, map_app. apply NoDup_app. split; [done|]. split; [|apply NoDup_singleton].
    intros x Hx Hy. apply list_elem_of_singleton in Hy. subst x.
    by apply has_key_false_iff in Hk. }
  exists (table_map locale (db w')). split; [by apply getTranslations_eq|].
  split; [|split].
  - intros Hp. replace (key e) with (key row) by done.
    replace (get_column locale e) with (get_column locale row).
    + apply table_map_lookup; [done| |done]. rewrite Hdb. apply elem_of_app. right.
      apply list_elem_of_here.
    + unfold get_column. by repeat (destruct (String.eqb locale _)).
  - intros r Hr Hp. apply table_map_lookup; [done| |done]. rewrite Hdb.
    apply elem_of_app. by left.
  - apply table_map_proto.
Qed.

Lemma created_entry_is_read_back_witness :
  let e := blank_entry "uuid-0" "auto.sign.up.free" "Sign up free" in
  let w' := (createLocalization "2025-11-02 09:00:00" e sample_world).2 in
  exists m, getTranslations "en" w' = (Ok m, w') /\
    (key e <> "__proto__" -> m !! key e = Some (get_column "en" e)) /\
    (forall r, r ∈ db sample_world -> key r <> "__proto__" ->
       m !! key r = Some (get_column "en" r)) /\
    m !! "__proto__" = None.
Proof.
  apply (created_entry_is_read_back "2025-11-02 09:00:00"
           (Editor.blank_entry "uuid-0" "auto.sign.up.free" "Sign up free") "en" sample_world);
    [in_locales|apply NoDup_singleton|reflexivity|reflexivity].
Defined.


Lemma valid_locale_field locale :
  locale ∈ validLocales -> includes validFields locale = true /\ locale <> "key".
Proof.
  intros H. unfold validLocales in H.
  repeat (apply elem_of_cons in H; destruct H as [->|H]); [by split..|].
  by apply elem_of_nil in H.
Qed.

Lemma get_set_column c v r :
  c ∈ validLocales -> get_column c (set_column c v r) = v.
Proof.
  intros H. destruct r. unfold validLocales in H.
  repeat (apply elem_of_cons in H; destruct H as [->|H]); [reflexivity..|].
  by apply elem_of_nil in H.
Qed.

Lemma updateLocalization_locale now i locale v w :
  locale ∈ validLocales ->
  updateLocalization now i locale v w
  = (Ok tt, saveDatabaseToLocalStorage
              (set_db (map (edited_row now i locale v) (db w)) w)).
Proof.
  intros [Hf Hk]%valid_locale_field. rewrite updateLocalization_eq, Hf.
  apply String.eqb_neq in Hk. by rewrite Hk.
Qed.

(** A saved cell is read back: [updateLocalization] of a locale column
    goes through, and afterwards [getTranslations] of that locale has the
    new value under the key of the row with the id, and what it had before
    under the keys of the rows with another id; the key [__proto__] apart,
    which never becomes a property of the object. *)
Theorem edit_is_read_back now i locale v w r :
  locale ∈ validLocales -> NoDup (map key (db w)) -> r ∈ db w -> id r = i ->
  let w' := (updateLocalization now i locale v w).2 in
  (updateLocalization now i locale v w).1 = Ok tt /\
  exists m, getTranslations locale w' = (Ok m, w') /\
    (key r <> "__proto__" -> m !! key r = Some v) /\
    (forall r', r' ∈ db w -> id r' <> i -> key r' <> "__proto__" ->
       m !! key r' = Some (get_column locale r')) /\
    m !! "__proto__" = None.
Proof.
  intros Hl Hnd Hr Hi w'. subst w'. rewrite updateLocalization_locale by done.
  cbn [fst snd]. split; [done|].
  destruct (valid_locale_field locale Hl) as [_ Hk].
  set (w' := saveDatabaseToLocalStorage _).
  assert (db w' = map (edited_row now i locale v) (db w)) as Hdb.
  { subst w'. by rewrite save_db. }
  assert (NoDup (map key (db w'))) as Hnd'.
  { rewrite Hdb, map_map. erewrite map_ext; [exact Hnd|]. intros r0.
    by apply edited_row_key. }
  assert (forall r0, r0 ∈ db w -> edited_row now i locale v r0 ∈ db w') as Hin.
  { intros r0 Hr0. rewrite Hdb. apply list_elem_of_fmap. by exists r0. }
  exists (table_map locale (db w')). split; [by apply getTranslations_eq|].
  split; [|split].
  - intros Hp. rewrite <- (edited_row_key now i locale v r) by done.
    rewrite table_map_lookup; [|done|by auto|by rewrite edited_row_key].
    f_equal. unfold edited_row.
    rewrite Hi, String.eqb_refl, touch_column. by apply get_set_column.
  - intros r' Hr' Hne Hp. rewrite <- (edited_row_key now i locale v r') by done.
    rewrite table_map_lookup; [|done|by auto|by rewrite edited_row_key].
    f_equal. unfold edited_row.
    apply String.eqb_neq in Hne. by rewrite Hne.
  - apply table_map_proto.
Qed.

Lemma edit_is_read_back_witness :
  let w' := (updateLocalization "2025-11-02 09:00:00" "btn-2" "es" "Mandar"
               sample_world).2 in
  (updateLocalization "2025-11-02 09:00:00" "btn-2" "es" "Mandar" sample_world).1 = Ok tt /\
  exists m, getTranslations "es" w' = (Ok m, w') /\
    (key sample_row <> "__proto__" -> m !! key sample_row = Some "Mandar") /\
    (forall r', r' ∈ db sample_world -> id r' <> "btn-2" -> key r' <> "__proto__" ->
       m !! key r' = Some (get_column "es" r')) /\
    m !! "__proto__" = None.
Proof.
  apply (edit_is_read_back "2025-11-02 09:00:00" "btn-2" "es" "Mandar" sample_world
           sample_row); [in_locales|apply NoDup_singleton|apply list_elem_of_here|reflexivity].
Defined.

Lemma locale_column_valid c : c ∈ locale_columns -> c ∈ validLocales.
Proof. intros H. by apply list_elem_of_further. Qed.

(** A merged translation is read back: after [updateLocalizationByKey]
    with a value for a locale, [getTranslations] of that locale has the
    value under the key, and what it had before under every other key;
    for a locale the update gives no value for, [getTranslations] returns
    what it returned before.  The key [__proto__] never becomes a property
    of the object and is left out. *)
Theorem merged_translation_is_read_back now k tr w :
  NoDup (map key (db w)) -> has_key k (db w) = true ->
  let w' := (updateLocalizationByKey now k tr w).2 in
  (forall c v, c ∈ locale_columns -> field_of tr c = Some v ->
     exists m, getTranslations c w' = (Ok m, w') /\
       (k <> "__proto__" -> m !! k = Some v) /\
       (forall r', r' ∈ db w -> key r' <> k -> key r' <> "__proto__" ->
          m !! key r' = Some (get_column c r')) /\
       m !! "__proto__" = None) /\
  (forall c, c ∈ validLocales -> field_of tr c = None ->
     (getTranslations c w').1 = (getTranslations c w).1).
Proof.
  intros Hnd Hk w'.
  assert (db w' = map (updated_row now k tr) (db w)) as Hdb.
  { subst w'. rewrite updateLocalizationByKey_db. done. }
  assert (NoDup (map key (db w'))) as Hnd'.
  { rewrite Hdb. by destruct (updated_row_ids now k tr (db w)) as [_ ->]. }
  assert (forall r0, key (updated_row now k tr r0) = key r0) as Hkey.
  { intros r0. pose proof (updated_row_fixed now k tr r0) as E. unfold fixed_part in E.
    by simplify_eq. }
  assert (forall r0, r0 ∈ db w -> updated_row now k tr r0 ∈ db w') as Hin.
  { intros r0 Hr0. rewrite Hdb. apply list_elem_of_fmap. by exists r0. }
  split.
  - intros c v Hc Hv. exists (table_map c (db w')).
    split; [by apply getTranslations_eq, locale_column_valid|].
    apply has_key_elem_of, list_elem_of_fmap in Hk as (r & -> & Hr).
    split; [|split].
    + intros Hp. rewrite <- (Hkey r).
      rewrite table_map_lookup; [|done|by auto|by rewrite Hkey]. f_equal.
      by apply updated_row_present.
    + intros r' Hr' Hne Hp. rewrite <- (Hkey r').
      rewrite table_map_lookup; [|done|by auto|by rewrite Hkey]. f_equal.
      unfold updated_row. apply String.eqb_neq in Hne. by rewrite Hne.
    + apply table_map_proto.
  - intros c Hc Hn. rewrite !getTranslations_eq by done. cbn [fst]. f_equal.
    rewrite Hdb. unfold table_map.
    assert (forall (t : Table) (acc : gmap string string),
      fold_left (fun (acc : gmap string string) r => assign (key r) (get_column c r) acc)
        (map (updated_row now k tr) t) acc
      = fold_left (fun (acc : gmap string string) r => assign (key r) (get_column c r) acc)
          t acc) as Hfold; [|apply Hfold].
    induction t as [|r0 t IH]; intros acc; [done|]. simpl. rewrite IH, Hkey. do 2 f_equal.
    unfold validLocales in Hc. apply elem_of_cons in Hc as [->|Hc].
    + exact (f_equal (fun p => p.1.2) (updated_row_fixed now k tr r0)).
    + by apply updated_row_absent.
Qed.

Lemma merged_translation_is_read_back_witness :
  let w' := (updateLocalizationByKey "2025-11-02 09:00:00" "button.submit"
               (Tr (Some "Mandar") None None None None) sample_world).2 in
  exists m, getTranslations "es" w' = (Ok m, w') /\
    ("button.submit" <> "__proto__" -> m !! "button.submit" = Some "Mandar") /\
    (forall r', r' ∈ db sample_world -> key r' <> "button.submit" ->
       key r' <> "__proto__" -> m !! key r' = Some (get_column "es" r')) /\
    m !! "__proto__" = None.
Proof.
  apply (proj1 (merged_translation_is_read_back "2025-11-02 09:00:00" "button.submit"
                  (Tr (Some "Mandar") None None None None) sample_world
                  (NoDup_singleton _) eq_refl) "es" "Mandar"); [in_list|reflexivity].
Defined.

Lemma delete_where_id_absent i (t : Table) : i ∉ map id t -> delete_where_id i t = t.
Proof.
  unfold delete_where_id, Table. induction t as [|r t IH]; intros Hi; [done|].
  simpl in Hi. apply not_elem_of_cons in Hi as [Hne Hi]. rewrite filter_cons.
  destruct (decide _) as [_|Hn]; [by rewrite IH|]. exfalso. apply Hn.
  apply Is_true_true, negb_true_iff, String.eqb_neq. congruence.
Qed.

Lemma NoDup_key_inj (t : Table) r r' :
  NoDup (map key t) -> r ∈ t -> r' ∈ t -> key r' = key r -> r' = r.
Proof.
  induction t as [|r0 t IH]; intros Hnd Hr Hr' Hk; [by apply elem_of_nil in Hr|].
  simpl in Hnd. apply NoDup_cons in Hnd as [Hr0 Hnd].
  apply elem_of_cons in Hr as [->|Hr]; apply elem_of_cons in Hr' as [->|Hr']; auto.
  - exfalso. apply Hr0. rewrite <- Hk. apply list_elem_of_fmap. by exists r'.
  - exfalso. apply Hr0. rewrite Hk. apply list_elem_of_fmap. by exists r.
Qed.

(** [deleteLocalization] removes the rows with the id and no other row;
    with an id the table does not have it leaves the table as it is; and
    the key of a removed row is gone from what [getTranslations] returns. *)
Theorem delete_removes_only_that_id i w :
  let w' := (deleteLocalization i w).2 in
  has_id i (db w') = false /\
  (forall r, r ∈ db w' <-> r ∈ db w /\ id r <> i) /\
  (has_id i (db w) = false -> db w' = db w) /\
  (forall locale r, locale ∈ validLocales -> NoDup (map key (db w)) ->
     r ∈ db w -> id r = i ->
     exists m, getTranslations locale w' = (Ok m, w') /\ m !! key r = None).
Proof.
  intros w'.
  assert (db w' = delete_where_id i (db w)) as Hdb by apply deleteLocalization_db.
  assert (forall r, r ∈ db w' <-> r ∈ db w /\ id r <> i) as Hel.
  { intros r. rewrite Hdb. apply delete_where_id_elem. }
  split; [|split; [done|split]].
  - apply has_id_false. intros Hin. apply list_elem_of_fmap in Hin as (r & -> & Hr).
    apply Hel in Hr as [_ Hr]. done.
  - intros Hi. rewrite Hdb. apply delete_where_id_absent. by apply has_id_false.
  - intros locale r Hl Hnd Hr Hi. exists (table_map locale (db w')).
    split; [by apply getTranslations_eq|]. apply table_map_none.
    intros Hin. apply list_elem_of_fmap in Hin as (r' & Hk & Hr').
    apply Hel in Hr' as [Hr' Hne]. apply Hne. rewrite <- Hi. f_equal.
    by apply (NoDup_key_inj (db w)).
Qed.

End SchemaFacts.

(* ===================================================================== *)
(** ** Scanning a source twice *)
(* ===================================================================== *)

Module RescanFacts.
#[local] Arguments String.append !_ _ / : simpl nomatch.
Import Re Js Store Editor Rescan ReFacts StoreFacts EditorFacts EditorClaims.

(** *** Trimming *)

Lemma trimEnd_cases c s :
  trimEnd (String c s) = "" /\ is_ws c = true \/
  exists r, trimEnd (String c s) = String c r.
Proof.
  simpl. destruct (trimEnd s) eqn:E.
  - destruct (is_ws c) eqn:Hc; [by left|right; by eexists].
  - right. by eexists.
Qed.

Lemma trimEnd_idem s : trimEnd (trimEnd s) = trimEnd s.
Proof.
  induction s as [|c s IH]; [done|]. simpl. destruct (trimEnd s) as [|d r] eqn:E.
  - destruct (is_ws c) eqn:Hc; [done|]. simpl. by rewrite Hc.
  - simpl in IH. simpl. destruct (trimEnd r) eqn:Er.
    + destruct (is_ws d); [done|]. by rewrite IH.
    + by rewrite IH.
Qed.

Lemma trimStart_head s :
  trimStart s = "" \/ exists c r, trimStart s = String c r /\ is_ws c = false.
Proof.
  induction s as [|c s IH]; [by left|]. simpl. destruct (is_ws c) eqn:Hc; [done|].
  right. by exists c, s.
Qed.

Lemma trim_idem s : trim (trim s) = trim s.
Proof.
  unfold trim. destruct (trimStart_head s) as [->|(c & r & -> & Hc)]; [done|].
  destruct (trimEnd_cases c r) as [[_ Hw]|[r' E]]; [congruence|].
  rewrite E. simpl trimStart. rewrite Hc. rewrite <- E. apply trimEnd_idem.
Qed.

(** *** The candidates of a source *)

Lemma set_add_elem x y l : x ∈ set_add y l <-> x ∈ l \/ x = y.
Proof.
  unfold set_add. destruct (existsb (String.eqb y) l) eqn:E.
  - split; [by left|]. intros [H| ->]; [done|].
    apply existsb_exists in E as (z & Hz & Heq). apply String.eqb_eq in Heq as ->.
    by apply list_elem_of_In.
  - rewrite elem_of_app, list_elem_of_singleton. done.
Qed.

Lemma set_add_NoDup y l : NoDup l -> NoDup (set_add y l).
Proof.
  intros H. unfold set_add. destruct (existsb (String.eqb y) l) eqn:E; [done|].
  apply NoDup_app. split; [done|]. split; [|apply NoDup_singleton].
  intros x Hx Hy. apply list_elem_of_singleton in Hy. subst x.
  assert (existsb (String.eqb y) l = true); [|congruence].
  apply existsb_exists. exists y. split; [by apply list_elem_of_In|apply String.eqb_refl].
Qed.


Lemma candidates_of_spec code :
  NoDup (candidates_of code) /\ Forall candidate_ok (candidates_of code).
Proof.
  unfold candidates_of.
  assert (forall ms acc, NoDup acc -> Forall candidate_ok acc ->
    let res := fold_left
      (fun cands m =>
         let txt := trim (unquote (mi_text m)) in
         let line := line_at (mi_offset m) code in
         let lower := toLowerCase txt in
         let isImportLine := test re_import line || test re_from line in
         let isCodeLine :=
           test re_attr line || test re_http line ||
           test re_export_function line || test re_return_object line in
         if Nat.leb 2 (String.length txt) && test (Class is_alpha) txt
            && negb isCodeLine && negb isImportLine && negb (banned lower)
         then set_add txt cands else cands) ms acc in
    NoDup res /\ Forall candidate_ok res) as H.
  { induction ms as [|m ms IH]; intros acc Hnd Hall; [done|].
    cbn [fold_left]. apply IH.
    - destruct (_ && _); [by apply set_add_NoDup|done].
    - destruct (Nat.leb 2 _ && _ && _ && _ && _) eqn:E; [|done].
      apply Forall_forall. intros x Hx. apply set_add_elem in Hx as [Hx| ->].
      + by eapply Forall_forall in Hall.
      + repeat (apply andb_true_iff in E as [E ?]).
        repeat split.
        * apply trim_idem.
        * by apply Nat.leb_le.
        * done.
        * by apply negb_true_iff. }
  apply H; constructor.
Qed.


(** *** The maps built from the store *)

Lemma new_Map_snoc l k v : new_Map (l ++ [(k, v)]) = <[k := v]> (new_Map l).
Proof. unfold new_Map. by rewrite fold_left_app. Qed.

Lemma new_Map_lookup : forall l x v, new_Map l !! x = Some v -> (x, v) ∈ l.
Proof.
  induction l as [|[k v'] l IH] using rev_ind; intros x v H.
  - unfold new_Map in H. simpl in H. by rewrite lookup_empty in H.
  - rewrite new_Map_snoc in H. rewrite elem_of_app.
    destruct (decide (k = x)) as [->|Hne].
    + rewrite lookup_insert_eq in H. injection H as ->. right. apply list_elem_of_here.
    + rewrite lookup_insert_ne in H by done. left. by apply IH.
Qed.

Lemma le_empty s : String.le s "" -> s = "".
Proof. by destruct s. Qed.

#[local] Instance key_le_trans : Transitive key_le.
Proof. intros a b c. unfold key_le. apply transitivity. Qed.

#[local] Instance key_le_total : Total key_le.
Proof. intros a b. unfold key_le. apply total, _. Qed.

(** In a table sorted by key, the key a Map built from it holds for [x]
    is not empty as soon as one row for [x] has a key that is not empty:
    the empty key sorts first and a later row overwrites it. *)
Lemma new_Map_sorted (f : LocalizationEntry -> string) : forall T r,
  StronglySorted key_le T -> r ∈ T -> key r <> "" ->
  truthy_opt (Str <$> new_Map (map (fun e => (f e, key e)) T) !! f r) = true.
Proof.
  induction T as [|r1 T IH] using rev_ind; intros r Hs Hin Hk.
  - by apply elem_of_nil in Hin.
  - rewrite map_app. simpl. rewrite new_Map_snoc.
    destruct (decide (f r1 = f r)) as [E|Hne].
    + rewrite E, lookup_insert_eq. simpl. unfold truthy.
      destruct (String.eqb_spec (key r1) "") as [E1|]; [|done]. exfalso.
      apply elem_of_app in Hin as [Hin|Hin%list_elem_of_singleton]; [|by subst].
      assert (key_le r r1) as Hle.
      { eapply (StronglySorted_app_1_elem_of key_le T [r1]); [done..|apply list_elem_of_here]. }
      unfold key_le in Hle. rewrite E1 in Hle. by apply le_empty in Hle.
    + rewrite lookup_insert_ne by done. apply IH; [|  |done].
      * by eapply StronglySorted_app_1_l.
      * apply elem_of_app in Hin as [Hin|Hin%list_elem_of_singleton]; [done|by subst].
Qed.

Lemma truthy_opt_mappedKey (m1 : gmap string value) (m2 : gmap string string) text :
  truthy_opt (mappedKey m1 m2 text)
  = truthy_opt (aliasToKey (toLowerCase text)) || truthy_opt (m1 !! text)
    || truthy_opt (Str <$> m2 !! toLowerCase text).
Proof.
  unfold mappedKey.
  destruct (aliasToKey (toLowerCase text)) as [[a|a]|];
    destruct (m1 !! text) as [[v1|v1]|]; destruct (m2 !! toLowerCase text) as [v2|];
    simpl; repeat case_bool_decide; simpl;
    repeat match goal with
           | H : ¬ is_Some (Some _) |- _ => exfalso; apply H; eauto
           | H : is_Some None |- _ => exfalso; by destruct H
           | |- context [truthy ?x] => destruct (truthy x) eqn:?; simpl
           end; try done; try congruence.
Qed.


(** *** One run *)

Lemma resolvable_mono (t t' : Table) text :
  (forall r, r ∈ t -> r ∈ t') -> resolvable t text -> resolvable t' text.
Proof.
  intros Hsub [Ha|(r & Hr & He & Hk)]; [by left|]. right. exists r. auto.
Qed.

Lemma generated_not_empty text n : suffixed (generateKeyFromText text) n <> "".
Proof.
  unfold suffixed, generateKeyFromText. destruct n; simpl; discriminate.
Qed.

Lemma finalKey_for_not_empty ex text :
  finalKey_for ex (generateKeyFromText text) <> "".
Proof.
  destruct (finalKey_for_spec ex (generateKeyFromText text)) as (n & -> & _).
  apply generated_not_empty.
Qed.

Lemma has_id_app i t1 t2 : has_id i (t1 ++ t2) = has_id i t1 || has_id i t2.
Proof. unfold has_id. apply existsb_app. Qed.

Lemma has_key_false k (t : Table) r : has_key k t = false -> r ∈ t -> key r <> k.
Proof.
  intros H Hr E. assert (has_key k t = true); [|congruence].
  apply has_key_elem_of. apply list_elem_of_fmap. by exists r.
Qed.

Lemma has_key_true k (t : Table) r : r ∈ t -> key r = k -> has_key k t = true.
Proof. intros Hr E. apply has_key_elem_of. apply list_elem_of_fmap. by exists r. Qed.

(** Creating a row for a key [existing] does not have, with the next id. *)
Lemma create_in_step now uuid sc w k en_ m :
  Inj (=) (=) uuid -> in_step uuid sc w -> has_key k (existing sc) = false ->
  let w' := (createLocalization now (blank_entry (uuid (drawn sc)) k en_) w).2 in
  db w' = db w ++ [Entry (uuid (drawn sc)) k en_ "" "" "" "" "" now now] /\
  in_step uuid (MkScan (existing sc ++ [blank_entry "" k en_]) m
                  (newKeys sc ++ [(k, en_)]) (S (drawn sc))) w'.
Proof.
  intros Hinj (K1 & K2 & K3 & K4) Hk w'.
  assert (db w' = db w ++ [Entry (uuid (drawn sc)) k en_ "" "" "" "" "" now now]) as Hdb.
  { subst w'. rewrite createLocalization_eq. cbn [snd]. rewrite save_db. cbn [db set_db].
    unfold insert_or_ignore. cbn [id key blank_entry].
    rewrite (K3 (drawn sc)) by lia.
    destruct (has_key k (db w)) eqn:E; [|done]. exfalso.
    apply has_key_elem_of, list_elem_of_fmap in E as (r' & -> & Hr').
    apply K2 in Hr'. congruence. }
  unfold in_step. rewrite Hdb.
  assert (forall k' e', stored (db w) k' e' -> stored (db w ++
            [Entry (uuid (drawn sc)) k en_ "" "" "" "" "" now now]) k' e') as Hmono.
  { intros k' e' (r' & Hr' & Hk' & He'). exists r'. split; [apply elem_of_app; by left|done]. }
  assert (stored (db w ++ [Entry (uuid (drawn sc)) k en_ "" "" "" "" "" now now]) k en_)
    as Hnew.
  { eexists. split; [apply elem_of_app; right; apply list_elem_of_here|done]. }
  split; [done|]. split; [|split; [|split]]; cbn [existing drawn newKeys].
  - intros r [Hr|Hr%list_elem_of_singleton]%elem_of_app; [by apply Hmono, K1|by subst r].
  - intros r' [Hr'|Hr'%list_elem_of_singleton]%elem_of_app; rewrite has_key_app.
    + by rewrite (K2 r' Hr').
    + subst r'. unfold has_key at 2. simpl. by rewrite String.eqb_refl, orb_true_r.
  - intros n Hn. rewrite has_id_app, (K3 n) by lia. unfold has_id. simpl.
    rewrite orb_false_r. apply String.eqb_neq. intros E. apply Hinj in E. lia.
  - intros k' e' [Hin|Hin%list_elem_of_singleton]%elem_of_app; [by apply Hmono, K4|].
    by injection Hin as -> ->.
Qed.

Lemma resolve_text_step now uuid lm sc text w :
  Inj (=) (=) uuid -> in_step uuid sc w -> maps_sound lm sc -> trim text = text ->
  exists sc' w',
    resolve_text now uuid lm sc text w = (Ok sc', w') /\
    in_step uuid sc' w' /\ maps_sound lm sc' /\
    resolvable (existing sc') text /\
    (forall r, r ∈ existing sc -> r ∈ existing sc').
Proof.
  intros Hinj HK [J L] Htrim. unfold resolve_text.
  destruct (truthy_opt (mappedKey (enToKey sc) lm text)) eqn:Hmk.
  - assert (resolvable (existing sc) text) as Hres.
    { rewrite truthy_opt_mappedKey in Hmk.
      apply orb_true_iff in Hmk as [Hmk|Hmk]; [apply orb_true_iff in Hmk as [Hmk|Hmk]|].
      - by left.
      - by apply J.
      - destruct (lm !! toLowerCase text) as [v|] eqn:E; [|done].
        destruct (L _ _ E) as (r & Hr & He & Hv). right. exists r.
        split; [done|]. split; [done|]. subst v. simpl in Hmk. unfold truthy in Hmk.
        intros E'. by rewrite E' in Hmk. }
    eexists _, _. split; [reflexivity|]. split; [exact HK|]. split; [|done].
    split; cbn [enToKey existing]; [|exact L].
    intros t Ht. destruct (enToKey sc !! text) eqn:E; [by apply J|].
    destruct (decide (t = text)) as [->|Hne]; [done|].
    rewrite lookup_insert_ne in Ht by done. by apply J.
  - unfold mbind, M_bind.
    pose proof (finalKey_for_spec (existing sc) (generateKeyFromText text))
      as (n & _ & Hfree & _).
    set (k := finalKey_for (existing sc) (generateKeyFromText text)) in *.
    destruct (create_in_step now uuid sc w k text (<[text := Str k]> (enToKey sc))
                Hinj HK Hfree) as [Hdb HK'].
    destruct (createLocalization now (blank_entry (uuid (drawn sc)) k text) w)
      as [[[]|msg] w'] eqn:Hc.
    2:{ rewrite createLocalization_eq in Hc. discriminate. }
    cbn [snd] in *. eexists _, _. split; [reflexivity|]. split; [exact HK'|].
    assert (resolvable (existing sc ++ [blank_entry "" k text]) text) as Hres.
    { right. exists (blank_entry "" k text).
      split; [apply elem_of_app; right; apply list_elem_of_here|].
      split; [simpl; by rewrite Htrim|]. apply finalKey_for_not_empty. }
    split; [|split; [exact Hres|]]; cbn [existing enToKey].
    + split; cbn [existing enToKey].
      * intros t Ht. destruct (decide (t = text)) as [->|Hne]; [done|].
        rewrite lookup_insert_ne in Ht by done.
        eapply resolvable_mono; [|by apply J]. intros r Hr. apply elem_of_app; by left.
      * intros x v Hx. destruct (L x v Hx) as (r & Hr & He & Hv). exists r.
        split; [apply elem_of_app; by left|done].
    + intros r Hr. apply elem_of_app; by left.
Qed.


Lemma resolve_all_step now uuid lm : forall texts sc w,
  Inj (=) (=) uuid -> in_step uuid sc w -> maps_sound lm sc ->
  Forall (fun t => trim t = t) texts ->
  exists sc' w',
    resolve_all now uuid lm sc texts w = (Ok sc', w') /\
    in_step uuid sc' w' /\ maps_sound lm sc' /\
    Forall (resolvable (existing sc')) texts /\
    (forall r, r ∈ existing sc -> r ∈ existing sc').
Proof.
  induction texts as [|text texts IH]; intros sc w Hinj HK HM Htrim.
  - exists sc, w. split; [reflexivity|]. split; [done|]. split; [done|].
    split; [constructor|done].
  - apply Forall_cons in Htrim as [Ht Htrim].
    destruct (resolve_text_step now uuid lm sc text w Hinj HK HM Ht)
      as (sc1 & w1 & E1 & HK1 & HM1 & Hres & Hsub).
    destruct (IH sc1 w1 Hinj HK1 HM1 Htrim) as (sc2 & w2 & E2 & HK2 & HM2 & Hall & Hsub2).
    exists sc2, w2. cbn [resolve_all]. unfold mbind, M_bind. rewrite E1.
    split; [exact E2|]. split; [done|]. split; [done|]. split; [|by auto].
    constructor; [|done]. eapply resolvable_mono; [exact Hsub2|done].
Qed.

Lemma ensure_key_step now uuid sc k w :
  Inj (=) (=) uuid -> in_step uuid sc w ->
  exists sc' w',
    ensure_key now uuid sc k w = (Ok sc', w') /\
    in_step uuid sc' w' /\ has_key k (existing sc') = true /\
    (forall r, r ∈ existing sc -> r ∈ existing sc').
Proof.
  intros Hinj HK. unfold ensure_key. destruct (has_key k (existing sc)) eqn:Hk.
  - exists sc, w. split; [reflexivity|]. split; [done|]. split; [done|]. done.
  - unfold mbind, M_bind.
    destruct (create_in_step now uuid sc w k (enFromKey k) (enToKey sc) Hinj HK Hk)
      as [Hdb HK'].
    destruct (createLocalization now (blank_entry (uuid (drawn sc)) k (enFromKey k)) w)
      as [[[]|msg] w'] eqn:Hc.
    2:{ rewrite createLocalization_eq in Hc. discriminate. }
    cbn [snd] in *. eexists _, _. split; [reflexivity|]. split; [exact HK'|].
    cbn [existing]. split.
    + rewrite has_key_app. unfold has_key at 2. simpl.
      by rewrite String.eqb_refl, orb_true_r.
    + intros r Hr. apply elem_of_app; by left.
Qed.

Lemma has_key_mono k (t t' : Table) :
  (forall r, r ∈ t -> r ∈ t') -> has_key k t = true -> has_key k t' = true.
Proof.
  intros Hsub H. apply has_key_elem_of, list_elem_of_fmap in H as (r & -> & Hr).
  eapply has_key_true; [by apply Hsub|done].
Qed.

Lemma ensure_keys_step now uuid : forall keys sc w,
  Inj (=) (=) uuid -> in_step uuid sc w ->
  exists sc' w',
    ensure_keys now uuid sc keys w = (Ok sc', w') /\
    in_step uuid sc' w' /\
    Forall (fun k => has_key k (existing sc') = true) keys /\
    (forall r, r ∈ existing sc -> r ∈ existing sc').
Proof.
  induction keys as [|k keys IH]; intros sc w Hinj HK.
  - exists sc, w. split; [reflexivity|]. split; [done|]. split; [constructor|done].
  - destruct (ensure_key_step now uuid sc k w Hinj HK) as (sc1 & w1 & E1 & HK1 & Hk & Hsub).
    destruct (IH sc1 w1 Hinj HK1) as (sc2 & w2 & E2 & HK2 & Hall & Hsub2).
    exists sc2, w2. cbn [ensure_keys]. unfold mbind, M_bind. rewrite E1.
    split; [exact E2|]. split; [done|]. split; [|by auto].
    constructor; [|done]. by eapply has_key_mono.
Qed.

(** The translation step rewrites rows in place: ids, keys and English
    texts stay. *)
Lemma translate_batch_rows now stamp items fetched w :
  exists g, (forall r, fixed_part (g r) = fixed_part r) /\
    db (translate_batch now stamp items fetched w).2 = map g (db w).
Proof.
  destruct items as [|i items].
  { exists (fun r => r). split; [done|]. simpl. by rewrite map_id. }
  destruct fetched as [| | |[trans|]];
    try (exists (fun r => r); split; [done|]; simpl; by rewrite map_id).
  exists (merge_row now trans (merged trans (i :: items))).
  split; [apply merge_row_fixed_part|].
  rewrite translate_batch_body by done.
  destruct (merge_translations_db now trans (i :: items) w) as [Hdb _].
  destruct (merge_translations now trans (i :: items) w) as [[[]|msg] w1];
    cbn [snd] in *; [by rewrite bump_version_db|done].
Qed.


(** *** The scan and the store *)

Lemma stored_map (g : LocalizationEntry -> LocalizationEntry) (t : Table) k en_ :
  (forall r, fixed_part (g r) = fixed_part r) ->
  stored t k en_ -> stored (map g t) k en_.
Proof.
  intros Hg (r & Hr & Hk & He). exists (g r).
  split; [apply list_elem_of_fmap; by exists r|].
  pose proof (Hg r) as E. unfold fixed_part in E. by simplify_eq.
Qed.

Lemma resolvable_stored (t t' : Table) text :
  (forall r, r ∈ t -> stored t' (key r) (en r)) ->
  resolvable t text -> resolvable t' text.
Proof.
  intros Hsub [Ha|(r & Hr & He & Hk)]; [by left|]. right.
  destruct (Hsub r Hr) as (r' & Hr' & Hk' & He'). exists r'.
  split; [done|]. by rewrite He', Hk'.
Qed.

Lemma has_key_stored (t t' : Table) k :
  (forall r, r ∈ t -> stored t' (key r) (en r)) ->
  has_key k t = true -> has_key k t' = true.
Proof.
  intros Hsub H. apply has_key_elem_of, list_elem_of_fmap in H as (r & -> & Hr).
  destruct (Hsub r Hr) as (r' & Hr' & Hk' & _). by eapply has_key_true.
Qed.

Lemma sorted_elem (t : Table) r : r ∈ merge_sort key_le t <-> r ∈ t.
Proof. by rewrite merge_sort_Permutation. Qed.

(** What one run leaves behind. *)
Lemma run_outcome now uuid stamp code fetched w :
  Inj (=) (=) uuid -> (forall n, has_id (uuid n) (db w) = false) ->
  exists o items w1,
    ensureLocalizationsForCode now uuid stamp code fetched w = (Ok (o, items), w1) /\
    Forall (resolvable (db w1)) (candidates_of code) /\
    Forall (fun k => has_key k (db w1) = true) (referenced_keys code) /\
    Forall (fun '(k, en_) => stored (db w1) k en_) items.
Proof.
  intros Hinj Hfresh.
  unfold ensureLocalizationsForCode, mbind, M_bind, getAllLocalizations, gets.
  set (T0 := merge_sort key_le (db w)).
  set (lm := new_Map (map (fun e => (toLowerCase _, key e)) T0)).
  set (sc0 := MkScan T0 _ [] 0).
  assert (in_step uuid sc0 w) as HK0.
  { unfold sc0. split; [|split; [|split]]; cbn [existing drawn newKeys].
    - intros r Hr. apply (proj1 (sorted_elem _ _)) in Hr. by exists r.
    - intros r' Hr'. eapply has_key_true; [by apply (proj2 (sorted_elem _ _))|done].
    - intros n _. apply Hfresh.
    - intros k e Hin. by apply elem_of_nil in Hin. }
  assert (maps_sound lm sc0) as HM0.
  { unfold sc0. split; cbn [existing enToKey].
    - intros t Ht. rewrite lookup_fmap in Ht.
      destruct (new_Map _ !! t) as [v|] eqn:E; [|done].
      apply new_Map_lookup, list_elem_of_fmap in E as (e & Heq & He).
      injection Heq as -> ->. right. exists e. split; [done|]. split; [done|].
      simpl in Ht. unfold truthy in Ht. intros E'. by rewrite E' in Ht.
    - intros x v E. apply new_Map_lookup, list_elem_of_fmap in E as (e & Heq & He).
      injection Heq as -> ->. by exists e. }
  destruct (candidates_of_spec code) as [_ Hcands].
  assert (Forall (fun t => trim t = t) (candidates_of code)) as Htrim.
  { eapply Forall_impl; [exact Hcands|]. by intros t [? _]. }
  destruct (resolve_all_step now uuid lm (candidates_of code) sc0 w Hinj HK0 HM0 Htrim)
    as (sc1 & w1 & -> & HK1 & _ & Hres & _).
  destruct (ensure_keys_step now uuid (map (group 1) (exec_all keyRegex code)) sc1 w1
              Hinj HK1) as (sc2 & w2 & -> & (K1 & K2 & K3 & K4) & Hkeys & Hsub).
  destruct (translate_batch_ok now stamp (newKeys sc2) fetched w2) as (o & Ho).
  destruct (translate_batch_rows now stamp (newKeys sc2) fetched w2) as (g & Hg & Hdb).
  destruct (translate_batch now stamp (newKeys sc2) fetched w2) as [ro w3].
  cbn [fst snd] in *. subst ro. exists o, (newKeys sc2), w3.
  split; [reflexivity|]. rewrite Hdb.
  assert (forall r, r ∈ existing sc2 -> stored (map g (db w2)) (key r) (en r)) as Hst.
  { intros r Hr. apply stored_map; [done|]. by apply K1. }
  split; [|split].
  - eapply Forall_impl; [exact Hres|]. intros t Ht.
    eapply resolvable_stored; [exact Hst|]. eapply resolvable_mono; [exact Hsub|done].
  - eapply Forall_impl; [exact Hkeys|]. intros k Hk. by eapply has_key_stored.
  - apply Forall_forall. intros [k e] Hin. apply stored_map; [done|]. by apply K4.
Qed.


(** *** A scan that finds everything *)

Lemma resolve_text_mapped now uuid lm sc text w :
  truthy_opt (aliasToKey (toLowerCase text)) || truthy_opt (Str <$> lm !! toLowerCase text) = true ->
  exists m, resolve_text now uuid lm sc text w
            = (Ok (MkScan (existing sc) m (newKeys sc) (drawn sc)), w).
Proof.
  intros H. unfold resolve_text.
  assert (truthy_opt (mappedKey (enToKey sc) lm text) = true) as ->.
  { rewrite truthy_opt_mappedKey. apply orb_true_iff in H as [-> | ->]; [done|].
    by rewrite orb_true_r. }
  by eexists.
Qed.

Lemma resolve_all_mapped now uuid lm : forall texts sc w,
  Forall (fun text => truthy_opt (aliasToKey (toLowerCase text))
                      || truthy_opt (Str <$> lm !! toLowerCase text) = true) texts ->
  exists m, resolve_all now uuid lm sc texts w
            = (Ok (MkScan (existing sc) m (newKeys sc) (drawn sc)), w).
Proof.
  induction texts as [|text texts IH]; intros sc w Hall.
  - exists (enToKey sc). by destruct sc.
  - apply Forall_cons in Hall as [Ht Hall].
    destruct (resolve_text_mapped now uuid lm sc text w Ht) as (m1 & E1).
    destruct (IH (MkScan (existing sc) m1 (newKeys sc) (drawn sc)) w Hall) as (m2 & E2).
    exists m2. cbn [resolve_all]. unfold mbind, M_bind. by rewrite E1, E2.
Qed.

Lemma ensure_keys_present now uuid : forall keys sc w,
  Forall (fun k => has_key k (existing sc) = true) keys ->
  ensure_keys now uuid sc keys w = (Ok sc, w).
Proof.
  induction keys as [|k keys IH]; intros sc w Hall; [done|].
  apply Forall_cons in Hall as [Hk Hall].
  cbn [ensure_keys]. unfold mbind, M_bind, ensure_key. rewrite Hk.
  by apply IH.
Qed.

Lemma resolvable_sorted (t : Table) text :
  resolvable t text ->
  truthy_opt (aliasToKey (toLowerCase text))
  || truthy_opt (Str <$> new_Map (map (fun e => (toLowerCase (trim (en e)), key e))
                                    (merge_sort key_le t)) !! toLowerCase text) = true.
Proof.
  intros [-> |(r & Hr & He & Hk)]; [done|]. apply orb_true_iff. right.
  rewrite <- He.
  apply (new_Map_sorted (fun e => toLowerCase (trim (en e)))); [|by apply sorted_elem|done].
  apply StronglySorted_merge_sort; apply _.
Qed.

(** A scan of a source whose texts are all resolvable and whose keys are
    all in the store creates nothing and changes nothing. *)
Lemma settled_scan now uuid stamp code fetched w :
  Forall (resolvable (db w)) (candidates_of code) ->
  Forall (fun k => has_key k (db w) = true) (referenced_keys code) ->
  ensureLocalizationsForCode now uuid stamp code fetched w = (Ok (NothingNew, []), w).
Proof.
  intros Hres Hkeys.
  unfold ensureLocalizationsForCode, mbind, M_bind, getAllLocalizations, gets.
  set (T0 := merge_sort key_le (db w)).
  set (lm := new_Map (map (fun e => (toLowerCase _, key e)) T0)).
  set (sc0 := MkScan T0 _ [] 0).
  destruct (resolve_all_mapped now uuid lm (candidates_of code) sc0 w) as (m & ->).
  { eapply Forall_impl; [exact Hres|]. intros t Ht. by apply resolvable_sorted. }
  unfold sc0. cbn [existing newKeys drawn].
  rewrite ensure_keys_present.
  - reflexivity.
  - cbn [existing]. eapply Forall_impl; [exact Hkeys|]. intros k Hk.
    eapply has_key_mono; [|exact Hk]. intros r Hr. by apply sorted_elem.
Qed.


(** What a run of [ensureLocalizationsForCode] leaves in the store,
    whatever the translation request gave: every key it created is the key
    of a row with the English text it was created for, and every key the
    source refers to by [t('key')] or [__i18n('key')] is the key of a row.
    The ids drawn are taken to be new to the store and distinct. *)
Theorem scan_stores_new_keys now uuid stamp code fetched w :
  Inj (=) (=) uuid -> (forall n, has_id (uuid n) (db w) = false) ->
  exists o items w1,
    ensureLocalizationsForCode now uuid stamp code fetched w = (Ok (o, items), w1) /\
    (forall k en_, (k, en_) ∈ items -> exists r, r ∈ db w1 /\ key r = k /\ en r = en_) /\
    (forall k, k ∈ referenced_keys code -> has_key k (db w1) = true).
Proof.
  intros Hinj Hfresh.
  destruct (run_outcome now uuid stamp code fetched w Hinj Hfresh)
    as (o & items & w1 & E & _ & Hkeys & Hitems).
  exists o, items, w1. split; [exact E|]. split.
  - intros k en_ Hin. by eapply Forall_forall in Hitems; [|exact Hin].
  - intros k Hin. by eapply Forall_forall in Hkeys; [|exact Hin].
Qed.

Lemma sample_uuid_inj : Inj (=) (=) sample_uuid.
Proof.
  intros a b E. unfold sample_uuid in E. apply (inj (String.app "uuid-")) in E.
  by apply (inj pretty) in E.
Qed.

Lemma sample_uuid_fresh n : has_id (sample_uuid n) (db sample_world) = false.
Proof. reflexivity. Qed.

Lemma scan_stores_new_keys_witness :
  exists o items w1,
    ensureLocalizationsForCode "2025-11-02 09:00:00" sample_uuid "1762074000000"
      sample_code NetworkError sample_world = (Ok (o, items), w1) /\
    (forall k en_, (k, en_) ∈ items -> exists r, r ∈ db w1 /\ key r = k /\ en r = en_) /\
    (forall k, k ∈ referenced_keys sample_code -> has_key k (db w1) = true).
Proof.
  exact (scan_stores_new_keys "2025-11-02 09:00:00" sample_uuid "1762074000000"
           sample_code NetworkError sample_world sample_uuid_inj sample_uuid_fresh).
Defined.

(** A second run of [ensureLocalizationsForCode] over the same source
    creates no key, sends nothing to translation and leaves the store and
    the storage as the first run left them, whatever the clocks, the ids
    and the translation request of the second run are. *)
Theorem rescan_creates_nothing now uuid stamp fetched now' uuid' stamp' fetched' code w :
  Inj (=) (=) uuid -> (forall n, has_id (uuid n) (db w) = false) ->
  let w1 := (ensureLocalizationsForCode now uuid stamp code fetched w).2 in
  ensureLocalizationsForCode now' uuid' stamp' code fetched' w1
  = (Ok (NothingNew, []), w1).
Proof.
  intros Hinj Hfresh w1.
  destruct (run_outcome now uuid stamp code fetched w Hinj Hfresh)
    as (o & items & w1' & E & Hres & Hkeys & _).
  subst w1. rewrite E. cbn [snd]. by apply settled_scan.
Qed.

Lemma rescan_creates_nothing_witness :
  let w1 := (ensureLocalizationsForCode "2025-11-02 09:00:00" sample_uuid
               "1762074000000" sample_code (Body (Some sample_translations))
               sample_world).2 in
  ensureLocalizationsForCode "2025-11-03 10:00:00" sample_uuid "1762160400000"
    sample_code NetworkError w1 = (Ok (NothingNew, []), w1).
Proof.
  exact (rescan_creates_nothing "2025-11-02 09:00:00" sample_uuid "1762074000000"
           (Body (Some sample_translations)) "2025-11-03 10:00:00" sample_uuid
           "1762160400000" NetworkError sample_code sample_world
           sample_uuid_inj sample_uuid_fresh).
Defined.

End RescanFacts.

(* ===================================================================== *)
(** ** Minted keys *)
(* ===================================================================== *)

Module SlugFacts.
#[local] Arguments String.append !_ _ / : simpl nomatch.
Import Re Js Store Editor Slug ReFacts PreviewFacts.
Import Preview (join_segs, word1, key_str).

Lemma collapse_units : forall s b, all_units slug_unit (collapse_runs b s) = true.
Proof.
  induction s as [|c s IH]; intros b; [done|]. simpl.
  destruct (non_alnum c) eqn:Hc.
  - destruct b; [apply IH|]. simpl. apply IH.
  - simpl. rewrite IH. unfold non_alnum in Hc. apply negb_false_iff in Hc.
    unfold slug_unit. by rewrite Hc.
Qed.

Lemma collapse_in_run_head s : starts_with_dot (collapse_runs true s) = false.
Proof.
  induction s as [|c s IH]; [done|]. simpl. destruct (non_alnum c) eqn:Hc; [done|].
  simpl. unfold is_dot, is_char. destruct (Ascii.eqb_spec "." c) as [<-|]; [|done].
  by vm_compute in Hc.
Qed.

Lemma collapse_double_dot : forall s b, double_dot (collapse_runs b s) = false.
Proof.
  induction s as [|c s IH]; intros b; [done|]. simpl.
  destruct (non_alnum c) eqn:Hc.
  - destruct b; [apply IH|]. simpl. by rewrite collapse_in_run_head, IH.
  - simpl. rewrite IH, orb_false_r. apply andb_false_iff. left.
    unfold is_dot, is_char. destruct (Ascii.eqb_spec "." c) as [<-|]; [|done].
    by vm_compute in Hc.
Qed.

(** *** Prefixes and suffixes *)

Lemma dropWhile_units p q s :
  all_units q s = true -> all_units q (dropWhile p s) = true.
Proof.
  induction s as [|c s IH]; [done|]. simpl. intros [Hc Hs]%andb_true_iff.
  destruct (p c); [by apply IH|]. simpl. by rewrite Hc, Hs.
Qed.

Lemma dropWhile_double_dot p s :
  double_dot s = false -> double_dot (dropWhile p s) = false.
Proof.
  induction s as [|c s IH]; [done|]. simpl. intros [Hd Hs]%orb_false_iff.
  destruct (p c); [by apply IH|]. simpl. by rewrite Hd, Hs.
Qed.

Lemma dropWhile_head p s :
  match dropWhile p s with String c _ => p c = false | EmptyString => True end.
Proof. induction s as [|c s IH]; [done|]. simpl. by destruct (p c) eqn:E. Qed.

Lemma strip_trailing_cases p c s :
  strip_trailing p (String c s) = "" \/
  strip_trailing p (String c s) = String c (strip_trailing p s).
Proof. simpl. destruct (p c && all_units p s); auto. Qed.

Lemma strip_trailing_units p q s :
  all_units q s = true -> all_units q (strip_trailing p s) = true.
Proof.
  induction s as [|c s IH]; [done|]. intros H. pose proof H as H'. simpl in H'.
  apply andb_true_iff in H' as [Hc Hs].
  destruct (strip_trailing_cases p c s) as [-> | ->]; [done|]. simpl. by rewrite Hc, IH.
Qed.

Lemma strip_trailing_head p s :
  starts_with_dot (strip_trailing p s) = true -> starts_with_dot s = true.
Proof.
  destruct s as [|c s]; [done|].
  by destruct (strip_trailing_cases p c s) as [-> | ->].
Qed.

Lemma strip_trailing_double_dot p s :
  double_dot s = false -> double_dot (strip_trailing p s) = false.
Proof.
  induction s as [|c s IH]; [done|]. intros H. pose proof H as H'. simpl in H'.
  apply orb_false_iff in H' as [Hd Hs].
  destruct (strip_trailing_cases p c s) as [-> | ->]; [done|]. simpl.
  rewrite IH by done. rewrite orb_false_r.
  destruct (is_dot c); [|done]. simpl in *.
  destruct (starts_with_dot (strip_trailing p s)) eqn:E; [|done].
  apply strip_trailing_head in E. congruence.
Qed.

Lemma strip_trailing_end s : ends_with_dot (strip_trailing is_dot s) = false.
Proof.
  induction s as [|c s IH]; [done|]. simpl strip_trailing.
  destruct (is_dot c && all_units is_dot s) eqn:E; [done|].
  destruct s as [|d s].
  - simpl in *. by rewrite andb_true_r in E.
  - destruct (strip_trailing_cases is_dot d s) as [E1|E1].
    + rewrite E1 in *. simpl. simpl in E1.
      destruct (is_dot d && all_units is_dot s) eqn:E2; [|done].
      simpl in E. rewrite E2 in E. by rewrite andb_true_r in E.
    + rewrite E1 in *. exact IH.
Qed.

Lemma take_units q n : forall s, all_units q s = true -> all_units q (take n s) = true.
Proof.
  induction n as [|n IH]; intros [|c s]; try done. simpl.
  intros [Hc Hs]%andb_true_iff. by rewrite Hc, IH.
Qed.

Lemma take_head n s : starts_with_dot (take n s) = true -> starts_with_dot s = true.
Proof. destruct n, s; done. Qed.

Lemma take_double_dot n : forall s, double_dot s = false -> double_dot (take n s) = false.
Proof.
  induction n as [|n IH]; intros [|c s]; try done. simpl.
  intros [Hd Hs]%orb_false_iff. rewrite IH by done. rewrite orb_false_r.
  destruct (is_dot c); [|done]. simpl in *.
  destruct (starts_with_dot (take n s)) eqn:E; [|done].
  apply take_head in E. congruence.
Qed.

Lemma length_take n : forall s, String.length (take n s) <= n.
Proof. induction n as [|n IH]; intros [|c s]; simpl; try lia. specialize (IH s). lia. Qed.

Lemma take_all n : forall s, String.length s <= n -> take n s = s.
Proof.
  induction n as [|n IH]; intros [|c s]; simpl; try done; try lia.
  intros H. rewrite IH; [done|lia].
Qed.


(** *** A text with a letter *)

Lemma test_class p s : test (Class p) s = negb (all_units (fun c => negb (p c)) s).
Proof.
  unfold test. generalize (@None ascii).
  induction s as [|c s IH]; intros prev; [done|].
  cbn [test_from]. unfold match_at. cbn [run ms_rest]. simpl.
  destruct (p c); [done|]. simpl. apply IH.
Qed.

Lemma alpha_lower_alnum c : is_alpha c = true -> is_lower_alnum (lower_char c) = true.
Proof. destruct c as [[] [] [] [] [] [] [] []]; by vm_compute. Qed.

Lemma lower_has_alnum s :
  test (Class is_alpha) s = true ->
  all_units (fun c => negb (is_lower_alnum c)) (toLowerCase s) = false.
Proof.
  rewrite test_class. intros H%negb_true_iff. unfold toLowerCase.
  induction s as [|c s IH]; [done|]. simpl in *.
  destruct (is_alpha c) eqn:Hc; simpl in *.
  - by rewrite alpha_lower_alnum.
  - rewrite IH by done. apply andb_false_r.
Qed.

Lemma collapse_has_alnum : forall s b,
  all_units (fun c => negb (is_lower_alnum c)) s = false ->
  all_units (fun c => negb (is_lower_alnum c)) (collapse_runs b s) = false.
Proof.
  induction s as [|c s IH]; intros b H; [done|]. simpl in *. unfold non_alnum.
  destruct (is_lower_alnum c) eqn:Hc; simpl in *; [by rewrite Hc|].
  destruct b; [by apply IH|]. simpl. by apply IH.
Qed.

Lemma dot_not_alnum c : is_dot c = true -> is_lower_alnum c = false.
Proof.
  unfold is_dot, is_char. destruct (Ascii.eqb_spec "." c) as [<-|]; [|done]. done.
Qed.

Lemma trim_dots_not_empty s :
  all_units (fun c => negb (is_lower_alnum c)) s = false -> trim_dots s <> "".
Proof.
  intros H. unfold trim_dots.
  assert (all_units (fun c => negb (is_lower_alnum c)) (dropWhile is_dot s) = false) as H'.
  { induction s as [|c s IH]; [done|]. simpl in *. destruct (is_dot c) eqn:Hd.
    - apply IH. by rewrite (dot_not_alnum c Hd) in H.
    - done. }
  destruct (dropWhile is_dot s) as [|c t]; [done|]. simpl strip_trailing.
  destruct (is_dot c && all_units is_dot t) eqn:E; [|done]. exfalso.
  assert (all_units is_dot (String c t) = true) as Hall by done.
  assert (all_units (fun c => negb (is_lower_alnum c)) (String c t) = true); [|congruence].
  revert Hall. apply all_units_impl. intros d Hd. by rewrite (dot_not_alnum d Hd).
Qed.

Lemma take_not_empty n s : s <> "" -> take (S n) s <> "".
Proof. by destruct s. Qed.

Lemma slug_unit_key_unit c : slug_unit c = true -> is_key_unit c = true.
Proof. destruct c as [[] [] [] [] [] [] [] []]; by vm_compute. Qed.

(** The key [generateKeyFromText] makes for a text: [auto.] and a slug of
    at most forty units, all of them in [a-z], [0-9] or dots, that does
    not start with a dot and has no two dots in a row; the slug is not
    empty when the text has a letter.  Every unit of the key is one the
    pattern for [t('key')] and [__i18n('key')] accepts. *)
Theorem minted_key_shape text :
  exists slug, generateKeyFromText text = "auto." +:+ slug /\
    String.length slug <= 40 /\
    all_units slug_unit slug = true /\
    starts_with_dot slug = false /\
    double_dot slug = false /\
    (test (Class is_alpha) text = true -> slug <> "") /\
    all_units is_key_unit (generateKeyFromText text) = true.
Proof.
  exists (slug_spec text). rewrite generateKeyFromText_spec. split; [done|].
  unfold slug_spec, trim_dots.
  set (c := collapse_runs false (toLowerCase text)).
  assert (all_units slug_unit (take 40 (strip_trailing is_dot (dropWhile is_dot c))) = true)
    as Hunits.
  { apply take_units, strip_trailing_units, dropWhile_units, collapse_units. }
  split; [apply length_take|]. split; [exact Hunits|]. split; [|split; [|split]].
  - destruct (starts_with_dot (take 40 _)) eqn:E; [|done].
    apply take_head, strip_trailing_head in E.
    pose proof (dropWhile_head is_dot c) as H. destruct (dropWhile is_dot c); [done|].
    simpl in E. congruence.
  - apply take_double_dot, strip_trailing_double_dot, dropWhile_double_dot,
      collapse_double_dot.
  - intros Ht. apply take_not_empty. apply (trim_dots_not_empty c).
    by apply collapse_has_alnum, lower_has_alnum.
  - rewrite all_units_app. simpl. revert Hunits. apply all_units_impl, slug_unit_key_unit.
Qed.


(** *** The segments of a slug *)

Lemma join_split s : join_segs (split "." s) = "." +:+ s.
Proof.
  induction s as [|c s IH]; [done|]. cbn [split].
  destruct (Ascii.eqb_spec c ".") as [->|Hc].
  - cbn [join_segs]. by rewrite IH.
  - destruct (split "." s) as [|seg segs]; [done|].
    cbn [join_segs] in *. simpl in *. by injection IH as ->.
Qed.

Lemma slug_unit_cases c : slug_unit c = true -> is_dot c = false -> is_word c = true.
Proof. destruct c as [[] [] [] [] [] [] [] []]; by vm_compute. Qed.

Lemma is_dot_eqb c : is_dot c = Ascii.eqb c ".".
Proof. unfold is_dot, is_char. apply Ascii.eqb_sym. Qed.

Lemma split_segments : forall s,
  s <> "" -> all_units slug_unit s = true ->
  ends_with_dot s = false -> double_dot s = false ->
  exists seg segs, split "." s = seg :: segs /\
    (starts_with_dot s = false -> word1 is_word seg) /\
    (starts_with_dot s = true -> seg = "") /\
    Forall (word1 is_word) segs.
Proof.
  induction s as [|c s IH]; intros Hne Hu He Hd; [done|].
  simpl in Hu. apply andb_true_iff in Hu as [Hc Hu].
  simpl in Hd. apply orb_false_iff in Hd as [Hcd Hd].
  cbn [split starts_with_dot]. rewrite <- is_dot_eqb.
  destruct s as [|d s].
  - simpl in He. rewrite He. exists (String c ""), []. split; [done|].
    split; [|split; [done|constructor]]. intros _. split; [done|].
    simpl. by rewrite (slug_unit_cases c Hc He).
  - assert (ends_with_dot (String d s) = false) as He' by exact He.
    destruct (IH ltac:(done) Hu He' Hd) as (seg & segs & E & Hw & Hdot & Hall).
    rewrite E. destruct (is_dot c) eqn:Hcdot.
    + simpl in Hcd. exists "", (seg :: segs). split; [done|].
      split; [done|]. split; [done|]. constructor; [by apply Hw|done].
    + exists (String c seg), segs. split; [done|]. split; [|split; [done|done]].
      intros _. split; [done|]. simpl. rewrite (slug_unit_cases c Hc Hcdot). simpl.
      destruct (starts_with_dot (String d s)) eqn:Hs.
      * by rewrite (Hdot eq_refl).
      * by destruct (Hw eq_refl).
Qed.

Lemma length_dropWhile p s : String.length (dropWhile p s) <= String.length s.
Proof. induction s as [|c s IH]; simpl; [lia|]. destruct (p c); simpl; lia. Qed.

Lemma length_strip_trailing p s : String.length (strip_trailing p s) <= String.length s.
Proof.
  induction s as [|c s IH]; [done|].
  destruct (strip_trailing_cases p c s) as [-> | ->]; simpl; lia.
Qed.

Lemma length_collapse : forall s b, String.length (collapse_runs b s) <= String.length s.
Proof.
  induction s as [|c s IH]; intros b; [done|]. simpl.
  pose proof (IH true). pose proof (IH false).
  destruct (non_alnum c); [destruct b|]; simpl; lia.
Qed.


Lemma length_map_string f s : String.length (map_string f s) = String.length s.
Proof. induction s; simpl; congruence. Qed.

(** The key made for a text of at most forty units that has a letter has
    the dotted shape of a key: letters, then one or more times a dot and
    a run of word units.  (A longer text can leave a dot at the end of
    the forty units that are kept.) *)
Theorem short_text_key_is_dotted text :
  test (Class is_alpha) text = true -> String.length text <= 40 ->
  key_str (generateKeyFromText text).
Proof.
  intros Ht Hlen. rewrite generateKeyFromText_spec. unfold slug_spec, trim_dots.
  set (c := collapse_runs false (toLowerCase text)).
  set (t := strip_trailing is_dot (dropWhile is_dot c)).
  assert (String.length t <= 40) as Hl.
  { subst t c. pose proof (length_strip_trailing is_dot
      (dropWhile is_dot (collapse_runs false (toLowerCase text)))).
    pose proof (length_dropWhile is_dot (collapse_runs false (toLowerCase text))).
    pose proof (length_collapse (toLowerCase text) false).
    unfold toLowerCase in *. rewrite length_map_string in *. lia. }
  rewrite take_all by done.
  destruct (split_segments t) as (seg & segs & E & Hw & _ & Hall).
  - apply (trim_dots_not_empty c). by apply collapse_has_alnum, lower_has_alnum.
  - apply strip_trailing_units, dropWhile_units, collapse_units.
  - apply strip_trailing_end.
  - apply strip_trailing_double_dot, dropWhile_double_dot, collapse_double_dot.
  - assert (starts_with_dot t = false) as Hs.
    { destruct (starts_with_dot t) eqn:E'; [|done]. apply strip_trailing_head in E'.
      pose proof (dropWhile_head is_dot c) as H. destruct (dropWhile is_dot c); [done|].
      simpl in E'. congruence. }
    exists "auto", seg, segs. split; [|split; [done|constructor; auto]].
    rewrite <- E, join_split. by rewrite <- append_assoc.
Qed.

Lemma short_text_key_is_dotted_witness : key_str (generateKeyFromText "Sign up free").
Proof. apply short_text_key_is_dotted; [reflexivity|vm_compute; lia]. Defined.

End SlugFacts.

(* ===================================================================== *)
(** ** The resolver's label *)
(* ===================================================================== *)

Module LabelFacts.
#[local] Arguments String.append !_ _ / : simpl nomatch.
Import Re Js Store Preview Label ReFacts PreviewFacts LiteralFacts.

(** Replacing every unit of a class by one unit. *)
Lemma replace_class_from p d src : d <> "$"%char -> forall rest pos prev,
  replace_from (Class p) (template_fn (String d "")) src pos prev rest 0
  = map_string (fun c => if p c then d else c) rest.
Proof.
  intros Hd. induction rest as [|c rest IH]; intros pos prev; [done|].
  cbn [replace_from]. unfold match_at. rewrite run_class. cbn [ms_rest].
  destruct (p c) eqn:Hc; cbn [head map_string]; rewrite Hc.
  - cbn [String.length]. rewrite IH. unfold template_fn. cbn [substitute mi_text].
    apply Ascii.eqb_neq in Hd. by rewrite Hd.
  - by rewrite IH.
Qed.

Lemma label_of_spec last : label_of last = label_spec last.
Proof.
  unfold label_of, label_spec, replace, replace_fn.
  rewrite replace_class_from by done. reflexivity.
Qed.

Lemma label_spec_length last : String.length (label_spec last) = String.length last.
Proof.
  unfold label_spec. destruct last as [|c r]; [done|]. simpl. f_equal.
  induction r; simpl; congruence.
Qed.

Lemma truthy_iff s : truthy s = true <-> s <> "".
Proof. unfold truthy. destruct (String.eqb_spec s ""); split; done. Qed.

Lemma derive_not_empty shape k : k <> "" -> derive shape k <> "".
Proof.
  intros Hk. unfold derive. destruct (test shape k); [|done].
  destruct (pop (split "." k)) as [last|]; [|done].
  destruct (truthy last) eqn:E; [|done]. apply truthy_iff in E.
  rewrite label_of_spec. intros H. apply (f_equal String.length) in H.
  rewrite label_spec_length in H. by destruct last.
Qed.

(** The resolver of the preview never hands back an empty string for a
    key that is not empty. *)
Theorem resolver_never_blank TX EN k : k <> "" -> truthy (__i18n TX EN k) = true.
Proof.
  intros Hk. apply truthy_iff. unfold __i18n.
  destruct (TX !! k) as [v|]; [destruct (truthy v) eqn:Ev; [by apply truthy_iff|]|];
    (destruct (EN !! k) as [e|]; [destruct (truthy e) eqn:Ee; [by apply truthy_iff|]|]);
    by apply derive_not_empty.
Qed.

Lemma resolver_never_blank_witness : truthy (__i18n ∅ ∅ "button.click_me") = true.
Proof. apply resolver_never_blank. discriminate. Defined.

(** *** A dotted key that is in neither table *)

Lemma word_not_dot c : is_word c = true -> is_char "." c = false.
Proof. destruct c as [[] [] [] [] [] [] [] []]; by vm_compute. Qed.

Lemma alpha_is_word c : is_alpha c = true -> is_word c = true.
Proof. unfold is_word. by intros ->. Qed.

Lemma word1_free_dot w : word1 is_word w -> free (is_char ".") w.
Proof.
  intros [_ H]. unfold free. revert H. apply all_units_impl.
  intros c Hc. by rewrite (word_not_dot c Hc).
Qed.

Lemma split_free x : free (is_char ".") x -> split "." x = [x].
Proof.
  induction x as [|c x IH]; [done|]. intros [Hc Hx]%free_cons. cbn [split].
  unfold is_char in Hc. rewrite Ascii.eqb_sym in Hc. rewrite Hc, IH by done. done.
Qed.

Lemma split_join : forall segs x,
  free (is_char ".") x -> Forall (fun w => free (is_char ".") w) segs ->
  split "." (x +:+ join_segs segs) = x :: segs.
Proof.
  induction segs as [|w segs IH]; intros x Hx Hall.
  - cbn [join_segs]. rewrite append_nil_r. by apply split_free.
  - apply Forall_cons in Hall as [Hw Hall].
    induction x as [|c x IHx].
    + cbn [join_segs]. simpl. by rewrite IH.
    + apply free_cons in Hx as [Hc Hx].
      change (String c x +:+ join_segs (w :: segs))
        with (String c (x +:+ join_segs (w :: segs))).
      cbn [split]. unfold is_char in Hc. rewrite Ascii.eqb_sym in Hc.
      by rewrite Hc, IHx.
Qed.

Lemma dseg_complete caps prev w rest :
  word1 is_word w ->
  exists caps' prev', ("." +:+ w, MState caps' prev' rest)
    ∈ run dseg (MState caps prev ("." +:+ w +:+ rest)).
Proof.
  intros [Hne Hw].
  assert (("." +:+ w, MState caps (last_unit (Some "."%char) w) rest)
          ∈ run (Seq (Class is_any) (Plus (Class is_word)))
                (MState caps prev ("." +:+ w +:+ rest))) as Hin.
  { apply (seq_complete _ _ _ "." (MState caps (Some "."%char) (w +:+ rest))).
    - by apply (class_complete is_any ".").
    - by apply plus_class_complete. }
  exists ((1, "." +:+ w) :: caps), (last_unit (Some "."%char) w).
  unfold dseg. apply elem_of_run_group. eexists. split; [exact Hin|reflexivity].
Qed.

Lemma dsegs_complete : forall segs caps prev rest,
  Forall (word1 is_word) segs ->
  exists caps' prev', (join_segs segs, MState caps' prev' rest)
    ∈ run (Star dseg) (MState caps prev (join_segs segs +:+ rest)).
Proof.
  induction segs as [|w ws IH]; intros caps prev rest Hall.
  - exists caps, prev. apply star_stop.
  - apply Forall_cons in Hall as [Hw Hws].
    destruct (dseg_complete caps prev w (join_segs ws +:+ rest) Hw) as (c1 & p1 & H1).
    destruct (IH c1 p1 rest Hws) as (c2 & p2 & H2).
    exists c2, p2. rewrite join_segs_cons_app, join_segs_cons.
    eapply star_complete; [exact H1|done|exact H2].
Qed.

Lemma emitted_shape_unfold :
  emitted_shape = Seq Bol (Seq (Plus (Class is_alpha)) (Seq (Seq dseg (Star dseg)) Eol)).
Proof. reflexivity. Qed.

Lemma test_match r prev s : match_at r prev s <> None -> test_from r prev s = true.
Proof. destruct s; simpl; by destruct (match_at r prev _). Qed.

Lemma test_emitted_shape a w ws :
  word1 is_alpha a -> Forall (word1 is_word) (w :: ws) ->
  test emitted_shape (a +:+ join_segs (w :: ws)) = true.
Proof.
  intros [Hane Ha] Hall. apply test_match. unfold match_at.
  apply Forall_cons in Hall as [Hw Hws].
  destruct (dseg_complete [] (last_unit None a) w (join_segs ws +:+ "") Hw)
    as (c1 & p1 & H1).
  destruct (dsegs_complete ws c1 p1 "" Hws) as (c2 & p2 & H2).
  pose proof (seq_complete _ _ _ _ _ _ _ H1 H2) as H3.
  assert (("", MState c2 p2 "") ∈ run Eol (MState c2 p2 "")) as H4
    by apply list_elem_of_here.
  pose proof (seq_complete _ _ _ _ _ _ _ H3 H4) as H5.
  pose proof (plus_class_complete is_alpha [] None a
                ("." +:+ w +:+ join_segs ws +:+ "") Hane Ha) as H6.
  pose proof (seq_complete _ _ _ _ _ _ _ H6 H5) as H7.
  assert (("", MState [] None (a +:+ "." +:+ w +:+ join_segs ws +:+ ""))
          ∈ run Bol (MState [] None (a +:+ "." +:+ w +:+ join_segs ws +:+ ""))) as H8
    by apply list_elem_of_here.
  pose proof (seq_complete _ _ _ _ _ _ _ H8 H7) as H9.
  rewrite <- emitted_shape_unfold in H9.
  assert (a +:+ "." +:+ w +:+ join_segs ws +:+ "" = a +:+ join_segs (w :: ws)) as E.
  { cbn [join_segs]. by rewrite append_nil_r. }
  rewrite E in H9. destruct (head_elem _ _ H9) as (y & -> & _). done.
Qed.

(** A key of the dotted shape that neither table has a value for comes
    back as the label of its last segment: the segment with its first
    unit in upper case and every underscore turned into a space. *)
Theorem absent_dotted_key_label (TX EN : gmap string string) a ws w :
  word1 is_alpha a -> Forall (word1 is_word) (ws ++ [w]) ->
  let k := a +:+ join_segs (ws ++ [w]) in
  (TX !! k = None \/ TX !! k = Some "") -> (EN !! k = None \/ EN !! k = Some "") ->
  __i18n TX EN k = label_spec w.
Proof.
  intros Ha Hall k HT HE.
  assert (derive emitted_shape k = label_spec w) as Hd.
  { unfold derive, k.
    assert (exists w0 ws0, ws ++ [w] = w0 :: ws0) as (w0 & ws0 & E).
    { destruct ws; simpl; eauto. }
    rewrite E, test_emitted_shape; [|done|by rewrite <- E]. rewrite <- E.
    rewrite split_join.
    - unfold pop. replace (a :: ws ++ [w]) with ((a :: ws) ++ [w]) by done.
      rewrite last_snoc.
      assert (truthy w = true) as ->.
      { apply truthy_iff. apply Forall_app in Hall as [_ Hw].
        apply Forall_singleton in Hw as [Hne _]. done. }
      apply label_of_spec.
    - destruct Ha as [_ Ha]. unfold free. revert Ha. apply all_units_impl.
      intros c Hc. by rewrite (word_not_dot c (alpha_is_word c Hc)).
    - eapply Forall_impl; [exact Hall|]. apply word1_free_dot. }
  unfold __i18n. by destruct HT as [-> | ->], HE as [-> | ->].
Qed.

Lemma absent_dotted_key_label_witness :
  __i18n ∅ ∅ "button.click_me" = "Click me".
Proof.
  apply (absent_dotted_key_label ∅ ∅ "button" [] "click_me").
  - done.
  - constructor; [done|constructor].
  - left. apply lookup_empty.
  - left. apply lookup_empty.
Defined.

End LabelFacts.

(* ===================================================================== *)
(** ** Calls in the source *)
(* ===================================================================== *)

Module CallFacts.
#[local] Arguments String.append !_ _ / : simpl nomatch.
Import Re Js Store Preview Label ReFacts PreviewFacts LiteralFacts.

(** The rewriter finds nothing to do in a source that already holds the
    call: a source of the form [pre{__i18n('K')}post] comes back as it
    is, whatever the store holds. *)
Theorem rewritten_call_is_stable entries pre K post :
  key_str K -> free is_quote pre -> free is_quote post ->
  rewriteWithKeys entries (pre +:+ ("{" +:+ call K +:+ "}") +:+ post)
  = pre +:+ ("{" +:+ call K +:+ "}") +:+ post.
Proof.
  intros HK Hpre Hpost. pose proof (key_str_free_quote K HK) as HKq.
  fold (res_of pre K post). unfold rewriteWithKeys, rewrite_literals.
  rewrite fold_rewrite_done by done.
  by rewrite keyLike_on_res, tCall_on_res, fields_on_res.
Qed.

Lemma rewritten_call_is_stable_witness :
  rewriteWithKeys [sample_submit] "<button>{__i18n('button.submit')}</button>"
  = "<button>{__i18n('button.submit')}</button>".
Proof.
  apply (rewritten_call_is_stable [sample_submit] "<button>" "button.submit" "</button>").
  - exists "button", "submit", []. split; [done|]. split; [done|].
    constructor; [done|constructor].
  - reflexivity.
  - reflexivity.
Defined.

(** *** A subject whose first quote follows an opening parenthesis *)

Lemma rewrite_text_paren A B C T' K' :
  free is_quote A -> free is_quote B -> free is_quote C ->
  rewrite_text (two_quoted (A +:+ "(") B C) (T', K') = two_quoted (A +:+ "(") B C.
Proof.
  intros HA HB HC. unfold rewrite_text.
  destruct (negb (truthy T')); [done|].
  destruct (_ || _); [done|].
  assert (free (is_char dq) (two_quoted (A +:+ "(") B C)) as Hdq.
  { unfold two_quoted. solve_free. }
  unfold textNode, exprLiteral.
  rewrite (wrapped_blocked ">") by done.
  rewrite (replace_wrapped_dq ">") by done.
  rewrite (wrapped_blocked "{") by done.
  by rewrite (replace_wrapped_dq "{").
Qed.

Lemma fold_rewrite_paren A B C (l : list (string * string)) :
  free is_quote A -> free is_quote B -> free is_quote C ->
  fold_left rewrite_text l (two_quoted (A +:+ "(") B C) = two_quoted (A +:+ "(") B C.
Proof.
  intros HA HB HC. induction l as [|[T' K'] l IH]; [done|].
  cbn [fold_left]. rewrite rewrite_text_paren by done. apply IH.
Qed.

Lemma propKey_paren allKeys f q A B C :
  free is_quote f -> is_quote q = true ->
  free is_quote A -> free is_quote B -> free is_quote C ->
  replace_fn (propKey f q) (propKey_replacer allKeys f) (two_quoted (A +:+ "(") B C)
  = two_quoted (A +:+ "(") B C.
Proof.
  intros Hf Hq HA HB HC. apply quiet_subject. intros a b caps prev t st' Hin E.
  pose proof (run_consumes _ _ _ _ Hin) as Hr. cbn [ms_rest] in Hr.
  apply elem_of_run_propKey in Hin as (w1 & w2 & body & Hw1 & Hw2 & ->).
  rewrite Hr, !app_cons_assoc in E. unfold two_quoted in E.
  apply two_quote_align in E as (E1 & _);
    [|solve_free; by apply ws_free_quote|solve_free..].
  eapply (ends_differ a _ _ "(" (not_char "(")); [| |done|exact E1].
  - intros E0. apply (f_equal String.length) in E0.
    rewrite !length_append in E0. simpl in E0. lia.
  - apply (last_unit_ws_or (f +:+ w1 +:+ ":") ":"); [|done|by apply ws_not_char|done].
    rewrite !last_unit_app. done.
Qed.

Lemma fields_paren allKeys A B C :
  free is_quote A -> free is_quote B -> free is_quote C ->
  rewrite_fields allKeys (two_quoted (A +:+ "(") B C) = two_quoted (A +:+ "(") B C.
Proof.
  intros HA HB HC. unfold rewrite_fields.
  assert (Hall : forall f, f ∈ fields -> free is_quote f) by apply fields_free_quote.
  induction fields as [|f fs IH]; [done|]. cbn [fold_left]. unfold rewrite_field at 2.
  rewrite !propKey_paren; try done.
  - apply IH. intros f' Hf'. apply Hall. by apply list_elem_of_further.
  - apply Hall. apply list_elem_of_here.
  - apply Hall. apply list_elem_of_here.
Qed.


(** *** The pass over [t('key')] calls *)

Lemma tCall_demands : demands is_quote tCall.
Proof. rewrite tCall_unfold. cbn [demands]. right. right. left. done. Qed.

Lemma ws_head_stop w c rest x :
  all_units is_ws w = true -> is_ws c = false ->
  w +:+ x = String c rest -> w = "" /\ x = String c rest.
Proof.
  intros Hw Hc E. destruct w as [|d w]; [done|]. simpl in *. injection E as -> _.
  by rewrite Hc in Hw.
Qed.

Lemma last_unit_ws w : forall prev,
  w <> "" -> all_units is_ws w = true ->
  exists c, last_unit prev w = Some c /\ is_ws c = true.
Proof.
  induction w as [|d w IH]; intros prev Hne Hw; [done|].
  simpl in Hw. apply andb_true_iff in Hw as [Hd Hw]. simpl.
  destruct w as [|e w]; [by exists d|]. by apply IH.
Qed.

Lemma match_tCall prev k post :
  key_str k ->
  exists st', match_at tCall prev (tcall_text k +:+ post) = Some (tcall_text k, st') /\
              cap_lookup 1 (ms_caps st') = Some k.
Proof.
  intros Hk. unfold match_at.
  set (st0 := MState [] prev (tcall_text k +:+ post)).
  assert (Hsub : ms_rest st0 = "t(" +:+ String sq (k +:+ String sq (")" +:+ post))).
  { unfold st0, tcall_text, literal. cbn [ms_rest]. simpl. by rewrite !append_assoc. }
  assert (Hall : forall t st', (t, st') ∈ run tCall st0 ->
            t = tcall_text k /\ cap_lookup 1 (ms_caps st') = Some k).
  { intros t st' Hin. rewrite tCall_unfold in Hin.
    apply elem_of_run_seq in Hin as (t1 & s1 & u1 & H1 & Hin & ->).
    apply elem_of_run_seq in Hin as (t2 & s2 & u2 & H2 & Hin & ->).
    apply elem_of_run_seq in Hin as (t3 & s3 & u3 & H3 & Hin & ->).
    apply elem_of_run_seq in Hin as (t4 & s4 & u4 & H4 & Hin & ->).
    apply elem_of_run_seq in Hin as (t5 & s5 & u5 & H5 & Hin & ->).
    apply elem_of_run_seq in Hin as (t6 & s6 & t7 & H6 & H7 & ->).
    apply elem_of_run_lit in H1 as (-> & Hr1 & _).
    rewrite Hsub in Hr1. apply (inj (String.app "t(")) in Hr1.
    pose proof (run_consumes _ _ _ _ H2) as Hr2. apply elem_of_run_ws in H2.
    rewrite <- Hr1 in Hr2. symmetry in Hr2.
    apply ws_head_stop in Hr2 as [-> Hr2]; [|done..].
    apply elem_of_run_class in H3 as (c3 & Hc3 & -> & Hr3 & _).
    rewrite Hr2 in Hr3. injection Hr3 as <- Hr3.
    pose proof (run_within _ _ (keyShape_within 1) _ _ _ H4) as Hu4.
    pose proof (run_consumes _ _ _ _ H4) as Hr4.
    pose proof (run_group_cap _ _ _ _ _ H4) as Hc4.
    apply elem_of_run_class in H5 as (c5 & Hc5 & -> & Hr5 & Hcaps5 & _).
    rewrite <- Hr3, Hr5 in Hr4.
    apply split_at_first with (P := key_unit) in Hr4 as (<- & <- & Hr4);
      auto using key_str_units, quote_not_key_unit.
    pose proof (run_consumes _ _ _ _ H6) as Hr6.
    pose proof (run_caps _ _ _ _ 1 H6 ltac:(apply not_elem_of_nil)) as Hcaps6.
    apply elem_of_run_ws in H6.
    rewrite <- Hr4 in Hr6. symmetry in Hr6.
    apply (ws_head_stop t6 ")" post) in Hr6 as [-> Hr6]; [|done..].
    apply elem_of_run_lit in H7 as (-> & _ & Hcaps7).
    split; [|by rewrite Hcaps7, Hcaps6, Hcaps5].
    unfold tcall_text, literal. simpl. by rewrite ?append_assoc. }
  assert (Hex : exists x, x ∈ run tCall st0).
  { destruct (keyShape_complete 1 [] (Some sq) k (String sq (")" +:+ post)) Hk)
      as [[c4 p4 r4] H4].
    pose proof (run_consumes _ _ _ _ H4) as Hr4. cbn [ms_rest] in Hr4.
    apply (inj (String.app k)) in Hr4. subst r4.
    eexists. rewrite tCall_unfold. unfold st0.
    change (tcall_text k +:+ post) with (ms_rest st0). rewrite Hsub.
    eapply seq_complete; [apply (lit_complete "t(")|].
    eapply seq_complete; [apply star_stop|].
    eapply seq_complete; [by apply (class_complete is_quote sq)|].
    eapply seq_complete; [exact H4|].
    eapply seq_complete; [by apply (class_complete is_quote sq)|].
    eapply seq_complete; [apply star_stop|]. apply (lit_complete ")"). }
  destruct Hex as [x Hx]. destruct (head_elem _ _ Hx) as ([t st'] & Hhead & Hin).
  destruct (Hall _ _ Hin) as [-> Hc]. exists st'. done.
Qed.


Lemma length_tcall_text k : String.length (tcall_text k) = S (4 + String.length k).
Proof.
  unfold tcall_text, literal. simpl. rewrite !length_append. simpl. lia.
Qed.

Lemma tcall_two_quoted pre k post :
  pre +:+ tcall_text k +:+ post = two_quoted (pre +:+ "t(") k (")" +:+ post).
Proof.
  unfold tcall_text, two_quoted, literal. simpl. by rewrite ?append_assoc.
Qed.

Lemma rewrite_tCall_call pre k post :
  key_str k -> free is_quote pre -> free is_quote post ->
  rewrite_tCall (pre +:+ tcall_text k +:+ post) =
  pre +:+
  (if test re_brace_end (last_n 10 pre) || test re_brace_start (take 10 post)
      || test re_equals (last_n 10 pre)
   then call k else "{" +:+ call k +:+ "}")
  +:+ post.
Proof.
  intros Hk Hpre Hpost. pose proof (key_str_free_quote k Hk) as Hkq.
  unfold rewrite_tCall, replace_fn.
  set (src := pre +:+ tcall_text k +:+ post). unfold src at 2.
  rewrite replace_from_quiet.
  2:{ intros a b prev' -> Hb. apply match_at_none. intros t st' Hin.
      pose proof (run_consumes _ _ _ _ Hin) as Hr. cbn [ms_rest] in Hr.
      apply elem_of_run_tCall in Hin as (w1 & q1 & body & q2 & tr & Hw1 & Hq1 & Hq2 & ->).
      assert (E : "" +:+ ("t(" +:+ w1) +:+ String q1 (body +:+ String q2 (tr +:+ ms_rest st'))
                  = two_quoted (b +:+ "t(") k (")" +:+ post)).
      { rewrite <- tcall_two_quoted, Hr.
        rewrite ?append_assoc. simpl. by rewrite ?append_assoc. }
      unfold two_quoted in E. apply free_app in Hpre as [Ha Hb'].
      apply two_quote_align in E as (E1 & _);
        [|solve_free; by apply ws_free_quote|solve_free..].
      destruct w1 as [|d w1].
      - apply (f_equal String.length) in E1. rewrite !length_append in E1.
        simpl in E1. destruct b; [done|simpl in E1; lia].
      - eapply (ends_differ "" ("t(" +:+ String d w1) (b +:+ "t") "(" is_ws); [done| |done|].
        + rewrite last_unit_app. by apply last_unit_ws.
        + rewrite E1. by rewrite ?append_assoc. }
  f_equal.
  destruct (match_tCall (last_unit None pre) k post Hk) as (st' & Hm & Hc).
  remember (tcall_text k +:+ post) as subj eqn:Es.
  assert (Es' : subj = String "t" (("(" +:+ literal sq k +:+ ")") +:+ post)).
  { subst subj. unfold tcall_text. simpl. by rewrite ?append_assoc. }
  rewrite Es' at 1. cbn [replace_from Nat.add]. rewrite <- Es', Hm.
  rewrite length_tcall_text.
  pose proof (replace_from_skip tCall tCall_replacer src
                ("(" +:+ literal sq k +:+ ")") (S (String.length pre))
                (Some "t"%char) post) as Hs.
  assert (El : String.length ("(" +:+ literal sq k +:+ ")") = 4 + String.length k).
  { unfold literal. simpl. rewrite !length_append. simpl. lia. }
  rewrite El in Hs. rewrite Hs.
  rewrite (replace_from_demands_tail is_quote) by (done || apply tCall_demands).
  f_equal. unfold tCall_replacer. cbn [mi_text mi_offset mi_src mi_caps].
  unfold group. cbn [mi_caps]. rewrite Hc. cbn [default].
  unfold src at 1 3. rewrite slice_before.
  assert (slice (String.length pre + String.length (tcall_text k))
                (String.length pre + String.length (tcall_text k) + 10) src
          = take 10 post) as ->.
  { unfold src. rewrite Es, <- append_assoc, <- length_append. apply slice_after. }
  done.
Qed.


(** A call [t('k')] of a dotted key, in a source without another quote,
    reaches the preview as the runtime call [__i18n('k')], whatever the
    store holds: bare when the ten units before it end in an opening brace
    or hold an equals sign, or the text after it starts with a closing
    brace, and wrapped in braces otherwise. *)
Theorem t_call_becomes_runtime_call entries pre k post :
  key_str k -> free is_quote pre -> free is_quote post ->
  rewriteWithKeys entries (pre +:+ "t('" +:+ k +:+ "')" +:+ post) =
  pre +:+
  (if test re_brace_end (last_n 10 pre) || test re_brace_start (take 10 post)
      || test re_equals (last_n 10 pre)
   then call k else "{" +:+ call k +:+ "}")
  +:+ post.
Proof.
  intros Hk Hpre Hpost. pose proof (key_str_free_quote k Hk) as Hkq.
  assert (E : pre +:+ "t('" +:+ k +:+ "')" +:+ post = pre +:+ tcall_text k +:+ post).
  { unfold tcall_text, literal. simpl. by rewrite ?append_assoc. }
  rewrite E. unfold rewriteWithKeys, rewrite_literals.
  rewrite tcall_two_quoted.
  change (pre +:+ "t(") with (pre +:+ "t" +:+ "(") at 1.
  rewrite <- (append_assoc pre "t" "("), fold_rewrite_paren by solve_free.
  rewrite (append_assoc pre "t" "(").
  assert (E2 : two_quoted (pre +:+ "t" +:+ "(") k (")" +:+ post)
               = (pre +:+ "t(") +:+ literal sq k +:+ (")" +:+ post)).
  { unfold two_quoted, literal. simpl. by rewrite ?append_assoc. }
  rewrite E2, rewrite_keyLike_literal; [|done|done|solve_free..].
  rewrite guarded_before_t. cbn [orb].
  rewrite <- E2. change (pre +:+ "t" +:+ "(") with (pre +:+ "t(").
  rewrite <- tcall_two_quoted, rewrite_tCall_call by done.
  destruct (_ || _).
  - assert (E3 : pre +:+ call k +:+ post
                 = two_quoted ((pre +:+ "__i18n") +:+ "(") k (")" +:+ post)).
    { unfold two_quoted, call. rewrite ?append_assoc. simpl. by rewrite ?append_assoc. }
    rewrite E3. apply fields_paren; solve_free.
  - assert (E3 : pre +:+ ("{" +:+ call k +:+ "}") +:+ post
                 = two_quoted ((pre +:+ "{__i18n") +:+ "(") k (")}" +:+ post)).
    { unfold two_quoted, call. rewrite ?append_assoc. simpl. by rewrite ?append_assoc. }
    rewrite E3. apply fields_paren; solve_free.
Qed.

Lemma t_call_becomes_runtime_call_witness :
  rewriteWithKeys [sample_submit] "<h1>t('page.title')</h1>"
  = "<h1>{__i18n('page.title')}</h1>".
Proof.
  apply (t_call_becomes_runtime_call [sample_submit] "<h1>" "page.title" "</h1>").
  - exists "page", "title", []. split; [done|]. split; [done|].
    constructor; [done|constructor].
  - reflexivity.
  - reflexivity.
Defined.

End CallFacts.

(* ===================================================================== *)
(** ** A pattern and the text around its matches *)
(* ===================================================================== *)

Module SegmentFacts.
#[local] Arguments String.append !_ _ / : simpl nomatch.
Import Re Js Store Preview Segment ReFacts PreviewFacts LiteralFacts.

(** *** Lists *)

Lemma flat_map_map {A B C} (f : A -> B) (g : B -> list C) (l : list A) :
  flat_map g (map f l) = flat_map (fun x => g (f x)) l.
Proof. induction l as [|a l IH]; [done|]. simpl. by rewrite IH. Qed.

Lemma map_flat_map {A B C} (f : B -> C) (g : A -> list B) (l : list A) :
  map f (flat_map g l) = flat_map (fun x => map f (g x)) l.
Proof. induction l as [|a l IH]; [done|]. simpl. by rewrite map_app, IH. Qed.

Lemma filter_flat_map {A B} (P : B -> bool) (g : A -> list B) (l : list A) :
  List.filter P (flat_map g l) = flat_map (fun x => List.filter P (g x)) l.
Proof. induction l as [|a l IH]; [done|]. simpl. by rewrite List.filter_app, IH. Qed.

Lemma flat_map_ext_elem {A B} (g h : A -> list B) (l : list A) :
  (forall x, x ∈ l -> g x = h x) -> flat_map g l = flat_map h l.
Proof.
  induction l as [|a l IH]; intros H; [done|]. simpl.
  rewrite (H a) by apply list_elem_of_here. rewrite IH; [done|].
  intros x Hx. apply H. by apply list_elem_of_further.
Qed.

Lemma flat_map_filter {A B} (Q : A -> bool) (g : A -> list B) (l : list A) :
  (forall x, Q x = false -> g x = []) ->
  flat_map g l = flat_map g (List.filter Q l).
Proof.
  intros H. induction l as [|a l IH]; [done|]. simpl.
  destruct (Q a) eqn:E; simpl; [by rewrite IH|]. by rewrite (H a E), IH.
Qed.

Lemma filter_map_same {A B} (P : B -> bool) (Q : A -> bool) (g : A -> B) (l : list A) :
  (forall x, P (g x) = Q x) ->
  List.filter P (map g l) = map g (List.filter Q l).
Proof.
  intros H. induction l as [|a l IH]; [done|]. simpl.
  rewrite (H a). destruct (Q a); simpl; by rewrite IH.
Qed.

Lemma filter_all {A} (P : A -> bool) (l : list A) :
  (forall x, x ∈ l -> P x = true) -> List.filter P l = l.
Proof.
  induction l as [|a l IH]; intros H; [done|]. simpl.
  rewrite (H a) by apply list_elem_of_here. rewrite IH; [done|].
  intros x Hx. apply H. by apply list_elem_of_further.
Qed.

(** *** Looking behind *)

Lemma run_seq_pre r1 r2 st :
  run (Seq r1 r2) st = flat_map (fun x => map (prepend x.1) (run r2 x.2)) (run r1 st).
Proof.
  rewrite run_seq. apply flat_map_ext. intros [t1 st1]. simpl.
  apply map_ext. by intros [t2 st2].
Qed.

Lemma star_run_S step fuel st :
  star_run step (S fuel) st
  = flat_map (fun x => map (prepend x.1) (star_body (star_run step fuel) x)) (step st)
    ++ [("", st)].
Proof.
  cbn [star_run]. f_equal. apply flat_map_ext. intros [t1 st1].
  unfold star_body. simpl. destruct t1; [done|]. apply map_ext. by intros [t2 st2].
Qed.

Lemma behind_behind p q st : behind p (behind q st) = behind p st.
Proof. done. Qed.

Lemma reprev_pre p t1 x :
  reprev p (prepend t1 x) = prepend t1 (reprev (last_unit p t1) x).
Proof.
  destruct x as [t2 st2]. unfold reprev, prepend. simpl. by rewrite last_unit_app.
Qed.

Lemma star_run_behind step :
  (forall p st, step (behind p st) = map (reprev p) (step st)) ->
  forall fuel p st,
  star_run step fuel (behind p st) = map (reprev p) (star_run step fuel st).
Proof.
  intros Hstep. induction fuel as [|fuel IH]; intros p st.
  - simpl. unfold reprev, behind. by simpl.
  - rewrite !star_run_S, map_app. f_equal.
    rewrite Hstep, flat_map_map, map_flat_map. apply flat_map_ext.
    intros [t1 st1]. unfold reprev at 1 2. cbn [fst snd]. rewrite map_map.
    unfold star_body. cbn [fst snd]. destruct t1 as [|c t1]; [done|].
    rewrite IH, map_map. apply map_ext. intros x. by rewrite reprev_pre.
Qed.

(** A pattern without [^] and [\b] matches the same way whatever unit is
    behind it. *)
Lemma run_behind r : unanchored r -> forall p st,
  run r (behind p st) = map (reprev p) (run r st).
Proof.
  induction r as [|c|r1 IH1 r2 IH2|r1 IH1 r2 IH2|r IH|n r IH|n| | |]; intros Hu p st;
    try (by destruct Hu).
  - destruct st as [caps q rest]. unfold behind. cbn [ms_caps ms_rest]. rewrite !run_class.
    destruct rest as [|a rest]; [done|]. by destruct (c a).
  - destruct Hu as [Hu1 Hu2]. rewrite !run_seq_pre, IH1 by done.
    rewrite flat_map_map, map_flat_map. apply flat_map_ext. intros [t1 st1].
    unfold reprev at 1 2. cbn [fst snd]. rewrite IH2 by done. rewrite !map_map.
    apply map_ext. intros x. by rewrite reprev_pre.
  - destruct Hu as [Hu1 Hu2]. rewrite !run_alt, map_app. by rewrite IH1, IH2.
  - cbn [run]. unfold behind at 1. cbn [ms_rest].
    apply (star_run_behind (run r)). intros. by apply IH.
  - cbn [run]. rewrite IH by done. rewrite !map_map. apply map_ext. by intros [t st'].
  - destruct st as [caps q rest]. unfold behind. cbn [run ms_caps ms_rest ms_prev].
    destruct (cap_lookup n caps) as [x|]; [|reflexivity].
    destruct (strip_prefix x rest); reflexivity.
Qed.

Lemma outcome_head_map (g : string * mstate -> string * mstate) l :
  (forall x, (g x).1 = x.1 /\ ms_caps (g x).2 = ms_caps x.2) ->
  outcome (head (map g l)) = outcome (head l).
Proof.
  intros H. destruct l as [|[t st] l]; [done|]. simpl.
  destruct (H (t, st)) as [H1 H2]. destruct (g (t, st)) as [t' st']. simpl in *.
  by rewrite H1, H2.
Qed.

Lemma match_at_behind r p p' rest :
  unanchored r -> outcome (match_at r p rest) = outcome (match_at r p' rest).
Proof.
  intros Hu. unfold match_at.
  change (MState [] p rest) with (behind p (MState [] p' rest)).
  rewrite run_behind by done. apply outcome_head_map. by intros [t st].
Qed.

(** *** Looking ahead *)

Lemma short_pre n t1 x :
  String.length t1 <= n -> short n (prepend t1 x) = short (n - String.length t1) x.
Proof.
  intros H. unfold short, prepend. cbn [fst]. rewrite length_append.
  destruct (Nat.leb_spec (String.length t1 + String.length x.1) n);
    destruct (Nat.leb_spec (String.length x.1) (n - String.length t1)); try done; lia.
Qed.

Lemma short_pre_long n t1 x : n < String.length t1 -> short n (prepend t1 x) = false.
Proof.
  intros H. unfold short, prepend. cbn [fst]. rewrite length_append.
  apply Nat.leb_gt. lia.
Qed.

Lemma lift_pre u t1 x : lift u (prepend t1 x) = prepend t1 (lift u x).
Proof. by destruct x. Qed.

(** The step shared by a sequence and a star: what follows a first part
    is cut to the subject in the same way. *)
Lemma filter_bind (k k' : string * mstate -> list (string * mstate)) u n lfull l :
  List.filter (short n) lfull = map (lift u) l ->
  (forall x, x ∈ l -> n = String.length x.1 + String.length (ms_rest x.2)) ->
  (forall x, x ∈ l ->
     List.filter (short (String.length (ms_rest x.2))) (k (lift u x)) = map (lift u) (k' x)) ->
  List.filter (short n) (flat_map (fun x => map (prepend x.1) (k x)) lfull)
  = map (lift u) (flat_map (fun x => map (prepend x.1) (k' x)) l).
Proof.
  intros Hl Hn Hk. rewrite filter_flat_map.
  rewrite (flat_map_filter (short n)).
  2:{ intros [t1 st1] Hlong. cbn [fst]. unfold short in Hlong. cbn [fst] in Hlong.
      apply Nat.leb_gt in Hlong.
      induction (k (t1, st1)) as [|y ys IH]; [done|]. simpl.
      by rewrite short_pre_long, IH. }
  rewrite Hl, flat_map_map, map_flat_map. apply flat_map_ext_elem.
  intros [t1 st1] Hx. unfold lift at 1. cbn [fst snd].
  pose proof (Hn _ Hx) as Hlen. cbn [fst snd] in Hlen.
  rewrite (filter_map_same _ (short (String.length (ms_rest st1)))).
  2:{ intros y. rewrite short_pre by lia. f_equal. lia. }
  change (t1, ahead u st1) with (lift u (t1, st1)).
  pose proof (Hk _ Hx) as Hk'. cbn [fst snd] in Hk'.
  rewrite Hk', !map_map. apply map_ext. intros y. by rewrite lift_pre.
Qed.

Lemma star_run_ahead step u :
  (forall st t st', (t, st') ∈ step st -> ms_rest st = t +:+ ms_rest st') ->
  (forall st, List.filter (short (String.length (ms_rest st))) (step (ahead u st))
              = map (lift u) (step st)) ->
  forall fuel st big,
  String.length (ms_rest st) < fuel ->
  String.length (ms_rest st) + String.length u < big ->
  List.filter (short (String.length (ms_rest st))) (star_run step big (ahead u st))
  = map (lift u) (star_run step fuel st).
Proof.
  intros Hcons Hstep. induction fuel as [|fuel IH]; intros st big Hf Hb; [lia|].
  destruct big as [|big]; [lia|].
  rewrite !star_run_S, List.filter_app, map_app. f_equal.
  apply filter_bind.
  - apply Hstep.
  - intros [t1 st1] Hx. cbn [fst snd]. rewrite (Hcons _ _ _ Hx), length_append. lia.
  - intros [t1 st1] Hx. unfold lift at 1. unfold star_body. cbn [fst snd].
    destruct t1 as [|c t1]; [done|].
    pose proof (Hcons _ _ _ Hx) as Hlen. apply (f_equal String.length) in Hlen.
    rewrite length_append in Hlen. cbn [String.length] in Hlen.
    apply IH; lia.
Qed.

Lemma strip_prefix_some x : forall s r, strip_prefix x s = Some r -> s = x +:+ r.
Proof.
  induction x as [|a x IH]; intros s r H; simpl in H.
  - by injection H as <-.
  - destruct s as [|b s]; [done|]. destruct (Ascii.eqb_spec a b) as [->|]; [|done].
    simpl. f_equal. by apply IH.
Qed.

Lemma strip_prefix_ahead x u : forall s r,
  strip_prefix x s = Some r -> strip_prefix x (s +:+ u) = Some (r +:+ u).
Proof.
  intros s r H. apply strip_prefix_some in H as ->.
  by rewrite append_assoc, strip_prefix_app.
Qed.

Lemma strip_prefix_long x u : forall s r,
  strip_prefix x s = None -> strip_prefix x (s +:+ u) = Some r ->
  String.length s < String.length x.
Proof.
  induction x as [|a x IH]; intros s r Hn Hs; [done|].
  destruct s as [|b s]; [simpl; lia|]. simpl in *.
  destruct (Ascii.eqb a b); [|done]. apply IH in Hs; [lia|done].
Qed.

(** A pattern without [$] and [] matches within the text it is given in
    the same ways, and in the same order, whatever follows that text. *)
Lemma run_ahead r u : unanchored r -> forall st,
  List.filter (short (String.length (ms_rest st))) (run r (ahead u st))
  = map (lift u) (run r st).
Proof.
  induction r as [|c|r1 IH1 r2 IH2|r1 IH1 r2 IH2|r IH|n r IH|n| | |]; intros Hu st;
    try (by destruct Hu).
  - destruct st as [caps q rest]. unfold ahead. cbn [ms_caps ms_rest ms_prev].
    rewrite !run_class. destruct rest as [|a rest].
    + simpl. destruct u as [|b u]; [done|]. by destruct (c b).
    + simpl. by destruct (c a).
  - destruct Hu as [Hu1 Hu2]. rewrite !run_seq_pre. apply filter_bind.
    + by apply IH1.
    + intros [t1 st1] Hx. cbn [fst snd]. rewrite (run_consumes _ _ _ _ Hx), length_append. lia.
    + intros [t1 st1] Hx. unfold lift at 1. cbn [fst snd]. by apply IH2.
  - destruct Hu as [Hu1 Hu2]. rewrite !run_alt, List.filter_app, map_app.
    by rewrite IH1, IH2.
  - cbn [run]. apply star_run_ahead.
    + apply run_consumes.
    + intros. by apply IH.
    + lia.
    + unfold ahead. cbn [ms_rest]. rewrite length_append. lia.
  - cbn [run]. rewrite (filter_map_same _ (short (String.length (ms_rest st)))).
    2:{ by intros [t st']. }
    rewrite IH by done. rewrite !map_map. apply map_ext. by intros [t st'].
  - destruct st as [caps q rest]. unfold ahead. cbn [run ms_caps ms_rest ms_prev].
    destruct (cap_lookup n caps) as [x|]; [|reflexivity].
    destruct (strip_prefix x rest) as [r|] eqn:E.
    + rewrite (strip_prefix_ahead _ _ _ _ E). apply strip_prefix_some in E as ->.
      simpl. unfold short. cbn [fst]. rewrite length_append.
      destruct (Nat.leb_spec (String.length x) (String.length x + String.length r)); [done|lia].
    + destruct (strip_prefix x (rest +:+ u)) as [r|] eqn:E2; [|done].
      pose proof (strip_prefix_long _ _ _ _ E E2) as Hl. simpl. unfold short. cbn [fst].
      destruct (Nat.leb_spec (String.length x) (String.length rest)); [lia|done].
Qed.

(** A subject [a +:+ u] in which no match from its start spills over
    [a]: the matches are those on [a]. *)
Lemma run_ahead_sealed r u caps p a :
  unanchored r ->
  (forall t st', (t, st') ∈ run r (MState caps p (a +:+ u)) -> String.length t <= String.length a) ->
  run r (MState caps p (a +:+ u)) = map (lift u) (run r (MState caps p a)).
Proof.
  intros Hu Hs. rewrite <- (run_ahead r u Hu (MState caps p a)).
  unfold ahead. cbn [ms_caps ms_prev ms_rest]. symmetry. apply filter_all.
  intros [t st'] Hx. unfold short. cbn [fst]. apply Nat.leb_le. by apply (Hs t st').
Qed.

Lemma match_at_ahead r u p a :
  unanchored r ->
  (forall t st', (t, st') ∈ run r (MState [] p (a +:+ u)) -> String.length t <= String.length a) ->
  outcome (match_at r p (a +:+ u)) = outcome (match_at r p a).
Proof.
  intros Hu Hs. unfold match_at. rewrite run_ahead_sealed by done.
  apply outcome_head_map. by intros [t st].
Qed.

(** *** The scan of [replace], cut at a boundary *)


Lemma head_some_elem {A} (l : list A) x : head l = Some x -> x ∈ l.
Proof. destruct l; [done|]. intros [= ->]. apply list_elem_of_here. Qed.

Lemma match_at_elem r p b t st :
  match_at r p b = Some (t, st) -> (t, st) ∈ run r (MState [] p b).
Proof. apply head_some_elem. Qed.

Lemma outcome_some x t caps :
  outcome x = Some (t, caps) -> exists st, x = Some (t, st) /\ ms_caps st = caps.
Proof. destruct x as [[t' st]|]; [|done]. intros [= -> <-]. eauto. Qed.

Lemma outcome_none x : outcome x = None -> x = None.
Proof. by destruct x as [[t' st]|]. Qed.

(** The scan over [A +:+ R], when no match that starts in [A] reaches
    [R]: it is the scan over [A] alone, then the scan over [R].  The
    replacer may be read on another subject for [A], as long as it gives
    the same text for every match there. *)
Lemma replace_from_left r f f' src src' R :
  unanchored r -> nonempty r ->
  forall A pos pos' prev prev' skip,
  skip <= String.length A ->
  (forall a1 a2 p t st', A = a1 +:+ a2 -> a2 <> "" ->
     (t, st') ∈ run r (MState [] p (a2 +:+ R)) -> String.length t <= String.length a2) ->
  (forall a1 a2 p t st', A = a1 +:+ a2 ->
     (t, st') ∈ run r (MState [] p a2) ->
     f (MInfo t (ms_caps st') (pos + String.length a1) src)
     = f' (MInfo t (ms_caps st') (pos' + String.length a1) src')) ->
  replace_from r f src pos prev (A +:+ R) skip
  = replace_from r f' src' pos' prev' A skip
    +:+ replace_from r f src (pos + String.length A) (last_unit prev A) R 0.
Proof.
  intros Hu Hne. induction A as [|c A IH]; intros pos pos' prev prev' skip Hskip Hseal Hagree.
  - simpl in Hskip. assert (skip = 0) as -> by lia. cbn [String.length last_unit].
    rewrite Nat.add_0_r. cbn [replace_from].
    unfold match_at. rewrite (Hne [] prev'). done.
  - assert (Hseal' : forall a1 a2 p t st', A = a1 +:+ a2 -> a2 <> "" ->
              (t, st') ∈ run r (MState [] p (a2 +:+ R)) -> String.length t <= String.length a2).
    { intros a1 a2 p t st' -> Ha2 Hin. by apply (Hseal (String c a1) a2 p t st'). }
    assert (Hagree' : forall a1 a2 p t st', A = a1 +:+ a2 ->
              (t, st') ∈ run r (MState [] p a2) ->
              f (MInfo t (ms_caps st') (S pos + String.length a1) src)
              = f' (MInfo t (ms_caps st') (S pos' + String.length a1) src')).
    { intros a1 a2 p t st' -> Hin.
      pose proof (Hagree (String c a1) a2 p t st' eq_refl Hin) as H.
      cbn [String.length] in H. by rewrite !Nat.add_succ_r in H. }
    cbn [String.length last_unit]. rewrite Nat.add_succ_r.
    change (String c A +:+ R) with (String c (A +:+ R)).
    destruct skip as [|skip].
    + cbn [replace_from].
      assert (Ho : outcome (match_at r prev (String c (A +:+ R)))
                   = outcome (match_at r prev' (String c A))).
      { change (String c (A +:+ R)) with (String c A +:+ R).
        rewrite match_at_ahead; [by apply match_at_behind|done|].
        intros t st' Hin. by apply (Hseal "" (String c A) prev t st'). }
      destruct (match_at r prev' (String c A)) as [[t st']|] eqn:E'.
      * cbn [outcome] in Ho. apply outcome_some in Ho as (st & -> & Hcaps).
        pose proof (match_at_elem _ _ _ _ _ E') as Hin.
        pose proof (Hagree "" (String c A) prev' t st' eq_refl Hin) as Hf.
        cbn [String.length] in Hf. rewrite !Nat.add_0_r in Hf.
        rewrite Hcaps, Hf, append_assoc. f_equal.
        pose proof (run_consumes _ _ _ _ Hin) as Hc. cbn [ms_rest] in Hc.
        apply (f_equal String.length) in Hc. rewrite length_append in Hc.
        cbn [String.length] in Hc.
        destruct (String.length t) as [|n].
        -- change (String c ?x +:+ ?y) with (String c (x +:+ y)). f_equal.
           apply IH; [lia|done|done].
        -- apply IH; [lia|done|done].
      * cbn [outcome] in Ho. apply outcome_none in Ho as ->.
        change (String c ?x +:+ ?y) with (String c (x +:+ y)). f_equal.
        apply IH; [lia|done|done].
    + cbn [replace_from]. apply IH; [simpl in Hskip; lia|done|done].
Qed.

(** The scan over the last stretch of a subject is the scan over that
    stretch alone, when the replacer gives the same text there. *)
Lemma replace_from_alone r f f' src src' :
  unanchored r -> nonempty r ->
  forall A pos prev,
  (forall a1 a2 p t st', A = a1 +:+ a2 ->
     (t, st') ∈ run r (MState [] p a2) ->
     f (MInfo t (ms_caps st') (pos + String.length a1) src)
     = f' (MInfo t (ms_caps st') (String.length a1) src')) ->
  replace_from r f src pos prev A 0 = replace_from r f' src' 0 None A 0.
Proof.
  intros Hu Hne A pos prev Hagree.
  pose proof (replace_from_left r f f' src src' "" Hu Hne A pos 0 prev None 0) as H.
  rewrite !append_nil_r in H. rewrite H; [| lia | |].
  - cbn [replace_from]. unfold match_at. rewrite (Hne [] _). by rewrite append_nil_r.
  - intros a1 a2 p t st' -> Ha2 Hin. rewrite append_nil_r in Hin.
    pose proof (run_consumes _ _ _ _ Hin) as Hc. cbn [ms_rest] in Hc.
    apply (f_equal String.length) in Hc. rewrite length_append in Hc. lia.
  - intros a1 a2 p t st' E Hin. by apply (Hagree a1 a2 p t st').
Qed.

(** The scan at a match. *)
Lemma replace_from_hit r f src pos prev t st R :
  match_at r prev (t +:+ R) = Some (t, st) -> t <> "" ->
  replace_from r f src pos prev (t +:+ R) 0
  = f (MInfo t (ms_caps st) pos src)
    +:+ replace_from r f src (pos + String.length t) (last_unit prev t) R 0.
Proof.
  intros Hm Hne. destruct t as [|c t]; [done|].
  change (String c t +:+ R) with (String c (t +:+ R)) in *.
  cbn [replace_from]. rewrite Hm. f_equal. cbn [String.length last_unit].
  rewrite replace_from_skip. by rewrite Nat.add_succ_r.
Qed.

(** *** Stretches where no match starts *)







(** *** One pass around a segment *)

(** A match that starts before a unit it cannot hold past its first
    unit ends before it. *)
Lemma stops_before (P : ascii -> bool) t rest' a2 c s :
  a2 <> "" -> P c = true -> free P (drop 1 t) ->
  t +:+ rest' = a2 +:+ String c s -> String.length t <= String.length a2.
Proof.
  intros Ha2 Hc Hfree E.
  destruct (app_eq_cases _ _ _ _ E) as [(z & -> & E2)|(z & -> & E2)].
  - rewrite length_append. lia.
  - destruct z as [|d z]; [rewrite append_nil_r; lia|].
    change (String d z +:+ ?x) with (String d (z +:+ x)) in E2.
    injection E2 as <- E2.
    destruct a2 as [|e a2]; [done|]. simpl in Hfree.
    apply free_app in Hfree as [_ Hfree]. apply free_cons in Hfree as [Hc' _]. congruence.
Qed.

(** One pass around a segment: what is before it and what is after it
    are rewritten as they are alone. *)
Lemma replace_fn_around r f pre seg seg' post :
  unanchored r -> nonempty r ->
  (forall a1 a2 p t st', pre = a1 +:+ a2 -> a2 <> "" ->
     (t, st') ∈ run r (MState [] p (a2 +:+ seg +:+ post)) ->
     String.length t <= String.length a2) ->
  (forall a1 a2 p t st', pre = a1 +:+ a2 ->
     (t, st') ∈ run r (MState [] p a2) ->
     f (MInfo t (ms_caps st') (String.length a1) (pre +:+ seg +:+ post))
     = f (MInfo t (ms_caps st') (String.length a1) pre)) ->
  (exists prev',
     replace_from r f (pre +:+ seg +:+ post) (String.length pre) (last_unit None pre)
       (seg +:+ post) 0
     = seg' +:+ replace_from r f (pre +:+ seg +:+ post)
                  (String.length pre + String.length seg) prev' post 0) ->
  (forall a1 a2 p t st', post = a1 +:+ a2 ->
     (t, st') ∈ run r (MState [] p a2) ->
     f (MInfo t (ms_caps st') (String.length pre + String.length seg + String.length a1)
          (pre +:+ seg +:+ post))
     = f (MInfo t (ms_caps st') (String.length a1) post)) ->
  replace_fn r f (pre +:+ seg +:+ post)
  = replace_fn r f pre +:+ seg' +:+ replace_fn r f post.
Proof.
  intros Hu Hne Hseal Hpre (prev' & Hmid) Hpost. unfold replace_fn.
  rewrite (replace_from_left r f f (pre +:+ seg +:+ post) pre (seg +:+ post) Hu Hne
             pre 0 0 None None 0); [|lia| |].
  - f_equal. cbn [Nat.add]. rewrite Hmid. f_equal.
    apply replace_from_alone; [done..|].
    intros a1 a2 p t st' E Hin. by apply (Hpost a1 a2 p t st').
  - intros a1 a2 p t st' E Ha2 Hin. by apply (Hseal a1 a2 p t st').
  - intros a1 a2 p t st' E Hin. cbn [Nat.add]. by apply (Hpre a1 a2 p t st').
Qed.

Lemma replace_fn_carries r f seg seg' :
  unanchored r -> nonempty r ->
  (forall post a2 p t st', a2 <> "" ->
     (t, st') ∈ run r (MState [] p (a2 +:+ seg +:+ post)) ->
     String.length t <= String.length a2) ->
  (forall pre post a1 a2 p t st', pre = a1 +:+ a2 ->
     (t, st') ∈ run r (MState [] p a2) ->
     f (MInfo t (ms_caps st') (String.length a1) (pre +:+ seg +:+ post))
     = f (MInfo t (ms_caps st') (String.length a1) pre)) ->
  (forall pre post, exists prev',
     replace_from r f (pre +:+ seg +:+ post) (String.length pre) (last_unit None pre)
       (seg +:+ post) 0
     = seg' +:+ replace_from r f (pre +:+ seg +:+ post)
                  (String.length pre + String.length seg) prev' post 0) ->
  (forall pre post a1 a2 p t st', post = a1 +:+ a2 ->
     (t, st') ∈ run r (MState [] p a2) ->
     f (MInfo t (ms_caps st') (String.length pre + String.length seg + String.length a1)
          (pre +:+ seg +:+ post))
     = f (MInfo t (ms_caps st') (String.length a1) post)) ->
  carries (replace_fn r f) seg seg'.
Proof.
  intros Hu Hne Hseal Hpre Hmid Hpost pre post. apply replace_fn_around; try done.
  - intros a1 a2 p t st' _. apply Hseal.
  - apply Hpre.
  - apply Hpost.
Qed.


Lemma carries_passes F s s' : carries F s s' -> passes F s s'.
Proof. intros H pre post. rewrite H. by eexists _, _. Qed.



Lemma carries_id s : carries (fun x => x) s s.
Proof. by intros pre post. Qed.

Lemma carries_compose F G s s' s'' :
  carries F s s' -> carries G s' s'' -> carries (fun x => G (F x)) s s''.
Proof. intros HF HG pre post. by rewrite HF, HG. Qed.

End SegmentFacts.

(* ===================================================================== *)
(** ** The windows the replacers read *)
(* ===================================================================== *)

Module WindowFacts.
#[local] Arguments String.append !_ _ / : simpl nomatch.
Import Re Js Store Preview Segment ReFacts PreviewFacts LiteralFacts SegmentFacts.

(** *** What [test] finds *)















(** *** Windows next to a segment *)

Lemma take_app_le n a x : n <= String.length a -> take n (a +:+ x) = take n a.
Proof.
  revert a. induction n as [|n IH]; intros a H; [by destruct a|].
  destruct a as [|c a]; [simpl in H; lia|]. simpl. f_equal. apply IH. simpl in H. lia.
Qed.






Lemma slice_app_le from to a x :
  to <= String.length a -> slice from to (a +:+ x) = slice from to a.
Proof.
  intros H. unfold slice. destruct (Nat.le_gt_cases from to) as [Hle|Hgt].
  - rewrite drop_app_le by lia. apply take_app_le. rewrite length_drop. lia.
  - replace (to - from) with 0 by lia. by destruct (drop from (a +:+ x)), (drop from a).
Qed.















End WindowFacts.

(* ===================================================================== *)
(** ** What the patterns of the rewriter match *)
(* ===================================================================== *)

Module PatternFacts.
#[local] Arguments String.append !_ _ / : simpl nomatch.
Import Re Js Store Preview Segment ReFacts PreviewFacts LiteralFacts SegmentFacts WindowFacts.

(** *** The patterns of the rewriter look neither behind nor ahead *)

Lemma unanchored_lit x : unanchored (Lit x).
Proof. induction x; simpl; auto. Qed.

Lemma unanchored_wrapped o c q T : unanchored (wrapped o c q T).
Proof. rewrite wrapped_unfold. cbn [unanchored ws]. auto 10 using unanchored_lit. Qed.









(** *** What the patterns match *)











(** *** The wrapped literals *)





(** At the literal of [T] the pattern of [T'] matches when [T' = T], and
    then it matches the literal, no more. *)
Lemma exprLiteral_at T' T post caps p t st' :
  free (is_char sq) T -> free (is_char sq) T' ->
  (t, st') ∈ run (exprLiteral sq T') (MState caps p ("{'" +:+ T +:+ "'}" +:+ post)) ->
  T' = T /\ t = "{'" +:+ T +:+ "'}".
Proof.
  intros HT HT' Hin.
  pose proof (run_consumes _ _ _ _ Hin) as Hc. cbn [ms_rest] in Hc.
  apply elem_of_run_wrapped in Hin as (w1 & w2 & Hw1 & Hw2 & ->). simpl in Hc.
  injection Hc as Hc. destruct w1 as [|e w1]; simpl in Hc.
  2:{ injection Hc as He _. subst e. by simpl in Hw1. }
  apply (f_equal (drop 1)) in Hc. simpl in Hc.
  rewrite !append_assoc in Hc. simpl in Hc.
  apply split_at_first with (P := fun c => negb (is_char sq c)) in Hc
    as (-> & _ & Hc); [|done..].
  split; [done|]. destruct w2 as [|e w2]; [done|].
  simpl in Hc. injection Hc as <- _. by simpl in Hw2.
Qed.

Lemma exprLiteral_exists T post p :
  exists st', ("{'" +:+ T +:+ "'}", st')
    ∈ run (exprLiteral sq T) (MState [] p ("{'" +:+ T +:+ "'}" +:+ post)).
Proof.
  eexists. unfold exprLiteral. rewrite wrapped_unfold.
  assert (E : "{'" +:+ T +:+ "'}" +:+ post = "{" +:+ String sq (T +:+ String sq ("}" +:+ post))).
  { simpl. by rewrite ?append_assoc. }
  assert (E2 : "{'" +:+ T +:+ "'}" = "{" +:+ "" +:+ (String sq (T +:+ String sq "")) +:+ "" +:+ "}").
  { simpl. by rewrite ?append_assoc. }
  rewrite E, E2.
  eapply seq_complete; [apply (lit_complete "{")|].
  eapply seq_complete; [apply star_stop|].
  eapply seq_complete.
  - change (String sq (T +:+ String sq "")) with (String sq "" +:+ T +:+ String sq "").
    eapply seq_complete; [by apply class_complete|].
    eapply seq_complete; [apply lit_complete|]. by apply class_complete.
  - eapply seq_complete; [apply star_stop|]. apply (lit_complete "}").
Qed.

Lemma exprLiteral_match_at T post p :
  free (is_char sq) T ->
  exists st', match_at (exprLiteral sq T) p ("{'" +:+ T +:+ "'}" +:+ post)
              = Some ("{'" +:+ T +:+ "'}", st').
Proof.
  intros HT. destruct (exprLiteral_exists T post p) as [st0 Hex].
  destruct (head_elem _ _ Hex) as ([t st'] & Hhead & Hin).
  apply exprLiteral_at in Hin as [_ ->]; [|done..]. by exists st'.
Qed.

End PatternFacts.

(* ===================================================================== *)
(** ** The loop over the stored texts, around one literal *)
(* ===================================================================== *)

Module PassFacts.
#[local] Arguments String.append !_ _ / : simpl nomatch.
Import Re Js Store Preview Segment ReFacts PreviewFacts LiteralFacts SegmentFacts WindowFacts
  PatternFacts.

(** *** A pass with a template, around a segment *)

Lemma seal_left_brace r s :
  (forall st t st', (t, st') ∈ run r st -> free (is_char "{") (drop 1 t)) ->
  forall post a2 p t st', a2 <> "" ->
    (t, st') ∈ run r (MState [] p (a2 +:+ String "{" s +:+ post)) ->
    String.length t <= String.length a2.
Proof.
  intros Hin post a2 p t st' Ha2 Hrun.
  pose proof (run_consumes _ _ _ _ Hrun) as Hc. cbn [ms_rest] in Hc.
  apply (stops_before (is_char "{") t (ms_rest st') a2 "{" (s +:+ post)); [done|done| |done].
  by apply (Hin _ _ _ Hrun).
Qed.



Lemma carries_template_hit r tpl s :
  unanchored r -> nonempty r -> free (is_char "$") tpl ->
  (forall st t st', (t, st') ∈ run r st -> free (is_char "{") (drop 1 t)) ->
  (forall post p, exists st, match_at r p (String "{" s +:+ post) = Some (String "{" s, st)) ->
  carries (replace r tpl) (String "{" s) tpl.
Proof.
  intros Hu Hne Htpl Hin Hhit. unfold replace. apply replace_fn_carries; try done.
  - by apply seal_left_brace.
  - intros. by rewrite !template_fn_plain.
  - intros pre post. destruct (Hhit post (last_unit None pre)) as [st Hm].
    rewrite (replace_from_hit _ _ _ _ _ _ _ _ Hm) by done.
    rewrite template_fn_plain by done. by eexists.
  - intros. by rewrite !template_fn_plain.
Qed.

Lemma ws_free w (P : ascii -> bool) :
  (forall c, is_ws c = true -> P c = false) -> all_units is_ws w = true -> free P w.
Proof.
  intros HP Hw. unfold free. revert Hw. apply all_units_impl. intros c Hc.
  by rewrite (HP c Hc).
Qed.

Lemma ws_not_brace c : is_ws c = true -> is_char "{" c = false.
Proof. intros Hc. destruct (Ascii.eqb_spec "{" c) as [<-|]; [done|]. unfold is_char. by apply Ascii.eqb_neq. Qed.

Lemma quote_not_brace q : is_quote q = true -> is_char "{" q = false.
Proof. by intros [-> | ->]%quote_cases. Qed.

Lemma wrapped_inner oc c q T :
  is_quote q = true -> free (is_char "{") T -> free (is_char "{") c ->
  forall st t st', (t, st') ∈ run (wrapped (String oc "") c q T) st ->
    free (is_char "{") (drop 1 t).
Proof.
  intros Hq HT Hc st t st' Hin.
  apply elem_of_run_wrapped in Hin as (w1 & w2 & Hw1 & Hw2 & ->). simpl.
  pose proof (quote_not_brace q Hq).
  repeat first [ done | (apply free_app; split) | (apply free_cons; split)
               | by apply (ws_free _ _ ws_not_brace) ].
Qed.


Lemma src_eq T : "{'" +:+ T +:+ "'}" = String "{" (String sq (T +:+ "'}")).
Proof. done. Qed.

Lemma src_post_eq T post :
  String "{" ((String sq (T +:+ "'}")) +:+ post) = "{'" +:+ T +:+ "'}" +:+ post.
Proof. simpl. by rewrite append_assoc. Qed.












Lemma exprLiteral_carries_hit T tpl :
  free (is_char "$") tpl -> free (is_char "{") T -> free (is_char sq) T ->
  carries (replace (exprLiteral sq T) tpl) ("{'" +:+ T +:+ "'}") tpl.
Proof.
  intros Htpl HT HTq. rewrite src_eq. unfold exprLiteral. apply carries_template_hit; try done.
  - apply unanchored_wrapped.
  - by apply wrapped_inner.
  - intros post p. destruct (exprLiteral_match_at T post p HTq) as [st Hm]. exists st.
    change (String "{" (String sq (T +:+ "'}")) +:+ post)
      with (String "{" ((String sq (T +:+ "'}")) +:+ post)).
    by rewrite src_post_eq.
Qed.

Lemma exprLiteral_passes_hit T tpl :
  free (is_char "$") tpl -> free (is_char "{") T -> free (is_char sq) T ->
  passes (replace (exprLiteral sq T) tpl) ("{'" +:+ T +:+ "'}") tpl.
Proof. intros. apply carries_passes. by apply exprLiteral_carries_hit. Qed.

(** *** The loop over the stored texts *)













End PassFacts.

(* ===================================================================== *)
(** ** The pass over bare keys, around a call *)
(* ===================================================================== *)

Module KeyPassFacts.
#[local] Arguments String.append !_ _ / : simpl nomatch.
Import Re Js Store Preview Segment ReFacts PreviewFacts LiteralFacts SegmentFacts WindowFacts
  PatternFacts PassFacts.

(** *** The replacer of the pass over bare keys, next to a segment *)




(** *** The pass over bare keys around a call *)











End KeyPassFacts.

(* ===================================================================== *)
(** ** The passes over calls and fields, around a call *)
(* ===================================================================== *)

Module CallPassFacts.
#[local] Arguments String.append !_ _ / : simpl nomatch.
Import Re Js Store Preview Segment ReFacts PreviewFacts LiteralFacts SegmentFacts WindowFacts
  PatternFacts PassFacts KeyPassFacts.

(** *** The passes over [t(...)] and over the fields, around a call *)














(** *** The replacers *)




(** *** The two passes *)







End CallPassFacts.

(* ===================================================================== *)
(** ** The guards of the pass over bare keys *)
(* ===================================================================== *)

Module GuardFacts.
#[local] Arguments String.append !_ _ / : simpl nomatch.
Import Re Js Store Preview Segment ReFacts PreviewFacts LiteralFacts SegmentFacts WindowFacts
  PatternFacts PassFacts KeyPassFacts CallPassFacts.

(** *** The guards in words *)
















(** *** The pass over bare keys around a quoted key *)






End GuardFacts.

(* ===================================================================== *)
(** ** The rewriter on any source *)
(* ===================================================================== *)

Module RewriterClaims.
#[local] Arguments String.append !_ _ / : simpl nomatch.
Import Re Js Store Preview Segment ReFacts PreviewFacts LiteralFacts SegmentFacts WindowFacts
  PatternFacts PassFacts KeyPassFacts CallPassFacts GuardFacts.




(** Where the key holds [=], or another key holds a dollar pattern, the
    call still stands in the place of the literal, but what is around it
    is not rewritten as it is on its own. *)
Lemma context_is_read_through_the_call :
  rewriteWithKeys [row "a=b" "Hi"] "{'Hi'}t('x.y')" = "{__i18n('a=b')}__i18n('x.y')" /\
  rewriteWithKeys [row "a=b" "Hi"] "t('x.y')" = "{__i18n('x.y')}" /\
  rewriteWithKeys [row "x$'y" "Yo"; row "k" "Hi"] "{'Yo'}{'Hi'}"
    = "{__i18n('x{__i18n('k')}y')}{__i18n('k')}" /\
  rewriteWithKeys [row "x$'y" "Yo"; row "k" "Hi"] "{'Yo'}" = "{__i18n('xy')}".
Proof. repeat split; by vm_compute. Qed.




(** A quote that closes a quoted key opens no literal. *)
Lemma closing_quote_opens_no_literal :
  rewrite_keyLike ["a.b"; "c.d"] "x = 'a.b'c.d';" = "x = {__i18n('a.b')}c.d';".
Proof. by vm_compute. Qed.

End RewriterClaims.

(* ===================================================================== *)
(** ** The locale tag and the derived name *)
(* ===================================================================== *)

Module ChatFacts.
#[local] Arguments String.append !_ _ / : simpl nomatch.
Import Re Js Store Chat ReFacts PreviewFacts.

(** *** The first match of a pattern *)

Lemma search_from_region r src P :
  opens P r -> forall pre pos prev rest,
  free P pre ->
  search_from r src pos prev (pre +:+ rest)
  = search_from r src (pos + String.length pre) (last_unit prev pre) rest.
Proof.
  intros Hop. induction pre as [|c pre IH]; intros pos prev rest Hfree.
  - simpl. by rewrite Nat.add_0_r.
  - unfold free in Hfree. simpl in Hfree. apply andb_true_iff in Hfree as [Hc Hfree].
    simpl. unfold match_at. pose proof (Hop [] prev (String c (pre +:+ rest))) as Hrun.
    simpl in Hrun. rewrite Hrun by (by destruct (P c)). simpl.
    rewrite IH by done.
    by replace (pos + S (String.length pre)) with (S pos + String.length pre) by lia.
Qed.

Lemma search_from_hit r src pos prev rest t st :
  match_at r prev rest = Some (t, st) ->
  search_from r src pos prev rest = Some (MInfo t (ms_caps st) pos src).
Proof. intros H. destruct rest; simpl; by rewrite H. Qed.

Lemma is_char_i_paren c : is_char_i "(" c = is_char "(" c.
Proof. by destruct c as [[] [] [] [] [] [] [] []]. Qed.

Lemma localeTag_opens : opens (is_char "(") localeTag.
Proof.
  intros caps prev [|c rest].
  - reflexivity.
  - intros Hc. unfold localeTag. cbn [seqs Lit_i]. rewrite !run_seq.
    cbn [run ms_rest]. by rewrite is_char_i_paren, Hc.
Qed.

Lemma match_at_tag prev l post :
  l ∈ validLocales ->
  exists st, match_at localeTag prev (tag_of l +:+ post) = Some (tag_of l, st) /\
             cap_lookup 1 (ms_caps st) = Some l.
Proof.
  unfold validLocales. intros Hl.
  repeat (apply elem_of_cons in Hl as [->|Hl]); [..|by apply elem_of_nil in Hl];
    eexists; split; vm_compute; reflexivity.
Qed.


Lemma length_tag_of l : String.length (tag_of l) = 10 + String.length l.
Proof. unfold tag_of. simpl. rewrite length_append. simpl. lia. Qed.

Lemma exec_tag a l post :
  free (is_char "(") a -> l ∈ validLocales ->
  exists caps,
    exec localeTag (a +:+ tag_of l +:+ post)
    = Some (MInfo (tag_of l) caps (String.length a) (a +:+ tag_of l +:+ post)) /\
    cap_lookup 1 caps = Some l.
Proof.
  intros Ha Hl. unfold exec.
  rewrite (search_from_region _ _ _ localeTag_opens) by done.
  destruct (match_at_tag (last_unit None a) l post Hl) as (st & Hm & Hc).
  rewrite (search_from_hit _ _ _ _ _ _ _ Hm). eauto.
Qed.

Lemma drop_app_length2 a b c :
  drop (String.length a + String.length b) (a +:+ b +:+ c) = c.
Proof. rewrite <- length_append, <- append_assoc. apply drop_app_length. Qed.

Lemma replace_first_tag a l post :
  free (is_char "(") a -> l ∈ validLocales ->
  replace_first localeTag "" (a +:+ tag_of l +:+ post) = a +:+ post.
Proof.
  intros Ha Hl. unfold replace_first.
  destruct (exec_tag a l post Ha Hl) as (caps & -> & _).
  cbn [mi_offset mi_text]. rewrite template_empty, take_app_length, drop_app_length2.
  done.
Qed.

Lemma lower_valid l : l ∈ validLocales -> toLowerCase l = l.
Proof.
  unfold validLocales. intros Hl.
  repeat (apply elem_of_cons in Hl as [->|Hl]); [..|by apply elem_of_nil in Hl]; reflexivity.
Qed.

Lemma scan_tagged acc a l post :
  free (is_char "(") a -> l ∈ validLocales ->
  scan_part acc (TextPart (a +:+ tag_of l +:+ post)) = Some l.
Proof.
  intros Ha Hl. unfold scan_part.
  destruct (exec_tag a l post Ha Hl) as (caps & -> & Hc).
  unfold group. cbn [mi_caps]. rewrite Hc. cbn [default]. by rewrite lower_valid.
Qed.

Lemma preferred_last history text l :
  scan_part (preferredLocale history) (TextPart text) = Some l ->
  preferredLocale (history ++ [sent text]) = Some l.
Proof.
  intros H. unfold preferredLocale. rewrite fold_left_app. cbn [fold_left].
  unfold scan_message. cbn [role sent negb String.eqb parts fold_left]. exact H.
Qed.

Lemma trimEnd_app_ws s c : is_ws c = true -> trimEnd (s +:+ String c "") = trimEnd s.
Proof.
  intros Hc. induction s as [|d s IH]; simpl; [by rewrite Hc|]. by rewrite IH.
Qed.

Lemma trimStart_app_ws s c :
  is_ws c = true -> truthy (trimStart s) = true ->
  trimStart (s +:+ String c "") = trimStart s +:+ String c "".
Proof.
  intros Hc. induction s as [|d s IH]; simpl; [done|].
  destruct (is_ws d); [exact IH|done].
Qed.

Lemma truthy_trim s : truthy (trim s) = true -> truthy (trimStart s) = true.
Proof. unfold trim. by destruct (trimStart s). Qed.


(** The editor's tag is the one the chat route reads: a message sent with
    one of the six locales chosen, whose text holds no opening parenthesis,
    makes the route settle on that locale, whatever the earlier messages
    say, and is shown in the conversation as the trimmed text that was
    typed. *)
Theorem sent_locale_is_read_back history l input :
  l ∈ validLocales -> free (is_char "(") input -> truthy (trim input) = true ->
  exists text,
    handleSubmit (Some l) input = Some text /\
    preferredLocale (history ++ [sent text]) = Some l /\
    shown_text text = trim input.
Proof.
  intros Hl Hin Ht. exists (input +:+ " (locale: " +:+ l +:+ ")").
  assert (E : input +:+ " (locale: " +:+ l +:+ ")" = (input +:+ " ") +:+ tag_of l +:+ "").
  { unfold tag_of. by rewrite (append_assoc input), append_nil_r. }
  assert (Hf : free (is_char "(") (input +:+ " ")) by (apply free_app; by split).
  split; [|split].
  - unfold handleSubmit. rewrite Ht.
    assert (truthy l = true) as ->; [|done].
    revert Hl. unfold validLocales. intros Hl.
    repeat (apply elem_of_cons in Hl as [->|Hl]); [..|by apply elem_of_nil in Hl]; done.
  - apply preferred_last. rewrite E. by apply scan_tagged.
  - unfold shown_text. rewrite E, replace_first_tag, append_nil_r by done.
    unfold trim. rewrite trimStart_app_ws by (done || by apply truthy_trim).
    by apply trimEnd_app_ws.
Qed.

Lemma sent_locale_is_read_back_witness :
  exists text,
    handleSubmit (Some "es") "A pricing card" = Some text /\
    preferredLocale (sample_history ++ [sent text]) = Some "es" /\
    shown_text text = trim "A pricing card".
Proof.
  apply (sent_locale_is_read_back sample_history "es" "A pricing card").
  - unfold validLocales. apply list_elem_of_further, list_elem_of_here.
  - reflexivity.
  - reflexivity.
Defined.

(** The route and the conversation both act on the first tag of a text:
    a text with a tag of one of the six locales after a stretch without an
    opening parenthesis makes the route settle on that locale, and is
    shown with that tag cut out; what follows the tag, a second tag
    included, is not looked at by the route and stays on display. *)
Theorem first_tag_is_the_one_read history a l post :
  l ∈ validLocales -> free (is_char "(") a ->
  preferredLocale (history ++ [sent (a +:+ tag_of l +:+ post)]) = Some l /\
  shown_text (a +:+ tag_of l +:+ post) = trim (a +:+ post).
Proof.
  intros Hl Ha. split.
  - apply preferred_last. by apply scan_tagged.
  - unfold shown_text. by rewrite replace_first_tag.
Qed.

Lemma first_tag_is_the_one_read_witness :
  preferredLocale (sample_history ++ [sent "Hola (locale: es) (locale: ja)"]) = Some "es" /\
  shown_text "Hola (locale: es) (locale: ja)" = "Hola  (locale: ja)".
Proof.
  apply (first_tag_is_the_one_read sample_history "Hola " "es" " (locale: ja)").
  - unfold validLocales. apply list_elem_of_further, list_elem_of_here.
  - reflexivity.
Defined.

(** *** The name derived for a component *)

Lemma exec_elem r src : forall rest pos prev m,
  search_from r src pos prev rest = Some m ->
  exists st0 st, (mi_text m, st) ∈ run r st0 /\ mi_caps m = ms_caps st.
Proof.
  induction rest as [|c rest IH]; intros pos prev m; cbn [search_from]; unfold match_at.
  - destruct (run r _) as [|[t st] l] eqn:E; [done|]. cbn [head]. intros [= <-].
    eexists _, st. rewrite E. split; [apply list_elem_of_here|done].
  - destruct (run r _) as [|[t st] l] eqn:E; cbn [head].
    + apply IH.
    + intros [= <-]. eexists _, st. rewrite E. split; [apply list_elem_of_here|done].
Qed.

Lemma captures_group g P r :
  within P r -> demands P r -> captures g P (Group g r).
Proof.
  intros Hw Hd st t st' Hin. exists t. split; [by eapply run_group_cap|].
  apply elem_of_run_group in Hin as (st1 & Hin & _). split.
  - destruct t; [|done]. exfalso. by eapply (run_demands P r Hd).
  - by eapply run_within.
Qed.

Lemma captures_seq_r g P r1 r2 : captures g P r2 -> captures g P (Seq r1 r2).
Proof.
  intros H st t st' (t1 & st1 & t2 & _ & H2 & _)%elem_of_run_seq. by eapply H.
Qed.

Lemma captures_seq_l g P r1 r2 :
  captures g P r1 -> g ∉ groups r2 -> captures g P (Seq r1 r2).
Proof.
  intros H Hg st t st' (t1 & st1 & t2 & H1 & H2 & _)%elem_of_run_seq.
  rewrite (run_caps _ _ _ _ g H2 Hg). by eapply H.
Qed.

Lemma groups_lit x : groups (Lit x) = [].
Proof. induction x as [|c x IH]; [done|]. cbn [Lit groups]. by rewrite IH. Qed.

Lemma captures_word_run : captures 1 is_word (Group 1 word_run).
Proof.
  apply captures_group; unfold word_run, Plus; cbn [within demands]; [done|by left].
Qed.

Lemma namePatterns_capture : Forall (captures 1 is_word) namePatterns.
Proof.
  unfold namePatterns. repeat constructor; cbn [seqs].
  - do 6 apply captures_seq_r. apply captures_word_run.
  - do 2 apply captures_seq_r. apply captures_seq_l; [apply captures_word_run|].
    cbn [groups ws0]. rewrite groups_lit. apply not_elem_of_nil.
  - do 2 apply captures_seq_r. apply captures_seq_l; [apply captures_word_run|].
    cbn [groups ws0 app]. rewrite !groups_lit. apply not_elem_of_nil.
  - do 4 apply captures_seq_r. apply captures_word_run.
Qed.

Lemma first_name_word patterns code name :
  Forall (captures 1 is_word) patterns -> first_name patterns code = Some name ->
  truthy name = true /\ all_units is_word name = true.
Proof.
  induction 1 as [|re patterns Hre _ IH]; [done|]. cbn [first_name].
  destruct (exec re code) as [m|] eqn:E; [|exact IH].
  apply exec_elem in E as (st0 & st & Hin & Hc).
  destruct (Hre _ _ _ Hin) as (w & Hw & Ht & Hu).
  unfold group. rewrite Hc, Hw.
  change (default "" (Some w)) with w. rewrite Ht. by intros [= <-].
Qed.

(** The name derived for a component is never empty and is made of
    letters, digits and underscores only, whatever the source is. *)
Theorem derived_name_is_identifier code :
  truthy (deriveComponentName code) = true /\
  all_units is_word (deriveComponentName code) = true.
Proof.
  unfold deriveComponentName. destruct (first_name namePatterns code) as [name|] eqn:E.
  - exact (first_name_word namePatterns code name namePatterns_capture E).
  - by repeat case_match.
Qed.

End ChatFacts.

(* ===================================================================== *)
(** ** The table on screen *)
(* ===================================================================== *)

Module TableViewFacts.
#[local] Arguments String.append !_ _ / : simpl nomatch.
Import Js Store TableView StoreFacts.

Lemma insert_sorted_Permutation
    (key_before : LocalizationEntry -> LocalizationEntry -> Prop)
    `{!RelDecision key_before} x l :
  insert_sorted key_before x l ≡ₚ x :: l.
Proof.
  induction l as [|y l IH]; [done|]. simpl. destruct (decide _); [|done].
  rewrite IH. apply Permutation_swap.
Qed.

Lemma sort_Permutation
    (key_before : LocalizationEntry -> LocalizationEntry -> Prop)
    `{!RelDecision key_before} l :
  sort key_before l ≡ₚ l.
Proof.
  unfold sort. rewrite <- (app_nil_r l) at 2. generalize (@nil LocalizationEntry).
  induction l as [|x l IH]; intros acc; [done|]. simpl.
  rewrite IH, insert_sorted_Permutation. by rewrite Permutation_middle.
Qed.

Lemma update_where_no_id sets now i t :
  has_id i t = false -> update_where (fun r => String.eqb (id r) i) sets now t = t.
Proof.
  unfold update_where, has_id. induction t as [|r t IH]; [done|]. cbn [existsb map].
  intros [Hr Ht]%orb_false_iff. by rewrite Hr, IH.
Qed.

(** Adding a key while the store already holds [new.key] leaves the store
    as it was, since the insert is ignored, but still puts a row with the
    new id into the table on screen: the view then shows one row more, a
    row the store does not hold. *)
Theorem second_add_leaves_unstored_row
    (key_before : LocalizationEntry -> LocalizationEntry -> Prop)
    `{!RelDecision key_before} now iso newId entries w :
  has_key "new.key" (db w) = true -> has_id newId (db w) = false ->
  let r := handleAddEntry key_before now iso newId entries w in
  db r.2 = db w /\
  has_id newId (db r.2) = false /\
  (exists e, e ∈ r.1 /\ id e = newId /\ key e = "new.key") /\
  length r.1 = S (length entries).
Proof.
  intros Hk Hi. unfold handleAddEntry. rewrite createLocalization_eq. cbn [fst snd].
  rewrite save_db. cbn [set_db db]. unfold insert_or_ignore. cbn [id key].
  rewrite Hk, orb_true_r. split; [done|]. split; [done|]. split.
  - exists (Entry newId "new.key" "" "" "" "" "" "" iso iso). split; [|done].
    rewrite sort_Permutation. apply elem_of_app. right. apply list_elem_of_here.
  - by rewrite sort_Permutation, length_app, Nat.add_1_r.
Qed.

Lemma second_add_leaves_unstored_row_witness :
  let w := (handleAddEntry key_le "2025-11-02 09:00:00" "2025-11-02T09:00:00.000Z"
              "1762074000000k3j9x2m1q" [] sample_world).2 in
  let r := handleAddEntry key_le "2025-11-02 09:00:05" "2025-11-02T09:00:05.000Z"
              "1762074005000p0q8w7e6r" (db w) w in
  db r.2 = db w /\
  has_id "1762074005000p0q8w7e6r" (db r.2) = false /\
  (exists e, e ∈ r.1 /\ id e = "1762074005000p0q8w7e6r" /\ key e = "new.key") /\
  length r.1 = S (length (db w)).
Proof.
  intros w.
  apply (second_add_leaves_unstored_row key_le "2025-11-02 09:00:05"
           "2025-11-02T09:00:05.000Z" "1762074005000p0q8w7e6r" (db w) w).
  - reflexivity.
  - reflexivity.
Defined.

(** Saving a cell of a row the store does not hold reports no error and
    rewrites the row on screen, while the table of the store stays as it
    was: the edit is lost at the next load. *)
Theorem edit_of_unstored_row_is_lost now stamp i field v entries w :
  includes validFields field = true -> has_id i (db w) = false ->
  let r := handleSave_view now stamp i field v entries w in
  (updateLocalization now i field v w).1 = Ok tt /\
  db r.2 = db w /\
  (forall e, e ∈ entries -> id e = i -> set_column field v e ∈ r.1).
Proof.
  intros Hf Hi. unfold handleSave_view. rewrite updateLocalization_eq, Hf. cbn [negb].
  cbv zeta. rewrite update_where_no_id by done.
  destruct (keys_distinct (db w)); rewrite ?andb_false_r, ?andb_true_r;
    cbn [negb andb fst snd].
  all: rewrite ?andb_false_r; cbn [fst snd].
  all: split; [done|]; split.
  all: try (destruct (storage_writable _); cbn [set_version db];
            rewrite save_db; by destruct w).
  all: intros e He Hid; apply list_elem_of_fmap; exists e; split; [|done];
       apply String.eqb_eq in Hid; by rewrite Hid.
Qed.

Lemma edit_of_unstored_row_is_lost_witness :
  let e := Entry "ghost" "new.key" "" "" "" "" "" "" "" "" in
  let r := handleSave_view "2025-11-02 09:00:00" "1762074000000" "ghost" "en" "Hello"
             [e] sample_world in
  (updateLocalization "2025-11-02 09:00:00" "ghost" "en" "Hello" sample_world).1 = Ok tt /\
  db r.2 = db sample_world /\
  (forall e', e' ∈ [e] -> id e' = "ghost" -> set_column "en" "Hello" e' ∈ r.1).
Proof.
  intros e.
  apply (edit_of_unstored_row_is_lost "2025-11-02 09:00:00" "1762074000000" "ghost" "en"
           "Hello" [e] sample_world).
  - reflexivity.
  - reflexivity.
Defined.

End TableViewFacts.
